(** * laya / mcp-agent-os: terminal tool server and agent loop

    A shallow embedding of
      - servers/terminal-server/src/terminalTools.ts (policy engine,
        path confinement, two-stage confirmation store, process runner), and
      - the chatbot module of the client (action parser and reasoning loop),
    together with the properties of the specification that are checked
    against them.

    Conventions of the embedding.
      - JavaScript strings are [string]s (one [ascii] per code unit).
      - JavaScript numbers that the code uses as counts or clock readings
        are integers of [Z].
      - A thrown [Error] is the [Err] branch of [Result]; the error kinds are
        the ones of section 7 of the specification.
      - The outside world (clock, UUID source, audit file, child processes,
        the language model, tool servers) answers through explicit records
        of responses ([Env], [World]); every theorem quantifies over them. *)

From Stdlib Require Import ZArith List String Ascii Bool Lia.
From Stdlib Require Import DecimalString DecimalZ.
From stdpp Require Import base option gmap strings list.

Open Scope string_scope.
Open Scope Z_scope.

(** ** Results of fallible code *)

Inductive ErrorKind :=
| PathEscape
| NotAllowed
| InvalidCommandName
| BlockedArgument
| InvalidRegExp
| ConfirmationMissing
| ConfirmationExpired
| SpawnFailure
| IOFailure
| InvalidArgument
| ActionInvalid.

Inductive Result (A : Type) :=
| Ok (a : A)
| Err (kind : ErrorKind) (message : string).
Arguments Ok {A} a.
Arguments Err {A} kind message.

Global Instance result_ret : MRet Result := fun A a => Ok a.
Global Instance result_bind : MBind Result := fun A B k r =>
  match r with
  | Ok a => k a
  | Err e m => Err e m
  end.

(** ** JavaScript string primitives used by the code *)

Module Js.

Definition nl : string := String "010"%char "".
Definition dq : string := String "034"%char "".

(** [s.length] *)
Definition len (s : string) : Z := Z.of_nat (String.length s).

(** [s.startsWith(p)] *)
Fixpoint startsWith (s p : string) {struct p} : bool :=
  match p with
  | EmptyString => true
  | String a p' =>
      match s with
      | EmptyString => false
      | String b s' => Ascii.eqb a b && startsWith s' p'
      end
  end.

(** [s.includes(sub)] *)
Fixpoint includes (s sub : string) : bool :=
  startsWith s sub ||
  match s with
  | EmptyString => false
  | String _ s' => includes s' sub
  end.

(** first [n] code units *)
Fixpoint take (n : nat) (s : string) : string :=
  match n, s with
  | O, _ => ""
  | S _, EmptyString => ""
  | S n', String c s' => String c (take n' s')
  end.

(** what is left after the first [n] code units *)
Fixpoint drop (n : nat) (s : string) : string :=
  match n, s with
  | O, _ => s
  | S _, EmptyString => ""
  | S n', String _ s' => drop n' s'
  end.

(** [s.slice(0, e)]: a negative end counts from the end of the string *)
Definition slice0 (s : string) (e : Z) : string :=
  if e <? 0 then take (Z.to_nat (len s + e)) s else take (Z.to_nat e) s.

(** ECMAScript white space and line terminators among the code units
    below 256. *)
Definition isWhite (c : ascii) : bool :=
  match c with
  | "009" | "010" | "011" | "012" | "013" | " " | "160" => true
  | _ => false
  end%char.

Fixpoint trimStart (s : string) : string :=
  match s with
  | EmptyString => ""
  | String c s' => if isWhite c then trimStart s' else s
  end.

Fixpoint trimEnd (s : string) : string :=
  match s with
  | EmptyString => ""
  | String c s' =>
      match trimEnd s' with
      | EmptyString => if isWhite c then "" else String c ""
      | t => String c t
      end
  end.

Definition trim (s : string) : string := trimEnd (trimStart s).

(** [`${n}`] for an integer [n] *)
Definition numToString (n : Z) : string :=
  NilZero.string_of_int (Z.to_int n).

(** [xs.includes(x)] on an array of strings *)
Definition arrIncludes (xs : list string) (x : string) : bool :=
  existsb (String.eqb x) xs.

(** truthiness of a string: only [""] is falsy *)
Definition truthy (s : string) : bool := negb (String.eqb s "").

End Js.

(** ** The process runner (component G) *)

Module Runner.

(** [`\n...[truncated to ${maxChars} chars]`] *)
Definition truncationSuffix (maxChars : Z) : string :=
  Js.nl ++ "...[truncated to " ++ Js.numToString maxChars ++ " chars]".

Definition clampText (s : string) (maxChars : Z) : string :=
  if Js.len s <=? maxChars then s
  else Js.slice0 s maxChars ++ truncationSuffix maxChars.

(** What a child process does after [spawn]: it emits data chunks on its
    two pipes and then either an ['error'] event (the promise rejects) or
    ['close'] with an exit code ([None] when killed by a signal). *)
Inductive ChildEvent :=
| StdoutData (d : string)
| StderrData (d : string).

Inductive ChildEnd :=
| ChildError (message : string)
| ChildClose (code : option Z).

Record ChildRun := { events : list ChildEvent; ending : ChildEnd }.

(** one ['data'] handler: append, then clamp when over the limit *)
Definition onData (maxOutputChars : Z) (buf d : string) : string :=
  let buf' := buf ++ d in
  if maxOutputChars <? Js.len buf' then clampText buf' maxOutputChars else buf'.

Fixpoint capture (maxOutputChars : Z) (out err : string) (evs : list ChildEvent)
  : string * string :=
  match evs with
  | [] => (out, err)
  | StdoutData d :: evs' => capture maxOutputChars (onData maxOutputChars out d) err evs'
  | StderrData d :: evs' => capture maxOutputChars out (onData maxOutputChars err d) evs'
  end.

Definition stderrMarker : string := Js.nl ++ "[stderr]" ++ Js.nl.

(** the ['close'] handler *)
Definition combine (out err : string) : string :=
  let combined :=
    Js.trimEnd (out ++ (if Js.truthy err then stderrMarker ++ err else "")) in
  if Js.truthy combined then combined else "(no output)".

Record SpawnResult := { output : string; exitCode : option Z }.

Definition spawnAndCapture (run : ChildRun) (maxOutputChars : Z) : Result SpawnResult :=
  let '(out, err) := capture maxOutputChars "" "" (events run) in
  match ending run with
  | ChildError m => Err SpawnFailure m
  | ChildClose code => Ok {| output := combine out err; exitCode := code |}
  end.

End Runner.

(** ** [node:path], POSIX flavour

    The sandbox arithmetic of the server is done by [path.resolve],
    [path.relative], [path.isAbsolute] and [path.dirname] of the Node
    runtime.  They are modelled here on path segments, as the runtime
    documents them: [resolve] prepends the arguments from right to left until
    an absolute one is met (the working directory last), then removes empty
    and ["."] segments and lets [".."] cancel the segment before it;
    [relative] resolves both paths, drops their common leading segments and
    climbs with one [".."] for each segment left of the first. *)

Module Path.

Definition isAbsolute (p : string) : bool :=
  match p with
  | String "/" _ => true
  | _ => false
  end.

(** [p.split('/')] *)
Fixpoint split (p : string) : list string :=
  match p with
  | EmptyString => [""]
  | String c p' =>
      match split p' with
      | seg :: segs =>
          if Ascii.eqb c "/" then "" :: seg :: segs else String c seg :: segs
      | [] => [String c ""]
      end
  end.

Definition joinSegments (segs : list string) : string := String.concat "/" segs.

(** one segment against the stack of segments kept so far (top first) *)
Definition pushSegment (allowAboveRoot : bool) (stack : list string) (seg : string)
  : list string :=
  if String.eqb seg "" || String.eqb seg "." then stack
  else if String.eqb seg ".." then
    match stack with
    | top :: below =>
        if String.eqb top ".." then seg :: stack else below
    | [] => if allowAboveRoot then [seg] else []
    end
  else seg :: stack.

Definition normalizeSegments (allowAboveRoot : bool) (segs : list string) : list string :=
  rev (fold_left (pushSegment allowAboveRoot) segs []).

Definition normalizeString (p : string) (allowAboveRoot : bool) : string :=
  joinSegments (normalizeSegments allowAboveRoot (split p)).

(** the right-to-left loop of [resolve]; the list is the arguments in
    reverse, ending with the working directory *)
Fixpoint resolveLoop (revPaths : list string) (resolvedPath : string) : string * bool :=
  match revPaths with
  | [] => (resolvedPath, false)
  | p :: rest =>
      if String.eqb p "" then resolveLoop rest resolvedPath
      else
        let resolvedPath' := p ++ "/" ++ resolvedPath in
        if isAbsolute p then (resolvedPath', true) else resolveLoop rest resolvedPath'
  end.

Definition resolve (cwd : string) (paths : list string) : string :=
  let '(resolvedPath, resolvedAbsolute) := resolveLoop (rev (cwd :: paths)) "" in
  let normalized := normalizeString resolvedPath (negb resolvedAbsolute) in
  if resolvedAbsolute then "/" ++ normalized
  else if String.eqb normalized "" then "." else normalized.

(** the segments of a resolved path *)
Definition segments (p : string) : list string :=
  filter (fun seg => seg <> "") (split p).

Fixpoint dropCommon (from to : list string) : list string * list string :=
  match from, to with
  | f :: from', t :: to' =>
      if String.eqb f t then dropCommon from' to' else (from, to)
  | _, _ => (from, to)
  end.

Definition relative (cwd from to : string) : string :=
  if String.eqb from to then ""
  else
    let from' := resolve cwd [from] in
    let to' := resolve cwd [to] in
    if String.eqb from' to' then ""
    else
      let '(up, down) := dropCommon (segments from') (segments to') in
      joinSegments (map (fun _ => "..") up ++ down).

Fixpoint endsWithSlash (p : string) : bool :=
  match p with
  | EmptyString => false
  | String c EmptyString => Ascii.eqb c "/"
  | String _ p' => endsWithSlash p'
  end.

Definition normalize (p : string) : string :=
  if String.eqb p "" then "."
  else
    let absolute := isAbsolute p in
    let trailingSeparator := endsWithSlash p in
    let n := normalizeString p (negb absolute) in
    if String.eqb n "" then
      if absolute then "/" else if trailingSeparator then "./" else "."
    else
      let n' := if trailingSeparator then n ++ "/" else n in
      if absolute then "/" ++ n' else n'.

(** [path.join]: the non-empty arguments joined by a slash, normalized *)
Definition join (paths : list string) : string :=
  let parts := filter (fun a => a <> "") paths in
  match parts with
  | [] => "."
  | _ => normalize (String.concat "/" parts)
  end.

(** the backward scan of [dirname]: index of the slash that ends the
    directory part, looking at positions [i], [i-1], ..., [1] *)
Fixpoint dirnameEnd (p : string) (i : nat) (matchedSlash : bool) : option nat :=
  match i with
  | O => None
  | S i' =>
      match String.get i p with
      | Some "/"%char =>
          if matchedSlash then dirnameEnd p i' matchedSlash else Some i
      | _ => dirnameEnd p i' false
      end
  end.

Definition dirname (p : string) : string :=
  if String.eqb p "" then "."
  else
    let hasRoot := isAbsolute p in
    match dirnameEnd p (String.length p - 1) true with
    | None => if hasRoot then "/" else "."
    | Some e => if hasRoot && Nat.eqb e 1 then "//" else Js.take e p
    end.

End Path.

(** ** terminalTools.ts: data model *)

Module Terminal.

Import Runner.

Record DangerousPattern := {
  dp_command : string;
  argsAnyOf : option (list string);
  argsRegexAnyOf : option (list string)
}.

Record TerminalPolicy := {
  sandboxRoot : string;
  auditLogPath : string;
  allowedCommands : list string;
  blockedArgsRegex : option (list string);
  dangerousCommands : option (list string);
  dangerousPatterns : option (list DangerousPattern);
  confirmTtlSeconds : option Z;
  maxOutputChars : option Z;
  maxFileReadBytes : option Z
}.

Inductive Stage := Stage1 | Stage2.

Record PendingConfirmation := {
  token : string;
  stage : Stage;
  createdAtMs : Z;
  expiresAtMs : Z;
  command : string;
  args : list string;
  cwd : string;
  reason : string
}.

(** The immutable part of [TerminalContext]; its [pending] map is the
    mutable store, kept in [World] below. *)
Record TerminalContext := {
  policy : TerminalPolicy;
  sandboxRootAbs : string;
  auditLogAbs : string
}.

(** *** Audit records (one JSON line each), by event kind *)

Inductive AuditEntry :=
| run_requires_confirmation_stage1
    (tok cmd : string) (argv : list string) (dir why : string)
| run_executed (cmd : string) (argv : list string) (dir : string) (code : option Z)
| confirm_stage1_issued_stage2
    (token1 token2 cmd : string) (argv : list string) (dir why : string)
| confirm_executed
    (tok : string) (stg : Stage) (cmd : string) (argv : list string)
    (dir why : string) (code : option Z)
| confirm_cancel (tok : string) (existed : bool)
| ssh_keygen_requires_confirmation_stage1
    (tok keyType keyPath : string) (overwrite : bool).

(** *** The world outside the handlers

    Every interaction with the runtime is an [Event] appended to the
    trace.  The answers of the runtime come from [Env], indexed by the
    number of interactions made so far, so that one [Env] describes a
    whole session. *)

Inductive Event :=
| EvClock (ms : Z)
| EvUUID (u : string)
| EvSpawn (cmd : string) (argv : list string) (dir : string)
| EvAppend (path : string) (ts : Z) (entry : AuditEntry) (ok : bool)
| EvMkdir (path : string) (mode : Z) (ok : bool)
| EvStat (path : string) (ok : bool)
| EvChmod (path : string) (mode : Z).

Record Env := {
  clock : nat -> Z;
  uuid : nat -> string;
  child : nat -> string -> list string -> string -> ChildRun;
  appendOk : nat -> bool;
  mkdirOk : nat -> bool;
  statOk : nat -> string -> bool;
  homedir : string;
  processCwd : string
}.

Record World := {
  pending : gmap string PendingConfirmation;
  trace : list Event
}.

Definition emptyWorld : World := {| pending := ∅; trace := [] |}.

Definition M (A : Type) : Type := Env -> World -> Result A * World.

Global Instance M_ret : MRet M := fun A a _ w => (Ok a, w).
Global Instance M_bind : MBind M := fun A B k m env w =>
  match m env w with
  | (Ok a, w') => k a env w'
  | (Err e msg, w') => (Err e msg, w')
  end.

Definition throw {A} (kind : ErrorKind) (message : string) : M A :=
  fun _ w => (Err kind message, w).

Definition liftResult {A} (r : Result A) : M A := fun _ w => (r, w).

Definition ask : M Env := fun env w => (Ok env, w).

(** an interaction: the answer is read at the current position and the
    event is recorded *)
Definition interact {A} (answer : Env -> nat -> A) (ev : A -> Event) : M A :=
  fun env w =>
    let a := answer env (length (trace w)) in
    (Ok a, {| pending := pending w; trace := trace w ++ [ev a] |}).

Definition dateNow : M Z := interact clock EvClock.
Definition randomUUID : M string := interact uuid EvUUID.

Definition pendingGet (tok : string) : M (option PendingConfirmation) :=
  fun _ w => (Ok (pending w !! tok), w).

Definition pendingSet (tok : string) (p : PendingConfirmation) : M unit :=
  fun _ w => (Ok tt, {| pending := <[tok := p]> (pending w); trace := trace w |}).

(** [Map.prototype.delete] answers whether the key was there *)
Definition pendingDelete (tok : string) : M bool :=
  fun _ w =>
    (Ok (bool_decide (is_Some (pending w !! tok))),
     {| pending := delete tok (pending w); trace := trace w |}).

(** Regular expressions are a service of the runtime: [new RegExp(src)]
    either throws or yields a matcher [re.test]. *)
Section WithRegExp.

Variable RegExp : string -> option (string -> bool).

Definition newRegExp (src : string) : Result (string -> bool) :=
  match RegExp src with
  | Some re => Ok re
  | None => Err InvalidRegExp ("Invalid regular expression: " ++ src)
  end.

(** [/^[a-zA-Z0-9._-]+$/] *)
Definition isNameChar (c : ascii) : bool :=
  let n := nat_of_ascii c in
  ((97 <=? n) && (n <=? 122))%nat || ((65 <=? n) && (n <=? 90))%nat ||
  ((48 <=? n) && (n <=? 57))%nat ||
  Ascii.eqb c "." || Ascii.eqb c "_" || Ascii.eqb c "-".

Fixpoint allNameChars (s : string) : bool :=
  match s with
  | EmptyString => true
  | String c s' => isNameChar c && allNameChars s'
  end.

Definition matchesNamePattern (s : string) : bool :=
  Js.truthy s && allNameChars s.

Definition isSafeCommandName (cmd : string) : bool := matchesNamePattern cmd.

(** *** Path resolver (component B) *)

Definition resolveSandboxPath (cwd0 : string) (ctx : TerminalContext) (userPath : string)
  : Result string :=
  let abs :=
    if Path.isAbsolute userPath
    then Path.resolve cwd0 [userPath]
    else Path.resolve cwd0 [sandboxRootAbs ctx; userPath] in
  let rel := Path.relative cwd0 (sandboxRootAbs ctx) abs in
  if Js.startsWith rel ".." || Path.isAbsolute rel
  then Err PathEscape ("Path is outside sandboxRoot: " ++ userPath)
  else Ok abs.

(** *** Danger classifier (component E) *)

Fixpoint regexAnyOf (cmd : string) (argv : list string) (reStrs : list string)
  : Result (option string) :=
  match reStrs with
  | [] => Ok None
  | reStr :: rest =>
      re ← newRegExp reStr;
      if existsb re argv
      then Ok (Some ("Dangerous pattern matched for " ++ Js.dq ++ cmd ++ Js.dq
                       ++ " (" ++ reStr ++ ")"))
      else regexAnyOf cmd argv rest
  end.

Fixpoint dangerousRules (cmd : string) (argv : list string)
    (rules : list DangerousPattern) : Result (option string) :=
  match rules with
  | [] => Ok None
  | rule :: rest =>
      if negb (String.eqb (dp_command rule) cmd) then dangerousRules cmd argv rest
      else if
        match argsAnyOf rule with
        | Some anyOf => existsb (fun a => Js.arrIncludes argv a) anyOf
        | None => false
        end
      then Ok (Some ("Dangerous pattern matched for " ++ Js.dq ++ cmd ++ Js.dq
                       ++ " (argsAnyOf)"))
      else
        hit ← match argsRegexAnyOf rule with
              | Some reStrs => regexAnyOf cmd argv reStrs
              | None => Ok None
              end;
        match hit with
        | Some why => Ok (Some why)
        | None => dangerousRules cmd argv rest
        end
  end.

Definition isDangerous (ctx : TerminalContext) (cmd : string) (argv : list string)
  : Result (option string) :=
  if match dangerousCommands (policy ctx) with
     | Some cmds => Js.arrIncludes cmds cmd
     | None => false
     end
  then Ok (Some ("Command " ++ Js.dq ++ cmd ++ Js.dq ++ " is marked dangerous by policy"))
  else dangerousRules cmd argv (default [] (dangerousPatterns (policy ctx))).

(** *** Argument guard (component D) *)

Fixpoint checkBlocked (argv : list string) (reStrs : list string) : Result unit :=
  match reStrs with
  | [] => Ok tt
  | reStr :: rest =>
      re ← newRegExp reStr;
      match List.find re argv with
      | Some bad =>
          if Js.truthy bad
          then Err BlockedArgument ("Blocked argument by policy: " ++ bad)
          else checkBlocked argv rest
      | None => checkBlocked argv rest
      end
  end.

Fixpoint checkEscapes (cwd0 : string) (ctx : TerminalContext) (argv : list string)
  : Result unit :=
  match argv with
  | [] => Ok tt
  | a :: rest =>
      if Js.includes a ".."
      then Err PathEscape ("Refusing argument containing " ++ Js.dq ++ ".." ++ Js.dq
                             ++ ": " ++ a)
      else if Js.startsWith a "/" then
        let abs := Path.resolve cwd0 [a] in
        let rel := Path.relative cwd0 (sandboxRootAbs ctx) abs in
        if Js.startsWith rel ".." || Path.isAbsolute rel
        then Err PathEscape ("Absolute path argument outside sandbox: " ++ a)
        else checkEscapes cwd0 ctx rest
      else checkEscapes cwd0 ctx rest
  end.

Definition checkArgsAgainstPolicy (cwd0 : string) (ctx : TerminalContext)
    (argv : list string) : Result unit :=
  checkBlocked argv (default [] (blockedArgsRegex (policy ctx)));;
  checkEscapes cwd0 ctx argv.

(** *** Audit sink (component C) *)

Definition appendAudit (ctx : TerminalContext) (entry : AuditEntry) : M unit :=
  ts ← dateNow;
  ok ← interact appendOk (EvAppend (auditLogAbs ctx) ts entry);
  if ok : bool then mret tt
  else throw IOFailure ("appendFile failed: " ++ auditLogAbs ctx).

(** *** Confirmation store (component F) *)

Definition ttlMs (ctx : TerminalContext) : Z :=
  default 90 (confirmTtlSeconds (policy ctx)) * 1000.

Definition createPendingConfirmation (ctx : TerminalContext)
    (cmd : string) (argv : list string) (cwdAbs why : string) : M PendingConfirmation :=
  now ← dateNow;
  tok ← randomUUID;
  let p := {| token := tok; stage := Stage1;
              createdAtMs := now; expiresAtMs := now + ttlMs ctx;
              command := cmd; args := argv; cwd := cwdAbs; reason := why |} in
  pendingSet tok p;;
  mret p.

(** *** Process runner, as an interaction *)

Definition spawnAndCaptureM (cmd : string) (argv : list string) (dir : string)
    (maxChars : Z) : M SpawnResult :=
  run ← interact (fun env n => child env n cmd argv dir) (fun _ => EvSpawn cmd argv dir);
  liftResult (spawnAndCapture run maxChars).

(** *** Tool implementations (component H) *)

Record Confirmation := {
  c_token : string;
  c_reason : string;
  c_expiresAt : Z
}.

Record ToolResponse := {
  text : string;
  requiresConfirmation : option Confirmation
}.

Record RunParams := {
  rp_command : string;
  rp_args : option (list string);
  rp_cwd : option string
}.

Definition maxChars (ctx : TerminalContext) : Z :=
  default 20000 (maxOutputChars (policy ctx)).

Definition toolRun (ctx : TerminalContext) (params : RunParams) : M ToolResponse :=
  let cmd := rp_command params in
  let argv := default [] (rp_args params) in
  env ← ask;
  cwdAbs ← liftResult (resolveSandboxPath (processCwd env) ctx (default "." (rp_cwd params)));
  if negb (isSafeCommandName cmd)
  then throw InvalidCommandName ("Invalid command name: " ++ cmd)
  else if negb (Js.arrIncludes (allowedCommands (policy ctx)) cmd)
  then throw NotAllowed ("Command not allowed: " ++ cmd)
  else
    liftResult (checkArgsAgainstPolicy (processCwd env) ctx argv);;
    dangerReason ← liftResult (isDangerous ctx cmd argv);
    if match dangerReason with Some why => Js.truthy why | None => false end
    then
      let why := default "" dangerReason in
      p ← createPendingConfirmation ctx cmd argv cwdAbs why;
      appendAudit ctx (run_requires_confirmation_stage1 (token p) cmd argv cwdAbs why);;
      mret {| text :=
                "Refusing to execute dangerous command without confirmation." ++ Js.nl
                ++ "Reason: " ++ why ++ Js.nl
                ++ "Step 1/2: run: confirm " ++ token p ++ Js.nl;
              requiresConfirmation :=
                Some {| c_token := token p; c_reason := why;
                        c_expiresAt := expiresAtMs p |} |}
    else
      res ← spawnAndCaptureM cmd argv cwdAbs (maxChars ctx);
      appendAudit ctx (run_executed cmd argv cwdAbs (exitCode res));;
      mret {| text := output res; requiresConfirmation := None |}.

(** [args.findIndex(a => a === x)] *)
Fixpoint findIndex (x : string) (xs : list string) : option nat :=
  match xs with
  | [] => None
  | y :: ys => if String.eqb y x then Some O else S <$> findIndex x ys
  end.

Definition chmod (path : string) (mode : Z) : M unit :=
  fun _ w => (Ok tt, {| pending := pending w; trace := trace w ++ [EvChmod path mode] |}).

(** best-effort permissions after [ssh-keygen]; nothing here can fail
    the command *)
Definition sshKeygenPostProcess (p : PendingConfirmation) : M unit :=
  if String.eqb (command p) "ssh-keygen" then
    env ← ask;
    match findIndex "-f" (args p) ≫= (fun fIdx => args p !! S fIdx) with
    | Some keyPath =>
        if Js.truthy keyPath then
          let sshDir := Path.dirname keyPath in
          let sshDirAbs := Path.resolve (processCwd env) [sshDir] in
          let expected := Path.resolve (processCwd env) [homedir env; ".ssh"] in
          if String.eqb sshDirAbs expected then
            chmod expected 448;;
            chmod keyPath 384;;
            chmod (keyPath ++ ".pub") 420
          else mret tt
        else mret tt
    | None => mret tt
    end
  else mret tt.

Definition toolConfirm (ctx : TerminalContext) (tok : string) : M ToolResponse :=
  found ← pendingGet tok;
  match found with
  | None =>
      throw ConfirmationMissing "Unknown confirmation token (maybe expired or already used)"
  | Some p =>
      now0 ← dateNow;
      if expiresAtMs p <? now0 then
        pendingDelete tok;;
        throw ConfirmationExpired "Confirmation token expired"
      else
        match stage p with
        | Stage1 =>
            pendingDelete tok;;
            now ← dateNow;
            token2 ← randomUUID;
            let p2 := {| token := token2; stage := Stage2;
                         createdAtMs := now; expiresAtMs := now + ttlMs ctx;
                         command := command p; args := args p; cwd := cwd p;
                         reason := reason p |} in
            pendingSet token2 p2;;
            appendAudit ctx
              (confirm_stage1_issued_stage2 tok token2 (command p) (args p) (cwd p)
                 (reason p));;
            mret {| text :=
                      "Confirmation step 1/2 accepted." ++ Js.nl
                      ++ "Reason: " ++ reason p ++ Js.nl
                      ++ "Step 2/2: run: confirm " ++ token2 ++ Js.nl;
                    requiresConfirmation := None |}
        | Stage2 =>
            pendingDelete tok;;
            res ← spawnAndCaptureM (command p) (args p) (cwd p) (maxChars ctx);
            sshKeygenPostProcess p;;
            appendAudit ctx
              (confirm_executed tok (stage p) (command p) (args p) (cwd p) (reason p)
                 (exitCode res));;
            mret {| text := output res; requiresConfirmation := None |}
        end
  end.

Definition toolCancel (ctx : TerminalContext) (tok : string) : M ToolResponse :=
  existed ← pendingDelete tok;
  appendAudit ctx (confirm_cancel tok existed);;
  mret {| text := if existed : bool then "Cancelled pending confirmation."
                  else "No pending confirmation for that token.";
          requiresConfirmation := None |}.

Definition ensureSafeSshKeyFileName (name : string) : Result string :=
  let trimmed := Js.trim name in
  if negb (Js.truthy trimmed) then Err InvalidArgument "filename must be non-empty"
  else if Js.includes trimmed "/" || Js.includes trimmed "\"
  then Err InvalidArgument "filename must not contain path separators"
  else if String.eqb trimmed "." || String.eqb trimmed ".."
  then Err InvalidArgument "invalid filename"
  else if negb (matchesNamePattern trimmed)
  then Err InvalidArgument "filename contains invalid characters"
  else Ok trimmed.

Inductive KeyType := ed25519 | rsa.

Definition keyTypeName (t : KeyType) : string :=
  match t with ed25519 => "ed25519" | rsa => "rsa" end.

Record SshKeyParams := {
  sk_type : option KeyType;
  sk_filename : option string;
  sk_comment : option string;
  sk_passphrase : option string;
  sk_overwrite : option bool
}.

Definition mkdir (path : string) (mode : Z) : M unit :=
  ok ← interact mkdirOk (EvMkdir path mode);
  if ok : bool then mret tt else throw IOFailure ("mkdir failed: " ++ path).

(** [fs.stat(p).then(() => true).catch(() => false)] *)
Definition statExists (path : string) : M bool :=
  interact (fun env n => statOk env n path) (EvStat path).

(** the private key or its [.pub] is there; the second [stat] is made only
    when the first fails *)
Definition keyFilesExist (keyPath : string) : M bool :=
  existsKey ← statExists keyPath;
  if existsKey : bool then mret true else statExists (keyPath ++ ".pub").

Definition sshKeygenArgs (keyType : KeyType) (keyPath comment passphrase : string)
  : list string :=
  ["-t"; keyTypeName keyType; "-f"; keyPath; "-C"; comment; "-N"; passphrase].

Definition toolGenerateSshKey (ctx : TerminalContext) (params : SshKeyParams)
  : M ToolResponse :=
  let keyType := default ed25519 (sk_type params) in
  filename ← liftResult (ensureSafeSshKeyFileName (default "id_ed25519" (sk_filename params)));
  let comment := default "smartos-mcp" (sk_comment params) in
  let passphrase := default "" (sk_passphrase params) in
  let overwrite := default false (sk_overwrite params) in
  env ← ask;
  let home := homedir env in
  let sshDir := Path.resolve (processCwd env) [home; ".ssh"] in
  let keyPath := Path.join [sshDir; filename] in
  mkdir sshDir 448;;
  exists_ ← keyFilesExist keyPath;
  if exists_ && negb overwrite
  then throw InvalidArgument
         ("Key already exists at ~/.ssh/" ++ filename
          ++ " (pass overwrite:true to replace)")
  else
    let argv := sshKeygenArgs keyType keyPath comment passphrase in
    let why :=
      "Requested SSH key generation under ~/.ssh." ++ Js.nl
      ++ "Type: " ++ keyTypeName keyType ++ Js.nl
      ++ "Target: ~/.ssh/" ++ filename ++ Js.nl
      ++ (if exists_ then "NOTE: existing key files will be overwritten." ++ Js.nl else "")
      ++ (if Js.truthy passphrase then "NOTE: a passphrase was provided." ++ Js.nl
          else "NOTE: empty passphrase." ++ Js.nl) in
    p ← createPendingConfirmation ctx "ssh-keygen" argv home why;
    appendAudit ctx
      (ssh_keygen_requires_confirmation_stage1 (token p) (keyTypeName keyType) keyPath
         overwrite);;
    mret {| text :=
              "Refusing to generate SSH key under ~/.ssh without confirmation." ++ Js.nl
              ++ "Reason:" ++ Js.nl ++ why ++ Js.nl
              ++ "Step 1/2: run: confirm " ++ token p ++ Js.nl;
            requiresConfirmation :=
              Some {| c_token := token p; c_reason := why;
                      c_expiresAt := expiresAtMs p |} |}.

(** *** Requests to the server that touch the confirmation store *)

Inductive Request :=
| Run (params : RunParams)
| Confirm (tok : string)
| Cancel (tok : string)
| GenerateSshKey (params : SshKeyParams).

Definition handle (ctx : TerminalContext) (req : Request) : M ToolResponse :=
  match req with
  | Run params => toolRun ctx params
  | Confirm tok => toolConfirm ctx tok
  | Cancel tok => toolCancel ctx tok
  | GenerateSshKey params => toolGenerateSshKey ctx params
  end.

(** A session: requests are served one at a time; an error response
    leaves the server running. *)
Fixpoint serve (ctx : TerminalContext) (reqs : list Request) (env : Env) (w : World)
  : World :=
  match reqs with
  | [] => w
  | req :: rest => serve ctx rest env (snd (handle ctx req env w))
  end.

(** the [spawn] calls of a trace, in order *)
Definition spawns (t : list Event) : list (string * list string * string) :=
  omap (fun e => match e with
                 | EvSpawn cmd argv dir => Some (cmd, argv, dir)
                 | _ => None
                 end) t.

End WithRegExp.

End Terminal.

(** ** JSON values, [JSON.stringify] and [JSON.parse]

    The values of the embedding are the JSON values whose numbers are
    integers and whose strings are made of the code units below 256.  An
    object is the list of its fields in insertion order.  [stringify] is
    [JSON.stringify] without indentation; [parse] is a recursive-descent
    reading of the JSON grammar restricted to those values (a fraction, an
    exponent or an escape above code unit 255 is a syntax error here). *)

Module Json.

#[local] Set Warnings "-register-all".

Inductive value :=
| Null
| Bool (b : bool)
| Num (n : Z)
| Str (s : string)
| Arr (items : list value)
| Obj (fields : list (string * value)).

Definition fields_t : Type := list (string * value).

Definition hexDigit (n : nat) : ascii :=
  match n with
  | 0 => "0" | 1 => "1" | 2 => "2" | 3 => "3" | 4 => "4" | 5 => "5" | 6 => "6"
  | 7 => "7" | 8 => "8" | 9 => "9" | 10 => "a" | 11 => "b" | 12 => "c"
  | 13 => "d" | 14 => "e" | _ => "f"
  end%nat%char.

Definition escapeChar (c : ascii) : string :=
  if Ascii.eqb c "034" then "\" ++ Js.dq
  else if Ascii.eqb c "\" then "\\"
  else if Ascii.eqb c "008" then "\b"
  else if Ascii.eqb c "009" then "\t"
  else if Ascii.eqb c "010" then "\n"
  else if Ascii.eqb c "012" then "\f"
  else if Ascii.eqb c "013" then "\r"
  else
    let n := nat_of_ascii c in
    if (n <? 32)%nat
    then "\u00" ++ String (hexDigit (n / 16)) (String (hexDigit (n mod 16)) "")
    else String c "".

Fixpoint escape (s : string) : string :=
  match s with
  | EmptyString => ""
  | String c s' => escapeChar c ++ escape s'
  end.

Definition quote (s : string) : string := Js.dq ++ escape s ++ Js.dq.

Definition commaSep (parts : list string) : string := String.concat "," parts.

Fixpoint stringify (v : value) : string :=
  match v with
  | Null => "null"
  | Bool true => "true"
  | Bool false => "false"
  | Num n => Js.numToString n
  | Str s => quote s
  | Arr items => "[" ++ commaSep (List.map stringify items) ++ "]"
  | Obj fields =>
      "{" ++ commaSep (List.map (fun kv => quote (fst kv) ++ ":" ++ stringify (snd kv)) fields)
      ++ "}"
  end.

(** *** Reading *)

(** JSON white space *)
Definition isJsonWs (c : ascii) : bool :=
  match c with
  | " " | "009" | "010" | "013" => true
  | _ => false
  end%char.

Fixpoint skipWs (s : string) : string :=
  match s with
  | EmptyString => ""
  | String c s' => if isJsonWs c then skipWs s' else s
  end.

Definition hexValue (c : ascii) : option nat :=
  let n := nat_of_ascii c in
  if ((48 <=? n) && (n <=? 57))%nat then Some (n - 48)%nat
  else if ((97 <=? n) && (n <=? 102))%nat then Some (n - 87)%nat
  else if ((65 <=? n) && (n <=? 70))%nat then Some (n - 55)%nat
  else None.

Definition simpleEscape (e : ascii) : option ascii :=
  match e with
  | "034" => Some "034"
  | "\" => Some "\"
  | "/" => Some "/"
  | "b" => Some "008"
  | "f" => Some "012"
  | "n" => Some "010"
  | "r" => Some "013"
  | "t" => Some "009"
  | _ => None
  end%char.

(** the characters of a string literal, after its opening quote *)
Fixpoint parseString (s : string) : option (string * string) :=
  match s with
  | EmptyString => None
  | String c rest =>
      if Ascii.eqb c "034" then Some ("", rest)
      else if Ascii.eqb c "\" then
        match rest with
        | EmptyString => None
        | String e rest1 =>
            match simpleEscape e with
            | Some ch =>
                match parseString rest1 with
                | Some (str, r) => Some (String ch str, r)
                | None => None
                end
            | None =>
                if Ascii.eqb e "u" then
                  match rest1 with
                  | String h1 (String h2 (String h3 (String h4 rest2))) =>
                      match hexValue h1, hexValue h2, hexValue h3, hexValue h4 with
                      | Some a, Some b, Some c', Some d =>
                          let code := (((a * 16 + b) * 16 + c') * 16 + d)%nat in
                          if (code <? 256)%nat then
                            match parseString rest2 with
                            | Some (str, r) => Some (String (ascii_of_nat code) str, r)
                            | None => None
                            end
                          else None
                      | _, _, _, _ => None
                      end
                  | _ => None
                  end
                else None
            end
        end
      else if (nat_of_ascii c <? 32)%nat then None
      else
        match parseString rest with
        | Some (str, r) => Some (String c str, r)
        | None => None
        end
  end.

Definition isDigit (c : ascii) : bool :=
  let n := nat_of_ascii c in ((48 <=? n) && (n <=? 57))%nat.

(** the longest run of digits at the head of a string *)
Fixpoint spanDigits (s : string) : string * string :=
  match s with
  | EmptyString => ("", "")
  | String c s' =>
      if isDigit c then let '(ds, rest) := spanDigits s' in (String c ds, rest)
      else ("", s)
  end.

Definition startsFraction (s : string) : bool :=
  match s with
  | String c _ => Ascii.eqb c "." || Ascii.eqb c "e" || Ascii.eqb c "E"
  | EmptyString => false
  end.

Definition leadingZero (ds : string) : bool :=
  match ds with
  | String "0" (String _ _) => true
  | _ => false
  end.

Definition parseNumber (s : string) : option (value * string) :=
  let '(sign, body) :=
    match s with
    | String "-" s' => ("-", s')
    | _ => ("", s)
    end in
  let '(ds, rest) := spanDigits body in
  if String.eqb ds "" || leadingZero ds || startsFraction rest then None
  else
    match NilZero.int_of_string (sign ++ ds) with
    | Some d => Some (Num (Z.of_int d), rest)
    | None => None
    end.

Definition expect (lit : string) (v : value) (s : string) : option (value * string) :=
  if Js.startsWith s lit then Some (v, Js.drop (String.length lit) s) else None.

(** after white space, the given character: what follows it *)
Definition peekIs (ch : ascii) (s : string) : option string :=
  match skipWs s with
  | String c r => if Ascii.eqb c ch then Some r else None
  | EmptyString => None
  end.

(** [obj[k] = v] while an object literal is read: a repeated key keeps
    its place and takes the later value *)
Fixpoint setField (k : string) (v : value) (fields : fields_t) : fields_t :=
  match fields with
  | [] => [(k, v)]
  | (k', v') :: rest =>
      if String.eqb k' k then (k', v) :: rest else (k', v') :: setField k v rest
  end.

Definition buildObject (fields : fields_t) : fields_t :=
  fold_left (fun acc kv => setField (fst kv) (snd kv) acc) fields [].

Fixpoint parseValue (fuel : nat) (s : string) {struct fuel} : option (value * string) :=
  match fuel with
  | O => None
  | S fuel' =>
      match skipWs s with
      | EmptyString => None
      | String c rest =>
          if Ascii.eqb c "n" then expect "null" Null (String c rest)
          else if Ascii.eqb c "t" then expect "true" (Bool true) (String c rest)
          else if Ascii.eqb c "f" then expect "false" (Bool false) (String c rest)
          else if Ascii.eqb c "034" then
            match parseString rest with
            | Some (str, r) => Some (Str str, r)
            | None => None
            end
          else if Ascii.eqb c "[" then
            match peekIs "]" rest with
            | Some r => Some (Arr [], r)
            | None =>
                match parseItems fuel' rest with
                | Some (items, r) => Some (Arr items, r)
                | None => None
                end
            end
          else if Ascii.eqb c "{" then
            match peekIs "}" rest with
            | Some r => Some (Obj [], r)
            | None =>
                match parseMembers fuel' rest with
                | Some (fields, r) => Some (Obj (buildObject fields), r)
                | None => None
                end
            end
          else parseNumber (String c rest)
      end
  end
with parseItems (fuel : nat) (s : string) {struct fuel} : option (list value * string) :=
  match fuel with
  | O => None
  | S fuel' =>
      match parseValue fuel' s with
      | Some (v, r) =>
          match peekIs "," r with
          | Some r' =>
              match parseItems fuel' r' with
              | Some (vs, r'') => Some (v :: vs, r'')
              | None => None
              end
          | None =>
              match peekIs "]" r with
              | Some r' => Some ([v], r')
              | None => None
              end
          end
      | None => None
      end
  end
with parseMembers (fuel : nat) (s : string) {struct fuel} : option (fields_t * string) :=
  match fuel with
  | O => None
  | S fuel' =>
      match peekIs "034" s with
      | Some r0 =>
          match parseString r0 with
          | Some (k, r1) =>
              match peekIs ":" r1 with
              | Some r2 =>
                  match parseValue fuel' r2 with
                  | Some (v, r3) =>
                      match peekIs "," r3 with
                      | Some r4 =>
                          match parseMembers fuel' r4 with
                          | Some (kvs, r5) => Some ((k, v) :: kvs, r5)
                          | None => None
                          end
                      | None =>
                          match peekIs "}" r3 with
                          | Some r4 => Some ([(k, v)], r4)
                          | None => None
                          end
                      end
                  | None => None
                  end
              | None => None
              end
          | None => None
          end
      | None => None
      end
  end.

(** [JSON.parse(s)]; a [SyntaxError] is [None] *)
Definition parse (s : string) : option value :=
  match parseValue (S (String.length s)) s with
  | Some (v, rest) => if String.eqb (skipWs rest) "" then Some v else None
  | None => None
  end.

(** own-property lookup [obj[k]] *)
Fixpoint getField (k : string) (fields : fields_t) : option value :=
  match fields with
  | [] => None
  | (k', v) :: rest => if String.eqb k' k then Some v else getField k rest
  end.

(** every object of a value has pairwise distinct keys, as every
    JavaScript object has *)
Inductive wf : value -> Prop :=
| wf_null : wf Null
| wf_bool (b : bool) : wf (Bool b)
| wf_num (n : Z) : wf (Num n)
| wf_str (s : string) : wf (Str s)
| wf_arr (items : list value) : Forall wf items -> wf (Arr items)
| wf_obj (fields : fields_t) :
    NoDup (List.map fst fields) -> Forall (fun kv => wf (snd kv)) fields -> wf (Obj fields).

(** the depth of recursion that reading a value back takes *)
Fixpoint fuelNeeded (v : value) : nat :=
  match v with
  | Arr items =>
      S ((fix go (l : list value) : nat :=
            match l with
            | [] => O
            | x :: xs => S (Nat.max (fuelNeeded x) (go xs))
            end) items)
  | Obj fields =>
      S ((fix go (l : fields_t) : nat :=
            match l with
            | [] => O
            | kv :: kvs => S (Nat.max (fuelNeeded (snd kv)) (go kvs))
            end) fields)
  | _ => 1%nat
  end.

Fixpoint itemsFuel (l : list value) : nat :=
  match l with
  | [] => O
  | x :: xs => S (Nat.max (fuelNeeded x) (itemsFuel xs))
  end.

Fixpoint fieldsFuel (l : fields_t) : nat :=
  match l with
  | [] => O
  | kv :: kvs => S (Nat.max (fuelNeeded (snd kv)) (fieldsFuel kvs))
  end.

(** the characters a serialized value can begin with *)
Definition isValueStart (c : ascii) : bool :=
  isDigit c || Ascii.eqb c "-" || Ascii.eqb c "n" || Ascii.eqb c "t" || Ascii.eqb c "f"
  || Ascii.eqb c "034" || Ascii.eqb c "[" || Ascii.eqb c "{".

End Json.

(** ** The chatbot of the client: action parser and reasoning loop *)

Module Chatbot.

Import Json.

Inductive ChatRole := system | user | assistant | tool.

Record ChatMsg := { role : ChatRole; content : string }.

Inductive Action :=
| ToolAction (server toolName : string) (args : fields_t)
| FinalAction (text : string).

Record PendingConfirmationInfo := {
  pc_token : string;
  pc_reason : option string;
  pc_expiresAt : option string
}.

(** *** Action parser (component K) *)

(** [toLowerCase] on the code units below 256: the basic Latin capitals
    and the Latin-1 capitals (all of 192..222 but the multiplication
    sign) *)
Definition lowerChar (c : ascii) : ascii :=
  let n := nat_of_ascii c in
  if ((65 <=? n) && (n <=? 90))%nat
     || ((192 <=? n) && (n <=? 222) && negb (n =? 215))%nat
  then ascii_of_nat (n + 32) else c.

Fixpoint toLowerCase (s : string) : string :=
  match s with
  | EmptyString => ""
  | String c s' => String (lowerChar c) (toLowerCase s')
  end.

Definition fence : string := "```".

(** [.replace(/^```(?:json)?\s*/i, '')] *)
Definition stripLeadingFence (s : string) : string :=
  if Js.startsWith s fence then
    let r := Js.drop 3 s in
    let r' := if Js.startsWith (toLowerCase (Js.take 4 r)) "json" then Js.drop 4 r else r in
    Js.trimStart r'
  else s.

Fixpoint endsWith (s suffix : string) : bool :=
  String.eqb s suffix ||
  match s with
  | EmptyString => false
  | String _ s' => endsWith s' suffix
  end.

(** [.replace(/```$/i, '')] *)
Definition stripTrailingFence (s : string) : string :=
  if endsWith s fence then Js.take (String.length s - 3) s else s.

(** [s.indexOf('{')] *)
Fixpoint indexOfBrace (s : string) : option nat :=
  match s with
  | EmptyString => None
  | String c s' => if Ascii.eqb c "{" then Some O else S <$> indexOfBrace s'
  end.

(** the loop of [extractFirstJsonObjectString], from position [start]:
    [s] is what is left to read, [n] the number of code units read so far;
    the answer is the length of the slice to return *)
Fixpoint scanObject (s : string) (depth : Z) (inStr escape : bool) (n : nat)
  : option nat :=
  match s with
  | EmptyString => None
  | String ch s' =>
      if inStr then
        if escape then scanObject s' depth inStr false (S n)
        else if Ascii.eqb ch "\" then scanObject s' depth inStr true (S n)
        else if Ascii.eqb ch "034" then scanObject s' depth false escape (S n)
        else scanObject s' depth inStr escape (S n)
      else if Ascii.eqb ch "034" then scanObject s' depth true escape (S n)
      else
        let depth1 := if Ascii.eqb ch "{" then depth + 1 else depth in
        let depth2 := if Ascii.eqb ch "}" then depth1 - 1 else depth1 in
        if depth2 =? 0 then Some (S n)
        else scanObject s' depth2 inStr escape (S n)
  end.

Definition extractFirstJsonObjectString (s : string) : option string :=
  match indexOfBrace s with
  | None => None
  | Some start =>
      let fromStart := Js.drop start s in
      match scanObject fromStart 0 false false 0 with
      | Some k => Some (Js.take k fromStart)
      | None => None
      end
  end.

Definition safeJsonParse (s : string) : Result value :=
  let trimmed := Js.trim s in
  let unfenced := Js.trim (stripTrailingFence (stripLeadingFence trimmed)) in
  let extracted := default unfenced (extractFirstJsonObjectString unfenced) in
  match parse extracted with
  | Some v => Ok v
  | None => Err ActionInvalid "Unexpected token in JSON"
  end.

Definition parseAction (modelText : string) : Result Action :=
  v ← safeJsonParse modelText;
  match v with
  | Obj o =>
      match getField "type" o with
      | Some (Str "final") =>
          match getField "text" o with
          | Some (Str t) => Ok (FinalAction t)
          | _ => Err ActionInvalid "final.text must be a string"
          end
      | Some (Str "tool") =>
          match getField "server" o with
          | Some (Str srv) =>
              match getField "tool" o with
              | Some (Str tl) =>
                  match getField "args" o with
                  | None => Ok (ToolAction srv tl [])
                  | Some (Obj a) => Ok (ToolAction srv tl a)
                  | Some _ => Err ActionInvalid "tool.args must be an object"
                  end
              | _ => Err ActionInvalid "tool.tool must be a string"
              end
          | _ => Err ActionInvalid "tool.server must be a string"
          end
      | _ => Err ActionInvalid ("Action.type must be " ++ Js.dq ++ "tool" ++ Js.dq
                                 ++ " or " ++ Js.dq ++ "final" ++ Js.dq)
      end
  | _ => Err ActionInvalid "Model did not return a JSON object"
  end.

(** *** Action values and their serialization

    The action values of the specification, as the client's types
    [ToolAction] and [FinalAction] have them ([args] is optional), and
    [JSON.stringify] of such a value. *)

Inductive ActionValue :=
| FinalValue (text : string)
| ToolValue (server toolName : string) (args : option fields_t).

Definition actionJson (a : ActionValue) : value :=
  match a with
  | FinalValue t => Obj [("type", Str "final"); ("text", Str t)]
  | ToolValue srv tl None =>
      Obj [("type", Str "tool"); ("server", Str srv); ("tool", Str tl)]
  | ToolValue srv tl (Some a) =>
      Obj [("type", Str "tool"); ("server", Str srv); ("tool", Str tl); ("args", Obj a)]
  end.

Definition render (a : ActionValue) : string := stringify (actionJson a).

(** the action that the value denotes: a missing [args] is the empty
    object *)
Definition denoted (a : ActionValue) : Action :=
  match a with
  | FinalValue t => FinalAction t
  | ToolValue srv tl a => ToolAction srv tl (default [] a)
  end.

(** the objects inside [args] have pairwise distinct keys *)
Definition wfAction (a : ActionValue) : Prop :=
  match a with
  | ToolValue _ _ (Some a) => wf (Obj a)
  | _ => True
  end.

Fixpoint lastChar (s : string) : option ascii :=
  match s with
  | EmptyString => None
  | String c EmptyString => Some c
  | String _ s' => lastChar s'
  end.

(** *** Agent loop (component L) *)

Record ChatbotConfig := {
  ollamaHost : string;
  ollamaModel : string;
  ollamaTimeoutMs : option Z;
  maxToolStepsPerUserTurn : option Z
}.

(** What the loop reads of a tool response: [extractToolText(resp)] and
    [extractConfirmation(resp)]. *)
Record ToolReply := {
  replyText : string;
  replyConfirmation : option PendingConfirmationInfo
}.

Inductive ChatEvent :=
| EvModel (nudge : option string) (reply : Result string)
| EvCallTool (server toolName : string) (args : fields_t) (reply : Result ToolReply).

(** The language model and the tool servers answer by position in the
    trace; the model sees the history (from which its messages are
    rendered) and the optional extra system message. *)
Record ChatEnv := {
  ollamaChat : nat -> list ChatMsg -> option string -> Result string;
  callTool : nat -> string -> string -> fields_t -> Result ToolReply
}.

Record ChatWorld := {
  history : list ChatMsg;
  awaitingSshWizardInput : bool;
  ctrace : list ChatEvent
}.

Definition C (A : Type) : Type := ChatEnv -> ChatWorld -> A * ChatWorld.

Global Instance C_ret : MRet C := fun A a _ w => (a, w).
Global Instance C_bind : MBind C := fun A B k m env w =>
  let '(a, w') := m env w in k a env w'.

Definition historyPush (r : ChatRole) (c : string) : C unit :=
  fun _ w => (tt, {| history := history w ++ [{| role := r; content := c |}];
                     awaitingSshWizardInput := awaitingSshWizardInput w;
                     ctrace := ctrace w |}).

Definition setAwaiting (b : bool) : C unit :=
  fun _ w => (tt, {| history := history w; awaitingSshWizardInput := b;
                     ctrace := ctrace w |}).

Definition getAwaiting : C bool := fun _ w => (awaitingSshWizardInput w, w).

Definition record {A} (answer : ChatEnv -> nat -> list ChatMsg -> A) (ev : A -> ChatEvent)
  : C A :=
  fun env w =>
    let a := answer env (length (ctrace w)) (history w) in
    (a, {| history := history w; awaitingSshWizardInput := awaitingSshWizardInput w;
           ctrace := ctrace w ++ [ev a] |}).

Definition sshWizardPrompt : string :=
  "I can generate an SSH key, but first choose options (or say " ++ Js.dq
  ++ "use defaults" ++ Js.dq ++ "):" ++ Js.nl
  ++ "- type: default ed25519 (or rsa)" ++ Js.nl
  ++ "- filename under ~/.ssh: default id_ed25519" ++ Js.nl
  ++ "- comment (optional): default laya-mcp" ++ Js.nl
  ++ "- passphrase (optional): default empty" ++ Js.nl
  ++ "- overwrite existing key files? default no" ++ Js.nl
  ++ Js.nl
  ++ "Reply with something like:" ++ Js.nl
  ++ Js.dq ++ "use defaults" ++ Js.dq ++ Js.nl
  ++ "or" ++ Js.nl
  ++ Js.dq
  ++ "type ed25519, filename id_ed25519_work, comment work, no passphrase, no overwrite"
  ++ Js.dq.

Definition isSshKeyIntent (text : string) : bool :=
  let t := toLowerCase text in
  (Js.includes t "ssh" && Js.includes t "key") || Js.includes t "ssh-key"
  || Js.includes t "sshkey".

Definition pendingSshText (tok : string) : string :=
  "SSH key generation is pending confirmation." ++ Js.nl
  ++ "Run these (twice) to proceed:" ++ Js.nl
  ++ "/confirm " ++ tok ++ Js.nl
  ++ "Then run /confirm <token2> from the response." ++ Js.nl.

Section WithServers.

(** the names of the connected servers *)
Variable servers : list string.
Variable cfg : ChatbotConfig.
(** the free-form reading of a wizard answer into options *)
Variable parseSshWizardInput : string -> fields_t.

Definition findServer (name : string) : bool := Js.arrIncludes servers name.

(** [runTool] *)
Definition runTool (serverName toolName : string) (args : fields_t) : C (Result ToolReply) :=
  if findServer serverName
  then record (fun env n _ => callTool env n serverName toolName args)
              (EvCallTool serverName toolName args)
  else mret (Err InvalidArgument ("Unknown server: " ++ serverName)).

Definition generateSshKeyTurn (args : fields_t) : C string :=
  r ← runTool "terminal-server" "generate_ssh_key" args;
  match r with
  | Ok reply =>
      historyPush tool
        ("terminal-server.generate_ssh_key(" ++ stringify (Obj args) ++ "):" ++ Js.nl
         ++ replyText reply);;
      match replyConfirmation reply with
      | Some conf => mret (pendingSshText (pc_token conf))
      | None => mret (replyText reply)
      end
  | Err _ msg => mret msg
  end.

(** [callModel]: one request to the model, then [parseAction] *)
Definition callModel (extraSystemNudge : option string) : C (Result (string * Action)) :=
  r ← record (fun env n h => ollamaChat env n h extraSystemNudge) (EvModel extraSystemNudge);
  mret (raw ← r; action ← parseAction raw; Ok (raw, action)).

Definition repairNudge : string :=
  "Your previous output was invalid. Return ONLY a single valid JSON object matching the specified action shapes.".

Definition maxSteps : Z := default 6 (maxToolStepsPerUserTurn cfg).

Definition callKey (serverName toolName : string) (args : fields_t) : string :=
  serverName ++ "." ++ toolName ++ " " ++ stringify (Obj args).

Definition hasOwn (args : fields_t) (k : string) : bool :=
  bool_decide (is_Some (getField k args)).

Definition hasAnyOption (args : fields_t) : bool :=
  hasOwn args "type" || hasOwn args "filename" || hasOwn args "comment"
  || hasOwn args "passphrase" || hasOwn args "overwrite".

Definition confirmationText (tok : string) : string :=
  "Action requires confirmation." ++ Js.nl
  ++ "Run these (twice) to proceed:" ++ Js.nl
  ++ "/confirm " ++ tok ++ Js.nl
  ++ "Then run /confirm <token2> from the response." ++ Js.nl.

Definition repeatedCallText (key : string) : string :=
  "ERROR: Detected repeated tool call (" ++ key ++ "). "
  ++ "Do not repeat the same call. Respond with a final answer now.".

(** the two gates that stand before the repeat check: a [confirm] call,
    and [generate_ssh_key] without any option *)
Definition gated (serverName toolName : string) (args : fields_t) : bool :=
  (String.eqb serverName "terminal-server" && String.eqb toolName "confirm")
  || (String.eqb serverName "terminal-server" && String.eqb toolName "generate_ssh_key"
      && negb (hasAnyOption args)).

(** how one iteration of the loop ends *)
Inductive Step :=
| Return (answer : string)
| Continue (seen : gset string).

(** the part of an iteration after the action is known *)
Definition dispatchStep (step : Z) (seenToolCalls : gset string)
    (serverName toolName : string) (args : fields_t) : C Step :=
  if String.eqb serverName "terminal-server" && String.eqb toolName "confirm"
  then mret (Return
    "For safety, please run confirmations manually as a slash command: /confirm <token>")
  else if String.eqb serverName "terminal-server"
          && String.eqb toolName "generate_ssh_key" && negb (hasAnyOption args)
  then setAwaiting true;; mret (Return sshWizardPrompt)
  else
    let key := callKey serverName toolName args in
    if bool_decide (key ∈ seenToolCalls) then
      historyPush tool (repeatedCallText key);;
      mret (Continue seenToolCalls)
    else
      let seen' := seenToolCalls ∪ {[ key ]} in
      (if maxSteps - 2 <=? step then
         historyPush tool
           ("NOTE: Tool-call budget is almost exhausted (" ++ Js.numToString (step + 1)
            ++ "/" ++ Js.numToString maxSteps ++ "). Please respond with a final answer.")
       else mret tt);;
      if negb (findServer serverName) then
        historyPush tool
          ("ERROR: Unknown server " ++ Js.dq ++ serverName ++ Js.dq);;
        mret (Continue seen')
      else
        r ← record (fun env n _ => callTool env n serverName toolName args)
                   (EvCallTool serverName toolName args);
        match r with
        | Ok reply =>
            let txt := replyText reply in
            historyPush tool
              (serverName ++ "." ++ toolName ++ "(" ++ stringify (Obj args) ++ "):"
               ++ Js.nl ++ txt);;
            if String.eqb serverName "terminal-server" && String.eqb toolName "find_files"
            then mret (Return txt)
            else if String.eqb serverName "terminal-server" && String.eqb toolName "run"
                    && match getField "command" args with
                       | Some (Str cmd) => String.eqb cmd "date"
                       | _ => false
                       end
            then mret (Return txt)
            else
              match replyConfirmation reply with
              | Some conf => mret (Return (confirmationText (pc_token conf)))
              | None => mret (Continue seen')
              end
        | Err _ msg =>
            historyPush tool
              ("ERROR calling " ++ serverName ++ "." ++ toolName ++ "("
               ++ stringify (Obj args) ++ "): " ++ msg);;
            mret (Continue seen')
        end.

(** one iteration of the reasoning loop *)
Definition iteration (step : Z) (seenToolCalls : gset string) : C Step :=
  first ← callModel None;
  modelResp ← match first with
              | Ok _ => mret first
              | Err _ _ => callModel (Some repairNudge)
              end;
  match modelResp with
  | Err _ msg =>
      mret (Return
        ("I couldn't parse the model response as an action JSON." ++ Js.nl
         ++ "Error: " ++ msg ++ Js.nl
         ++ "Tip: try a smaller model, or ask a simpler question first (e.g. "
         ++ Js.dq ++ "Say hi" ++ Js.dq ++ ")."))
  | Ok (raw, action) =>
      historyPush assistant (Js.trim raw);;
      match action with
      | FinalAction t => mret (Return t)
      | ToolAction serverName toolName args =>
          dispatchStep step seenToolCalls serverName toolName args
      end
  end.

Definition stepLimitText : string :=
  "I hit the tool-call step limit (" ++ Js.numToString maxSteps
  ++ ") before finishing. Try rephrasing or ask me to stop earlier.".

(** [for (let step = 0; step < maxSteps; step++)], with [remaining]
    iterations to go *)
Fixpoint reasoningLoop (remaining : nat) (step : Z) (seenToolCalls : gset string)
  : C string :=
  match remaining with
  | O => mret stepLimitText
  | S remaining' =>
      r ← iteration step seenToolCalls;
      match r with
      | Return answer => mret answer
      | Continue seen' => reasoningLoop remaining' (step + 1) seen'
      end
  end.

Definition handleUserMessage (userText : string) : C string :=
  historyPush user userText;;
  awaiting ← getAwaiting;
  if awaiting : bool then
    let args := parseSshWizardInput userText in
    setAwaiting false;;
    generateSshKeyTurn args
  else if isSshKeyIntent userText then
    let lower := toLowerCase userText in
    let hasExplicitDefaults :=
      Js.includes lower "use defaults" || String.eqb lower "defaults"
      || String.eqb lower "default" in
    if negb hasExplicitDefaults
    then setAwaiting true;; mret sshWizardPrompt
    else generateSshKeyTurn []
  else reasoningLoop (Z.to_nat maxSteps) 0 ∅.

(** the tool calls of a trace, in order *)
Definition dispatches (t : list ChatEvent) : list (string * string * fields_t) :=
  omap (fun e => match e with
                 | EvCallTool srv tl a _ => Some (srv, tl, a)
                 | EvModel _ _ => None
                 end) t.

End WithServers.

End Chatbot.

(** ** client/src/router.ts: slash commands *)

Module Router.

Import Json.

Record RoutedToolCall := {
  serverName : string;
  toolName : string;
  args : fields_t
}.

(** [s.split(/\s+/)], as its first piece and the pieces after it: a run
    of white space is one separator; white space at either end of [s]
    leaves an empty piece there.  [inSeparator] says that the code unit
    before was white space. *)
Fixpoint splitWs (inSeparator : bool) (s : string) : string * list string :=
  match s with
  | EmptyString => ("", [])
  | String c s' =>
      if Js.isWhite c then
        if inSeparator then splitWs true s'
        else let '(p, ps) := splitWs true s' in ("", p :: ps)
      else let '(p, ps) := splitWs false s' in (String c p, ps)
  end.

(** [s.indexOf(ch)] *)
Fixpoint indexOf (ch : ascii) (s : string) : option nat :=
  match s with
  | EmptyString => None
  | String c s' => if Ascii.eqb c ch then Some O else S <$> indexOf ch s'
  end.

Definition tryParseJsonObject (s : string) : option fields_t :=
  match parse s with
  | Some (Obj o) => Some o
  | _ => None
  end.

Definition useUsage : string := "usage: use <server>.<tool> <jsonArgs>".

Definition terminal (toolName : string) (args : fields_t) : Result (option RoutedToolCall) :=
  Ok (Some {| serverName := "terminal-server"; toolName := toolName; args := args |}).

Definition routeLine (line : string) (servers : list string)
  : Result (option RoutedToolCall) :=
  let trimmed := Js.trim line in
  if negb (Js.truthy trimmed) then Ok None
  else
    let '(head, rest) := splitWs false trimmed in
    if String.eqb head "use" then
      match rest with
      | [] => Err InvalidArgument useUsage
      | target :: jsonWords =>
          if negb (Js.truthy target) then Err InvalidArgument useUsage
          else
            match indexOf "." target with
            | None | Some O => Err InvalidArgument useUsage
            | Some idx =>
                let json := Js.trim (String.concat " " jsonWords) in
                if Js.truthy json then
                  match tryParseJsonObject json with
                  | Some o =>
                      Ok (Some {| serverName := Js.take idx target;
                                  toolName := Js.drop (S idx) target;
                                  args := o |})
                  | None => Err InvalidArgument "Invalid JSON args"
                  end
                else
                  Ok (Some {| serverName := Js.take idx target;
                              toolName := Js.drop (S idx) target;
                              args := [] |})
            end
      end
    else if negb (Js.arrIncludes servers "terminal-server")
    then Err InvalidArgument "terminal-server not configured in mcp.json"
    else if String.eqb head "confirm" then
      match rest with
      | tok :: _ =>
          if Js.truthy tok then terminal "confirm" [("token", Str tok)]
          else Err InvalidArgument "usage: confirm <token>"
      | [] => Err InvalidArgument "usage: confirm <token>"
      end
    else if String.eqb head "run" then
      match rest with
      | cmd :: argv =>
          if Js.truthy cmd
          then terminal "run" [("command", Str cmd); ("args", Arr (List.map Str argv))]
          else Err InvalidArgument "usage: run <command> [args...]"
      | [] => Err InvalidArgument "usage: run <command> [args...]"
      end
    else if String.eqb head "read" then
      match rest with
      | path :: _ =>
          if Js.truthy path then terminal "read_file" [("path", Str path)]
          else Err InvalidArgument "usage: read <relative-path>"
      | [] => Err InvalidArgument "usage: read <relative-path>"
      end
    else if String.eqb head "write" then
      match rest with
      | path :: contentWords =>
          if Js.truthy path
          then terminal "write_file"
                 [("path", Str path); ("content", Str (String.concat " " contentWords));
                  ("mode", Str "overwrite")]
          else Err InvalidArgument "usage: write <relative-path> <content...>"
      | [] => Err InvalidArgument "usage: write <relative-path> <content...>"
      end
    else terminal "run" [("command", Str head); ("args", Arr (List.map Str rest))].

End Router.

(** ** client/src/ollama.ts: the URL of an endpoint *)

Module Ollama.

(** [host.replace(/\/+$/, '')] *)
Fixpoint stripTrailingSlashes (s : string) : string :=
  match s with
  | EmptyString => ""
  | String c s' =>
      match stripTrailingSlashes s' with
      | EmptyString => if Ascii.eqb c "/" then "" else String c ""
      | t => String c t
      end
  end.

Definition joinUrl (host path : string) : string :=
  let h := stripTrailingSlashes host in
  let p := if Js.startsWith path "/" then path else "/" ++ path in
  h ++ p.

End Ollama.

(** ** Finding [config.json] (client/src/config.ts) and [mcp.json]
       (client/src/index.ts)

    [fs.access] is an interaction: its answers come by position in the
    sequence of probes, and the probed paths are recorded. *)

Module Config.

Definition P (A : Type) : Type := (nat -> string -> bool) -> list string -> A * list string.

Global Instance P_ret : MRet P := fun A a _ probed => (a, probed).
Global Instance P_bind : MBind P := fun A B k m access probed =>
  let '(a, probed') := m access probed in k a access probed'.

Definition fileExists (p : string) : P bool :=
  fun access probed => (access (length probed) p, (probed ++ [p])%list).

(** the upward walk of both functions: at most [levels] directories,
    from [dir] towards the root *)
Fixpoint searchUp (fileName : string) (levels : nat) (dir : string) : P (option string) :=
  match levels with
  | O => mret None
  | S levels' =>
      let candidate := Path.join [dir; fileName] in
      found ← fileExists candidate;
      if found : bool then mret (Some candidate)
      else
        let parent := Path.dirname dir in
        if String.eqb parent dir then mret None
        else searchUp fileName levels' parent
  end.

(** an environment variable that is set to a non-empty string *)
Definition envSet (v : option string) : bool :=
  match v with
  | Some s => Js.truthy s
  | None => false
  end.

(** [explicit] is [process.env.LAYA_CONFIG_PATH], [cwd] is [process.cwd()] *)
Definition findConfigPath (explicit : option string) (cwd : string)
  : P (Result (option string)) :=
  if envSet explicit then
    let abs := Path.resolve cwd [default "" explicit] in
    found ← fileExists abs;
    if found : bool then mret (Ok (Some abs))
    else mret (Err IOFailure ("LAYA_CONFIG_PATH does not exist: " ++ abs))
  else
    r ← searchUp "config.json" 8 cwd;
    mret (Ok r).

(** [explicit] is [process.env.MCP_JSON_PATH] *)
Definition findMcpJsonPath (explicit : option string) (cwd : string) : P (Result string) :=
  if envSet explicit then mret (Ok (Path.resolve cwd [default "" explicit]))
  else
    r ← searchUp "mcp.json" 6 cwd;
    match r with
    | Some p => mret (Ok p)
    | None =>
        mret (Err IOFailure "Unable to find mcp.json (set MCP_JSON_PATH to an absolute path)")
    end.

End Config.

(** ** What the server answers and what the chatbot reads of it

    The handlers that [terminal-server/src/index.ts] registers for [run]
    and [generate_ssh_key] wrap the tool's result into a response with a
    [structuredContent]; [extractConfirmation] of the chatbot reads it
    back.  [toISOString] is [Date.prototype.toISOString] on a clock
    reading. *)

Module Protocol.

Import Json.

Section WithDate.

Variable toISOString : Z -> string.

Definition textContent (t : string) : value :=
  Arr [Obj [("type", Str "text"); ("text", Str t)]].

(** the result of the [run] and [generate_ssh_key] handlers *)
Definition confirmableResult (res : Terminal.ToolResponse) : value :=
  Obj [("content", textContent (Terminal.text res));
       ("structuredContent",
        match Terminal.requiresConfirmation res with
        | Some c =>
            Obj [("requiresConfirmation", Bool true);
                 ("token", Str (Terminal.c_token c));
                 ("reason", Str (Terminal.c_reason c));
                 ("expiresAt", Str (toISOString (Terminal.c_expiresAt c)))]
        | None => Obj [("requiresConfirmation", Bool false)]
        end)].

(** the result of the other handlers *)
Definition plainResult (res : Terminal.ToolResponse) : value :=
  Obj [("content", textContent (Terminal.text res))].

End WithDate.

Definition stringField (k : string) (o : fields_t) : option string :=
  match getField k o with
  | Some (Str s) => Some s
  | _ => None
  end.

Definition extractConfirmation (resp : value) : option Chatbot.PendingConfirmationInfo :=
  match resp with
  | Obj r =>
      match getField "structuredContent" r with
      | Some (Obj sc) =>
          match getField "requiresConfirmation" sc with
          | Some (Bool true) =>
              match getField "token" sc with
              | Some (Str tok) =>
                  if Js.truthy tok
                  then Some {| Chatbot.pc_token := tok;
                               Chatbot.pc_reason := stringField "reason" sc;
                               Chatbot.pc_expiresAt := stringField "expiresAt" sc |}
                  else None
              | _ => None
              end
          | _ => None
          end
      | _ => None
      end
  | _ => None
  end.

End Protocol.

(** * Properties *)

(** ** Properties of the string primitives *)

Section JsFacts.

Lemma string_length_app (s t : string) :
  String.length (s ++ t) = (String.length s + String.length t)%nat.
Proof. induction s as [|c s IH]; simpl; [reflexivity | now rewrite IH]. Qed.

Lemma string_app_empty_r (s : string) : s ++ "" = s.
Proof.
  induction s as [|c s IH]; [reflexivity|].
  change (String c (s ++ "") = String c s). now rewrite IH.
Qed.

Lemma string_app_assoc (s t u : string) : (s ++ t) ++ u = s ++ (t ++ u).
Proof.
  induction s as [|c s IH]; [reflexivity|].
  change (String c ((s ++ t) ++ u) = String c (s ++ (t ++ u))). now rewrite IH.
Qed.

Lemma len_app (s t : string) : Js.len (s ++ t) = Js.len s + Js.len t.
Proof. unfold Js.len. rewrite string_length_app. lia. Qed.

Lemma len_nonneg (s : string) : 0 <= Js.len s.
Proof. unfold Js.len. lia. Qed.

Lemma length_take (n : nat) (s : string) :
  (String.length (Js.take n s) <= n)%nat.
Proof.
  revert s. induction n as [|n IH]; intros [|c s]; simpl; try lia.
  specialize (IH s). lia.
Qed.

Lemma len_slice0 (s : string) (e : Z) : 0 <= e -> Js.len (Js.slice0 s e) <= e.
Proof.
  intros He. unfold Js.slice0.
  destruct (e <? 0) eqn:E; [apply Z.ltb_lt in E; lia|].
  unfold Js.len. pose proof (length_take (Z.to_nat e) s). lia.
Qed.

Lemma length_trimEnd (s : string) :
  (String.length (Js.trimEnd s) <= String.length s)%nat.
Proof.
  induction s as [|c s IH]; simpl; [lia|].
  destruct (Js.trimEnd s) eqn:E.
  - destruct (Js.isWhite c); simpl; lia.
  - simpl in *. lia.
Qed.

Lemma len_trimEnd (s : string) : Js.len (Js.trimEnd s) <= Js.len s.
Proof. unfold Js.len. pose proof (length_trimEnd s). lia. Qed.

Lemma truthy_false (s : string) : Js.truthy s = false -> s = "".
Proof.
  unfold Js.truthy. intros H. apply negb_false_iff in H.
  now apply String.eqb_eq in H.
Qed.

End JsFacts.

(** ** Process runner: bounds on the captured output (C6) *)

Section RunnerFacts.

Import Runner.

Lemma len_truncationSuffix (m : Z) :
  25 <= Js.len (truncationSuffix m).
Proof.
  unfold truncationSuffix. rewrite !len_app.
  pose proof (len_nonneg (Js.numToString m)).
  change (Js.len Js.nl) with 1.
  change (Js.len "...[truncated to ") with 17.
  change (Js.len " chars]") with 7. lia.
Qed.

Lemma len_clampText (s : string) (m : Z) :
  0 <= m -> Js.len (clampText s m) <= m + Js.len (truncationSuffix m).
Proof.
  intros Hm. unfold clampText.
  pose proof (len_truncationSuffix m).
  destruct (Js.len s <=? m) eqn:E.
  - apply Z.leb_le in E. lia.
  - rewrite len_app. pose proof (len_slice0 s m Hm). lia.
Qed.

Lemma len_onData (m : Z) (buf d : string) :
  0 <= m -> Js.len (onData m buf d) <= m + Js.len (truncationSuffix m).
Proof.
  intros Hm. unfold onData. cbv zeta.
  destruct (m <? Js.len (buf ++ d)) eqn:E.
  - now apply len_clampText.
  - apply Z.ltb_ge in E. pose proof (len_truncationSuffix m). lia.
Qed.

(** Each of the two buffers stays within the per-stream bound. *)
Lemma capture_bounded (m : Z) (evs : list ChildEvent) (out err : string) :
  0 <= m ->
  Js.len out <= m + Js.len (truncationSuffix m) ->
  Js.len err <= m + Js.len (truncationSuffix m) ->
  Js.len (fst (capture m out err evs)) <= m + Js.len (truncationSuffix m) /\
  Js.len (snd (capture m out err evs)) <= m + Js.len (truncationSuffix m).
Proof.
  intros Hm. revert out err.
  induction evs as [|[d|d] evs IH]; intros out err Ho He; simpl.
  - split; assumption.
  - apply IH; [now apply len_onData | assumption].
  - apply IH; [assumption | now apply len_onData].
Qed.

(** no stderr event, no stderr text *)
Lemma capture_no_stderr (m : Z) (evs : list ChildEvent) (out : string) :
  Forall (fun e => match e with StdoutData _ => True | StderrData _ => False end) evs ->
  snd (capture m out "" evs) = "".
Proof.
  intros H. revert out. induction H as [|[d|d] evs Hd _ IH]; intros out; simpl.
  - reflexivity.
  - apply IH.
  - destruct Hd.
Qed.

Lemma len_combine (out err : string) :
  Js.len (combine out err) <= Z.max 11 (Js.len out + Js.len stderrMarker + Js.len err).
Proof.
  unfold combine. cbv zeta.
  match goal with |- context [Js.trimEnd ?x] => set (raw := x) end.
  assert (Hraw : Js.len raw <= Js.len out + Js.len stderrMarker + Js.len err).
  { subst raw. rewrite len_app. destruct (Js.truthy err).
    - rewrite len_app. lia.
    - change (Js.len "") with 0. pose proof (len_nonneg err).
      change (Js.len stderrMarker) with 10. lia. }
  pose proof (len_trimEnd raw).
  destruct (Js.truthy (Js.trimEnd raw)).
  - lia.
  - change (Js.len "(no output)") with 11. lia.
Qed.

Lemma len_combine_stdout_only (out : string) :
  Js.len (combine out "") <= Z.max 11 (Js.len out).
Proof.
  unfold combine. cbv zeta. change (Js.truthy "") with false.
  rewrite string_app_empty_r. pose proof (len_trimEnd out).
  destruct (Js.truthy (Js.trimEnd out)).
  - lia.
  - change (Js.len "(no output)") with 11. lia.
Qed.

Definition stdoutOnly (e : ChildEvent) : Prop :=
  match e with StdoutData _ => True | StderrData _ => False end.

(** C6, as the code has it: each captured stream is held to
    [maxOutputChars] plus the truncation suffix, so the returned output
    (stdout, then the stderr marker and stderr when there is any) is
    bounded by twice that plus the marker; the bound of the
    specification holds for the returned output when the child wrote
    nothing to stderr. *)
Theorem C6_output_bounded_per_stream (run : ChildRun) (m : Z) (r : SpawnResult) :
  0 <= m ->
  spawnAndCapture run m = Ok r ->
  let bound := m + Js.len (truncationSuffix m) in
  Js.len (fst (capture m "" "" (events run))) <= bound /\
  Js.len (snd (capture m "" "" (events run))) <= bound /\
  Js.len (output r) <= 2 * bound + Js.len stderrMarker /\
  (Forall stdoutOnly (events run) -> Js.len (output r) <= bound).
Proof.
  intros Hm Hrun bound.
  pose proof (len_truncationSuffix m) as Hs.
  assert (H0 : Js.len "" <= bound) by (change (Js.len "") with 0; subst bound; lia).
  destruct (capture_bounded m (events run) "" "" Hm H0 H0) as [Ho He].
  unfold spawnAndCapture in Hrun.
  destruct (capture m "" "" (events run)) as [out err] eqn:Ecap.
  simpl in Ho, He. simpl.
  destruct (ending run) as [msg|code]; [discriminate|].
  injection Hrun as <-. simpl.
  repeat split; try assumption.
  - pose proof (len_combine out err). change (Js.len stderrMarker) with 10 in *.
    subst bound. lia.
  - intros Hall. pose proof (capture_no_stderr m (events run) "" Hall) as Herr.
    rewrite Ecap in Herr. simpl in Herr. subst err.
    pose proof (len_combine_stdout_only out). subst bound. lia.
Qed.

Definition noisyChild : ChildRun :=
  {| events := [StdoutData "aaaa"; StderrData "bbbb"]; ending := ChildClose (Some 0) |}.

Lemma C6_output_bounded_per_stream_witness :
  Js.len (output {| output := combine (clampText "aaaa" 3) (clampText "bbbb" 3);
                    exitCode := Some 0 |}) <= 2 * (3 + Js.len (truncationSuffix 3)) + 10.
Proof.
  refine (proj1 (proj2 (proj2
    (C6_output_bounded_per_stream noisyChild 3 _ _ _)))).
  - lia.
  - reflexivity.
Defined.

(** The bound of the specification fails for the returned output as soon
    as both streams carry text: with a limit of 3, four characters on each
    pipe give 68 characters, more than 3 + 26. *)
Lemma C6_combined_output_exceeds_bound :
  ~ (forall (run : ChildRun) (m : Z) (r : SpawnResult),
       0 <= m -> spawnAndCapture run m = Ok r ->
       Js.len (output r) <= m + Js.len (truncationSuffix m)).
Proof.
  intros H.
  specialize (H noisyChild 3 _ ltac:(lia) eq_refl).
  vm_compute in H. apply H. reflexivity.
Qed.

End RunnerFacts.

(** ** Path resolver: confinement and the escape test (C1) *)

Section PathFacts.

Import Terminal.

Lemma dropCommon_spec (from to up down : list string) :
  Path.dropCommon from to = (up, down) ->
  exists common : list string, from = (common ++ up)%list /\ to = (common ++ down)%list.
Proof.
  revert to up down.
  induction from as [|f from IH]; intros to up down H.
  - simpl in H. injection H as <- <-. now exists [].
  - destruct to as [|t to]; simpl in H.
    + injection H as <- <-. now exists [].
    + destruct (String.eqb_spec f t) as [->|Hne].
      * destruct (IH _ _ _ H) as (common & -> & ->). now exists (t :: common).
      * injection H as <- <-. now exists [].
Qed.

Lemma relative_climbs (up down : list string) :
  up <> [] ->
  Js.startsWith (Path.joinSegments (map (fun _ => "..") up ++ down)%list) ".." = true.
Proof.
  destruct up as [|u up]; [congruence|]. intros _.
  unfold Path.joinSegments. simpl.
  destruct (map (fun _ : string => "..") up ++ down)%list; reflexivity.
Qed.

(** What an accepted path satisfies: the normalized form of the result
    lies under the normalized sandbox root, segment by segment. *)
Lemma resolveSandboxPath_confined (cwd0 : string) (ctx : TerminalContext)
    (userPath abs : string) :
  resolveSandboxPath cwd0 ctx userPath = Ok abs ->
  Path.segments (Path.resolve cwd0 [sandboxRootAbs ctx])
    `prefix_of` Path.segments (Path.resolve cwd0 [abs]).
Proof.
  unfold resolveSandboxPath. cbv zeta.
  match goal with |- context [Path.relative _ _ ?a] => set (target := a) end.
  destruct (Js.startsWith (Path.relative cwd0 (sandboxRootAbs ctx) target) ".."
            || Path.isAbsolute (Path.relative cwd0 (sandboxRootAbs ctx) target)) eqn:E;
    [discriminate|].
  intros [= <-]. apply orb_false_iff in E as [Eup _].
  unfold Path.relative in Eup.
  destruct (String.eqb_spec (sandboxRootAbs ctx) target) as [->|_]; [reflexivity|].
  destruct (String.eqb_spec (Path.resolve cwd0 [sandboxRootAbs ctx])
              (Path.resolve cwd0 [target])) as [->|_]; [reflexivity|].
  destruct (Path.dropCommon _ _) as [up down] eqn:Edrop.
  destruct (dropCommon_spec _ _ _ _ Edrop) as (common & Hfrom & Hto).
  destruct up as [|u up].
  - rewrite Hfrom, Hto, app_nil_r. now exists down.
  - rewrite relative_climbs in Eup; [discriminate | congruence].
Qed.

Definition tmpSandbox : TerminalContext :=
  {| policy := {| sandboxRoot := "/tmp/s";
                  auditLogPath := ".mcp-audit/terminal-server.jsonl";
                  allowedCommands := ["ls"];
                  blockedArgsRegex := None;
                  dangerousCommands := None;
                  dangerousPatterns := None;
                  confirmTtlSeconds := None;
                  maxOutputChars := None;
                  maxFileReadBytes := None |};
     sandboxRootAbs := "/tmp/s";
     auditLogAbs := "/tmp/s/.mcp-audit/terminal-server.jsonl" |}.

(** C1 at the input ["..foo"] under the root [/tmp/s]: the path
    resolves to [/tmp/s/..foo], inside the sandbox; its relative path
    from the root is the single segment ["..foo"], which is neither the
    upward segment [".."] nor absolute; the resolver refuses it all the
    same, because its test is on the first two characters. *)
Theorem C1_dotdot_prefixed_name_refused :
  Path.resolve "/" [sandboxRootAbs tmpSandbox; "..foo"] = "/tmp/s/..foo" /\
  Path.segments (sandboxRootAbs tmpSandbox)
    `prefix_of` Path.segments "/tmp/s/..foo" /\
  Path.relative "/" (sandboxRootAbs tmpSandbox) "/tmp/s/..foo" = "..foo" /\
  Path.split "..foo" = ["..foo"] /\
  "..foo" <> ".." /\
  Path.isAbsolute "..foo" = false /\
  resolveSandboxPath "/" tmpSandbox "..foo"
  = Err PathEscape "Path is outside sandboxRoot: ..foo".
Proof.
  repeat split; try reflexivity.
  - now exists ["..foo"].
  - discriminate.
Qed.

End PathFacts.

(** ** Confirmation store and tool handlers (C2, C3, C4, C5, C7, C10) *)

Section TerminalFacts.

Import Runner Terminal.

Variable RegExp : string -> option (string -> bool).

Ltac run_m :=
  unfold dateNow, randomUUID;
  unfold mbind, mret, M_bind, M_ret, throw, liftResult, ask, interact,
    pendingGet, pendingSet, pendingDelete, chmod;
  cbn [fst snd pending trace].

Lemma spawns_app (t1 t2 : list Event) : spawns (t1 ++ t2) = (spawns t1 ++ spawns t2)%list.
Proof. unfold spawns. apply omap_app. Qed.

(** *** The primitives, as equations on worlds *)

Definition extend (w : World) (evs : list Event) : World :=
  {| pending := pending w; trace := (trace w ++ evs)%list |}.

Definition store (m : gmap string PendingConfirmation) (w : World) : World :=
  {| pending := m; trace := trace w |}.

Lemma extend_extend (w : World) (e1 e2 : list Event) :
  extend (extend w e1) e2 = extend w (e1 ++ e2)%list.
Proof. unfold extend. cbn. now rewrite <- List.app_assoc. Qed.

Lemma extend_store (m : gmap string PendingConfirmation) (w : World) (evs : list Event) :
  extend (store m w) evs = store m (extend w evs).
Proof. reflexivity. Qed.

Lemma store_store (m1 m2 : gmap string PendingConfirmation) (w : World) :
  store m2 (store m1 w) = store m2 w.
Proof. reflexivity. Qed.

Lemma trace_extend (w : World) (evs : list Event) :
  trace (extend w evs) = (trace w ++ evs)%list.
Proof. reflexivity. Qed.

Lemma dateNow_eq (env : Env) (w : World) :
  dateNow env w
  = (Ok (clock env (length (trace w))), extend w [EvClock (clock env (length (trace w)))]).
Proof. reflexivity. Qed.

Lemma randomUUID_eq (env : Env) (w : World) :
  randomUUID env w
  = (Ok (uuid env (length (trace w))), extend w [EvUUID (uuid env (length (trace w)))]).
Proof. reflexivity. Qed.

Lemma appendAudit_eq (ctx : TerminalContext) (entry : AuditEntry) (env : Env) (w : World) :
  appendAudit ctx entry env w
  = let ts := clock env (length (trace w)) in
    let ok := appendOk env (S (length (trace w))) in
    (if ok then Ok tt else Err IOFailure ("appendFile failed: " ++ auditLogAbs ctx),
     extend w [EvClock ts; EvAppend (auditLogAbs ctx) ts entry ok]).
Proof.
  unfold appendAudit. run_m. rewrite length_app, Nat.add_1_r. cbn [length].
  rewrite <- List.app_assoc. cbn [app].
  destruct (appendOk env (S (length (trace w)))); reflexivity.
Qed.

Lemma spawnAndCaptureM_eq (cmd : string) (argv : list string) (dir : string) (m : Z)
    (env : Env) (w : World) :
  spawnAndCaptureM cmd argv dir m env w
  = (spawnAndCapture (child env (length (trace w)) cmd argv dir) m,
     extend w [EvSpawn cmd argv dir]).
Proof.
  unfold spawnAndCaptureM. run_m.
  destruct (spawnAndCapture _ _); reflexivity.
Qed.

Lemma createPendingConfirmation_eq (ctx : TerminalContext) (cmd : string)
    (argv : list string) (dir why : string) (env : Env) (w : World) :
  createPendingConfirmation ctx cmd argv dir why env w
  = let now := clock env (length (trace w)) in
    let tok := uuid env (S (length (trace w))) in
    let p := {| token := tok; stage := Stage1; createdAtMs := now;
                expiresAtMs := now + ttlMs ctx; command := cmd; args := argv;
                cwd := dir; reason := why |} in
    (Ok p, store (<[tok := p]> (pending w)) (extend w [EvClock now; EvUUID tok])).
Proof.
  unfold createPendingConfirmation. run_m. rewrite length_app, Nat.add_1_r. cbn [length].
  unfold store, extend. cbn. now rewrite <- List.app_assoc.
Qed.

(** events that neither start a process nor draw a token *)
Definition quiet (e : Event) : Prop :=
  match e with
  | EvSpawn _ _ _ | EvUUID _ => False
  | _ => True
  end.

Lemma spawns_quiet (evs : list Event) : Forall quiet evs -> spawns evs = [].
Proof.
  induction 1 as [|e evs He _ IH]; [reflexivity|].
  unfold spawns in *. cbn. destruct e; cbn in *; try assumption; destruct He.
Qed.

Lemma sshKeygenPostProcess_eq (p : PendingConfirmation) (env : Env) (w : World) :
  exists evs, sshKeygenPostProcess p env w = (Ok tt, extend w evs) /\ Forall quiet evs.
Proof.
  assert (Hnil : (Ok tt, w) = (Ok tt, extend w []) :> Result unit * World).
  { unfold extend. rewrite app_nil_r. now destruct w. }
  unfold sshKeygenPostProcess. run_m.
  repeat case_match; try (exists []; split; [exact Hnil | constructor]).
  eexists [_; _; _]. split.
  - unfold extend. cbn. rewrite <- !List.app_assoc. reflexivity.
  - repeat constructor.
Qed.

(** *** The danger classifier gives non-empty reasons *)

Lemma regexAnyOf_truthy (cmd : string) (argv reStrs : list string) (why : string) :
  regexAnyOf RegExp cmd argv reStrs = Ok (Some why) -> Js.truthy why = true.
Proof.
  induction reStrs as [|reStr rest IH]; simpl; [discriminate|].
  unfold newRegExp. destruct (RegExp reStr) as [re|]; simpl; [|discriminate].
  destruct (existsb re argv); [|exact IH].
  intros [= <-]. reflexivity.
Qed.

Lemma dangerousRules_truthy (cmd : string) (argv : list string)
    (rules : list DangerousPattern) (why : string) :
  dangerousRules RegExp cmd argv rules = Ok (Some why) -> Js.truthy why = true.
Proof.
  induction rules as [|rule rest IH]; simpl; [discriminate|].
  destruct (negb (dp_command rule =? cmd)%string); [exact IH|].
  destruct (match argsAnyOf rule with
            | Some anyOf => existsb (fun a => Js.arrIncludes argv a) anyOf
            | None => false
            end).
  - intros [= <-]. reflexivity.
  - destruct (argsRegexAnyOf rule) as [reStrs|]; simpl; [|exact IH].
    destruct (regexAnyOf RegExp cmd argv reStrs) as [[hit|]|e m] eqn:E; simpl;
      [|exact IH|discriminate].
    intros [= <-]. exact (regexAnyOf_truthy _ _ _ _ E).
Qed.

Lemma isDangerous_truthy (ctx : TerminalContext) (cmd : string) (argv : list string)
    (why : string) :
  isDangerous RegExp ctx cmd argv = Ok (Some why) -> Js.truthy why = true.
Proof.
  unfold isDangerous.
  destruct (match dangerousCommands (policy ctx) with
            | Some cmds => Js.arrIncludes cmds cmd
            | None => false
            end).
  - intros [= <-]. reflexivity.
  - apply dangerousRules_truthy.
Qed.

(** *** [run], branch by branch *)

(** the checks of [run] before the classifier *)
Definition admitted (ctx : TerminalContext) (params : RunParams) (env : Env)
    (cwdAbs : string) : Prop :=
  resolveSandboxPath (processCwd env) ctx (default "." (rp_cwd params)) = Ok cwdAbs /\
  isSafeCommandName (rp_command params) = true /\
  Js.arrIncludes (allowedCommands (policy ctx)) (rp_command params) = true /\
  checkArgsAgainstPolicy RegExp (processCwd env) ctx (default [] (rp_args params)) = Ok tt.

Lemma classic_admitted (ctx : TerminalContext) (params : RunParams) (env : Env)
    (cwdAbs : string) :
  resolveSandboxPath (processCwd env) ctx (default "." (rp_cwd params)) = Ok cwdAbs ->
  admitted ctx params env cwdAbs \/
  ~ (isSafeCommandName (rp_command params) = true /\
     Js.arrIncludes (allowedCommands (policy ctx)) (rp_command params) = true /\
     checkArgsAgainstPolicy RegExp (processCwd env) ctx (default [] (rp_args params)) = Ok tt).
Proof.
  intros Hcwd. unfold admitted.
  destruct (isSafeCommandName (rp_command params));
    [|right; intros (? & _); discriminate].
  destruct (Js.arrIncludes (allowedCommands (policy ctx)) (rp_command params));
    [|right; intros (_ & ? & _); discriminate].
  destruct (checkArgsAgainstPolicy RegExp (processCwd env) ctx (default [] (rp_args params)))
    as [[]|e m]; [left; repeat split; assumption | right; intros (_ & _ & ?); discriminate].
Qed.

Definition stage1Record (ctx : TerminalContext) (env : Env) (w : World)
    (cmd : string) (argv : list string) (dir why : string) : PendingConfirmation :=
  {| token := uuid env (S (length (trace w))); stage := Stage1;
     createdAtMs := clock env (length (trace w));
     expiresAtMs := clock env (length (trace w)) + ttlMs ctx;
     command := cmd; args := argv; cwd := dir; reason := why |}.

Lemma toolRun_dangerous (ctx : TerminalContext) (params : RunParams) (env : Env)
    (w : World) (cwdAbs why : string) :
  admitted ctx params env cwdAbs ->
  isDangerous RegExp ctx (rp_command params) (default [] (rp_args params)) = Ok (Some why) ->
  let cmd := rp_command params in
  let argv := default [] (rp_args params) in
  let p := stage1Record ctx env w cmd argv cwdAbs why in
  let n := length (trace w) in
  let ts := clock env (S (S n)) in
  let ok := appendOk env (S (S (S n))) in
  toolRun RegExp ctx params env w
  = (if ok
     then Ok {| text :=
                  "Refusing to execute dangerous command without confirmation." ++ Js.nl
                  ++ "Reason: " ++ why ++ Js.nl
                  ++ "Step 1/2: run: confirm " ++ token p ++ Js.nl;
                requiresConfirmation :=
                  Some {| c_token := token p; c_reason := why;
                          c_expiresAt := expiresAtMs p |} |}
     else Err IOFailure ("appendFile failed: " ++ auditLogAbs ctx),
     store (<[token p := p]> (pending w))
       (extend w [EvClock (createdAtMs p); EvUUID (token p); EvClock ts;
                  EvAppend (auditLogAbs ctx) ts
                    (run_requires_confirmation_stage1 (token p) cmd argv cwdAbs why) ok])).
Proof.
  intros (Hcwd & Hsafe & Hallow & Hargs) Hdanger. cbv zeta.
  pose proof (isDangerous_truthy _ _ _ _ Hdanger) as Htruthy.
  unfold toolRun. run_m. rewrite Hcwd, Hsafe, Hallow. cbn.
  rewrite Hargs, Hdanger, Htruthy. cbn.
  rewrite createPendingConfirmation_eq. cbv zeta. cbn [default from_option id].
  rewrite appendAudit_eq. cbv zeta.
  unfold store, extend, stage1Record. cbn. rewrite !length_app. cbn [length].
  rewrite !Nat.add_succ_r, !Nat.add_0_r, <- List.app_assoc. cbn.
  destruct (appendOk env (S (S (S (length (trace w)))))); reflexivity.
Qed.

Lemma toolRun_rejected (ctx : TerminalContext) (params : RunParams) (env : Env)
    (w : World) :
  (forall cwdAbs, ~ admitted ctx params env cwdAbs) \/
  (exists e m, isDangerous RegExp ctx (rp_command params) (default [] (rp_args params))
               = Err e m) ->
  exists e m, toolRun RegExp ctx params env w = (Err e m, w).
Proof.
  intros H. unfold toolRun. run_m.
  destruct (resolveSandboxPath _ _ _) as [cwdAbs|e m] eqn:Hcwd; cbn; [|eauto].
  destruct (isSafeCommandName _) eqn:Hsafe; cbn; [|eauto].
  destruct (Js.arrIncludes _ _) eqn:Hallow; cbn; [|eauto].
  destruct (checkArgsAgainstPolicy _ _ _ _) as [[]|e m] eqn:Hargs; cbn; [|eauto].
  destruct H as [H|(e & m & ->)]; [|cbn; eauto].
  exfalso. apply (H cwdAbs). now repeat split.
Qed.

Lemma toolRun_safe (ctx : TerminalContext) (params : RunParams) (env : Env)
    (w : World) (cwdAbs : string) :
  admitted ctx params env cwdAbs ->
  isDangerous RegExp ctx (rp_command params) (default [] (rp_args params)) = Ok None ->
  let cmd := rp_command params in
  let argv := default [] (rp_args params) in
  let n := length (trace w) in
  toolRun RegExp ctx params env w
  = match spawnAndCapture (child env n cmd argv cwdAbs) (maxChars ctx) with
    | Err e m => (Err e m, extend w [EvSpawn cmd argv cwdAbs])
    | Ok res =>
        let ts := clock env (S n) in
        let ok := appendOk env (S (S n)) in
        (if ok then Ok {| text := output res; requiresConfirmation := None |}
         else Err IOFailure ("appendFile failed: " ++ auditLogAbs ctx),
         extend w [EvSpawn cmd argv cwdAbs; EvClock ts;
                   EvAppend (auditLogAbs ctx) ts
                     (run_executed cmd argv cwdAbs (exitCode res)) ok])
    end.
Proof.
  intros (Hcwd & Hsafe & Hallow & Hargs) Hdanger. cbv zeta.
  unfold toolRun. run_m. rewrite Hcwd, Hsafe, Hallow. cbn.
  rewrite Hargs, Hdanger. cbn.
  rewrite spawnAndCaptureM_eq.
  destruct (spawnAndCapture _ _) as [res|e m]; [|reflexivity].
  rewrite appendAudit_eq. cbv zeta. rewrite extend_extend.
  cbn. rewrite length_app, Nat.add_1_r.
  destruct (appendOk env (S (S (length (trace w))))); reflexivity.
Qed.

(** *** [confirm], branch by branch *)

Definition unknownTokenText : string :=
  "Unknown confirmation token (maybe expired or already used)".

Definition expired (env : Env) (w : World) (p : PendingConfirmation) : bool :=
  expiresAtMs p <? clock env (length (trace w)).

Lemma toolConfirm_unknown (ctx : TerminalContext) (tok : string) (env : Env) (w : World) :
  pending w !! tok = None ->
  toolConfirm ctx tok env w = (Err ConfirmationMissing unknownTokenText, w).
Proof. intros H. unfold toolConfirm. run_m. now rewrite H. Qed.

Lemma toolConfirm_expired (ctx : TerminalContext) (tok : string) (env : Env) (w : World)
    (p : PendingConfirmation) :
  pending w !! tok = Some p ->
  expired env w p = true ->
  toolConfirm ctx tok env w
  = (Err ConfirmationExpired "Confirmation token expired",
     store (delete tok (pending w)) (extend w [EvClock (clock env (length (trace w)))])).
Proof.
  unfold expired. intros H He. unfold toolConfirm. run_m. rewrite H. cbn. now rewrite He.
Qed.

Definition stage2Record (ctx : TerminalContext) (env : Env) (w : World)
    (p : PendingConfirmation) : PendingConfirmation :=
  let n := length (trace w) in
  {| token := uuid env (S (S n)); stage := Stage2;
     createdAtMs := clock env (S n);
     expiresAtMs := clock env (S n) + ttlMs ctx;
     command := command p; args := args p; cwd := cwd p; reason := reason p |}.

Lemma toolConfirm_stage1 (ctx : TerminalContext) (tok : string) (env : Env) (w : World)
    (p : PendingConfirmation) :
  pending w !! tok = Some p ->
  expired env w p = false ->
  stage p = Stage1 ->
  let n := length (trace w) in
  let p2 := stage2Record ctx env w p in
  let ts := clock env (S (S (S n))) in
  let ok := appendOk env (S (S (S (S n)))) in
  toolConfirm ctx tok env w
  = (if ok
     then Ok {| text :=
                  "Confirmation step 1/2 accepted." ++ Js.nl
                  ++ "Reason: " ++ reason p ++ Js.nl
                  ++ "Step 2/2: run: confirm " ++ token p2 ++ Js.nl;
                requiresConfirmation := None |}
     else Err IOFailure ("appendFile failed: " ++ auditLogAbs ctx),
     store (<[token p2 := p2]> (delete tok (pending w)))
       (extend w [EvClock (clock env n); EvClock (createdAtMs p2); EvUUID (token p2);
                  EvClock ts;
                  EvAppend (auditLogAbs ctx) ts
                    (confirm_stage1_issued_stage2 tok (token p2) (command p) (args p)
                       (cwd p) (reason p)) ok])).
Proof.
  unfold expired. intros H He Hs. cbv zeta.
  unfold toolConfirm. run_m. rewrite H. cbn. rewrite He, Hs. cbn.
  rewrite appendAudit_eq. cbv zeta.
  unfold store, extend, stage2Record. cbn. rewrite !length_app. cbn [length].
  rewrite !Nat.add_succ_r, !Nat.add_0_r, <- !List.app_assoc. cbn.
  destruct (appendOk env (S (S (S (S (length (trace w))))))); reflexivity.
Qed.

Lemma toolConfirm_stage2 (ctx : TerminalContext) (tok : string) (env : Env) (w : World)
    (p : PendingConfirmation) :
  pending w !! tok = Some p ->
  expired env w p = false ->
  stage p = Stage2 ->
  let n := length (trace w) in
  let call := EvSpawn (command p) (args p) (cwd p) in
  exists (r : Result ToolResponse) (evs : list Event),
    toolConfirm ctx tok env w
    = (r, store (delete tok (pending w)) (extend w (EvClock (clock env n) :: call :: evs)))
    /\ Forall quiet evs
    /\ match spawnAndCapture (child env (S n) (command p) (args p) (cwd p)) (maxChars ctx) with
       | Err e m => r = Err e m /\ evs = []
       | Ok res =>
           exists (chmods : list Event) (ts : Z) (ok : bool),
             evs = (chmods ++
                    [EvClock ts;
                     EvAppend (auditLogAbs ctx) ts
                       (confirm_executed tok Stage2 (command p) (args p) (cwd p)
                          (reason p) (exitCode res)) ok])%list
             /\ r = if ok
                    then Ok {| text := output res; requiresConfirmation := None |}
                    else Err IOFailure ("appendFile failed: " ++ auditLogAbs ctx)
       end.
Proof.
  unfold expired. intros H He Hs. cbv zeta.
  unfold toolConfirm. run_m. rewrite H. cbn. rewrite He, Hs. cbn.
  rewrite spawnAndCaptureM_eq. cbn [trace]. rewrite length_app, Nat.add_1_r. cbn [length].
  destruct (spawnAndCapture _ _) as [res|e m].
  - match goal with |- context [sshKeygenPostProcess p env ?w0] =>
      destruct (sshKeygenPostProcess_eq p env w0) as (chmods & -> & Hq)
    end.
    rewrite appendAudit_eq. cbv zeta.
    match goal with |- context [EvAppend _ ?ts0 _ ?ok0] =>
      exists (if ok0 then Ok {| text := output res; requiresConfirmation := None |}
              else Err IOFailure ("appendFile failed: " ++ auditLogAbs ctx)),
             (chmods ++ [EvClock ts0; EvAppend (auditLogAbs ctx) ts0
                           (confirm_executed tok Stage2 (command p) (args p) (cwd p)
                              (reason p) (exitCode res)) ok0])%list
    end.
    split; [|split].
    + unfold store, extend. cbn. rewrite <- !List.app_assoc. cbn.
      match goal with |- context [appendOk env ?i] => destruct (appendOk env i) end;
        reflexivity.
    + apply Forall_app. split; [exact Hq | repeat constructor].
    + eauto.
  - exists (Err e m), []. split; [|split; [constructor | split; reflexivity]].
    unfold store, extend. cbn. now rewrite <- !List.app_assoc.
Qed.

(** *** [cancel] and [generate_ssh_key] *)

Lemma toolCancel_eq (ctx : TerminalContext) (tok : string) (env : Env) (w : World) :
  exists (r : Result ToolResponse) (evs : list Event),
    toolCancel ctx tok env w = (r, store (delete tok (pending w)) (extend w evs))
    /\ Forall quiet evs.
Proof.
  unfold toolCancel. run_m. rewrite appendAudit_eq. cbv zeta.
  match goal with |- context [appendOk env ?i] => destruct (appendOk env i) end;
    eexists _, [_; _]; (split; [reflexivity | repeat constructor]).
Qed.

Definition sshKeyPath (env : Env) (filename : string) : string :=
  Path.join [Path.resolve (processCwd env) [homedir env; ".ssh"]; filename].

(** the three ways a call to [generate_ssh_key] ends *)
Inductive SshKeyOutcome (ctx : TerminalContext) (params : SshKeyParams) (env : Env)
    (w : World) : Result ToolResponse -> World -> Prop :=
| SshKeyInvalid (m : string) (evs : list Event) :
    Forall quiet evs ->
    SshKeyOutcome ctx params env w (Err InvalidArgument m) (extend w evs)
| SshKeyMkdirFailed (m : string) (evs : list Event) :
    Forall quiet evs ->
    SshKeyOutcome ctx params env w (Err IOFailure m) (extend w evs)
| SshKeyIssued (r : Result ToolResponse) (filename : string) (p : PendingConfirmation)
    (n : nat) (before after : list Event) :
    ensureSafeSshKeyFileName (default "id_ed25519" (sk_filename params)) = Ok filename ->
    (length (trace w) <= n)%nat ->
    token p = uuid env n ->
    stage p = Stage1 ->
    command p = "ssh-keygen" ->
    args p = sshKeygenArgs (default ed25519 (sk_type params)) (sshKeyPath env filename)
               (default "smartos-mcp" (sk_comment params))
               (default "" (sk_passphrase params)) ->
    cwd p = homedir env ->
    Forall quiet before -> Forall quiet after ->
    (r = Err IOFailure ("appendFile failed: " ++ auditLogAbs ctx) \/
     exists t, r = Ok {| text := t;
                         requiresConfirmation :=
                           Some {| c_token := token p; c_reason := reason p;
                                   c_expiresAt := expiresAtMs p |} |}) ->
    SshKeyOutcome ctx params env w r
      (store (<[token p := p]> (pending w))
         (extend w (before ++ EvUUID (token p) :: after)%list)).

Lemma extend_nil (w : World) : extend w [] = w.
Proof. unfold extend. rewrite app_nil_r. now destruct w. Qed.

Lemma mkdir_eq (path : string) (mode : Z) (env : Env) (w : World) :
  mkdir path mode env w
  = (if mkdirOk env (length (trace w)) then Ok tt
     else Err IOFailure ("mkdir failed: " ++ path),
     extend w [EvMkdir path mode (mkdirOk env (length (trace w)))]).
Proof.
  unfold mkdir. run_m. destruct (mkdirOk env (length (trace w))); reflexivity.
Qed.

Lemma keyFilesExist_eq (keyPath : string) (env : Env) (w : World) :
  exists (found : bool) (evs : list Event),
    keyFilesExist keyPath env w = (Ok found, extend w evs) /\ Forall quiet evs.
Proof.
  unfold keyFilesExist, statExists. run_m.
  destruct (statOk env (length (trace w)) keyPath).
  - exists true, [EvStat keyPath true]. split; [reflexivity | repeat constructor].
  - eexists _, [EvStat keyPath false; EvStat _ _]. split; [|repeat constructor].
    unfold extend. cbn. rewrite <- !List.app_assoc. reflexivity.
Qed.

Lemma ensureSafeSshKeyFileName_error (name : string) (e : ErrorKind) (m : string) :
  ensureSafeSshKeyFileName name = Err e m -> e = InvalidArgument.
Proof. unfold ensureSafeSshKeyFileName. repeat case_match; congruence. Qed.

Lemma toolGenerateSshKey_outcome (ctx : TerminalContext) (params : SshKeyParams)
    (env : Env) (w : World) :
  SshKeyOutcome ctx params env w
    (fst (toolGenerateSshKey ctx params env w)) (snd (toolGenerateSshKey ctx params env w)).
Proof.
  unfold toolGenerateSshKey. run_m.
  destruct (ensureSafeSshKeyFileName _) as [filename|e m] eqn:Hname; cbn.
  2:{ apply ensureSafeSshKeyFileName_error in Hname as ->.
      rewrite <- (extend_nil w) at 2. constructor. constructor. }
  rewrite mkdir_eq.
  destruct (mkdirOk env (length (trace w))) eqn:Hmk; cbn.
  2:{ apply (SshKeyMkdirFailed ctx params env w _ [_]). repeat constructor. }
  match goal with |- context [keyFilesExist ?kp env ?w0] =>
    destruct (keyFilesExist_eq kp env w0) as (found & evs & -> & Hq)
  end.
  rewrite extend_extend.
  destruct (found && negb (default false (sk_overwrite params))) eqn:Hex; cbn.
  { constructor. constructor; [exact I | assumption]. }
  rewrite createPendingConfirmation_eq. cbv beta iota zeta.
  rewrite appendAudit_eq. cbv beta iota zeta.
  match goal with
  | |- context [store (<[_ := ?p0]> _) _] => set (p := p0)
  end.
  assert (Hissue : forall (r : Result ToolResponse) (ok : bool) (ts : Z) (entry : AuditEntry),
    (r = Err IOFailure ("appendFile failed: " ++ auditLogAbs ctx) \/
     exists t, r = Ok {| text := t;
                         requiresConfirmation :=
                           Some {| c_token := token p; c_reason := reason p;
                                   c_expiresAt := expiresAtMs p |} |}) ->
    SshKeyOutcome ctx params env w r
      (extend (store (<[token p := p]> (pending w))
                 (extend w (EvMkdir (Path.resolve (processCwd env) [homedir env; ".ssh"])
                              448 true :: evs ++ [EvClock (createdAtMs p); EvUUID (token p)])%list))
         [EvClock ts; EvAppend (auditLogAbs ctx) ts entry ok])).
  { intros r ok ts entry Hr.
    rewrite extend_store, extend_extend.
    set (pre := (EvMkdir (Path.resolve (processCwd env) [homedir env; ".ssh"]) 448 true
                 :: evs)%list).
    match goal with |- SshKeyOutcome _ _ _ _ _ (store _ (extend _ ?l)) =>
      replace l
        with ((pre ++ [EvClock (createdAtMs p)]) ++
              EvUUID (token p) :: [EvClock ts; EvAppend (auditLogAbs ctx) ts entry ok])%list
        by (subst pre; cbn [app]; rewrite <- !List.app_assoc; reflexivity)
    end.
    apply (SshKeyIssued ctx params env w r filename p (S (length (trace (extend w pre)))));
      try reflexivity; try assumption.
    - rewrite trace_extend, length_app. lia.
    - apply Forall_app. split; [|repeat constructor].
      subst pre. constructor; [exact I | assumption].
    - repeat constructor. }
  rewrite extend_extend.
  match goal with |- context [appendOk env ?i] => destruct (appendOk env i) end;
    cbn [fst snd]; apply Hissue; [right; eexists; reflexivity | left; reflexivity].
Qed.

(** *** What one request does to the store and to the trace *)

Definition samePayload (p q : PendingConfirmation) : Prop :=
  command p = command q /\ args p = args q /\ cwd p = cwd q.

Inductive Transition (ctx : TerminalContext) (env : Env) (w : World)
  : Request -> World -> Prop :=
| TrKeep (req : Request) (evs : list Event) :
    Forall quiet evs ->
    Transition ctx env w req (extend w evs)
| TrRetire (req : Request) (tok : string) (evs : list Event) :
    req = Confirm tok \/ req = Cancel tok ->
    Forall quiet evs ->
    Transition ctx env w req (store (delete tok (pending w)) (extend w evs))
| TrIssue (req : Request) (p : PendingConfirmation) (n : nat) (before after : list Event) :
    (exists params, req = Run params) \/ (exists params, req = GenerateSshKey params) ->
    (length (trace w) <= n)%nat ->
    token p = uuid env n ->
    stage p = Stage1 ->
    Forall quiet before -> Forall quiet after ->
    Transition ctx env w req
      (store (<[token p := p]> (pending w))
         (extend w (before ++ EvUUID (token p) :: after)%list))
| TrAdvance (tok : string) (p1 p2 : PendingConfirmation) (n : nat)
    (before after : list Event) :
    pending w !! tok = Some p1 ->
    stage p1 = Stage1 ->
    stage p2 = Stage2 ->
    samePayload p1 p2 ->
    (length (trace w) <= n)%nat ->
    token p2 = uuid env n ->
    Forall quiet before -> Forall quiet after ->
    Transition ctx env w (Confirm tok)
      (store (<[token p2 := p2]> (delete tok (pending w)))
         (extend w (before ++ EvUUID (token p2) :: after)%list))
| TrRunSpawn (params : RunParams) (cwdAbs : string) (after : list Event) :
    admitted ctx params env cwdAbs ->
    isDangerous RegExp ctx (rp_command params) (default [] (rp_args params)) = Ok None ->
    Forall quiet after ->
    Transition ctx env w (Run params)
      (extend w (EvSpawn (rp_command params) (default [] (rp_args params)) cwdAbs :: after))
| TrConfirmSpawn (tok : string) (p : PendingConfirmation) (before after : list Event) :
    pending w !! tok = Some p ->
    stage p = Stage2 ->
    expired env w p = false ->
    Forall quiet before -> Forall quiet after ->
    Transition ctx env w (Confirm tok)
      (store (delete tok (pending w))
         (extend w (before ++ EvSpawn (command p) (args p) (cwd p) :: after)%list)).

Lemma toolRun_transition (ctx : TerminalContext) (params : RunParams) (env : Env)
    (w : World) :
  Transition ctx env w (Run params) (snd (toolRun RegExp ctx params env w)).
Proof.
  destruct (resolveSandboxPath (processCwd env) ctx (default "." (rp_cwd params)))
    as [cwdAbs|e m] eqn:Hcwd.
  2:{ destruct (toolRun_rejected ctx params env w) as (e' & m' & ->).
      - left. intros cwdAbs (H & _). congruence.
      - cbn. rewrite <- (extend_nil w) at 2. constructor. constructor. }
  destruct (classic_admitted ctx params env cwdAbs Hcwd) as [Hadm|Hno].
  2:{ destruct (toolRun_rejected ctx params env w) as (e' & m' & ->).
      - left. intros cwdAbs' Hadm. apply Hno.
        destruct Hadm as (H & ?). rewrite Hcwd in H. injection H as <-. now split.
      - cbn. rewrite <- (extend_nil w) at 2. constructor. constructor. }
  destruct (isDangerous RegExp ctx (rp_command params) (default [] (rp_args params)))
    as [[why|]|e m] eqn:Hd.
  - rewrite (toolRun_dangerous ctx params env w cwdAbs why Hadm Hd). cbn [snd].
    apply (TrIssue ctx env w (Run params) _ (S (length (trace w))) [_] [_; _]);
      first [ reflexivity | lia | left; eauto; fail | repeat constructor ].
  - rewrite (toolRun_safe ctx params env w cwdAbs Hadm Hd).
    destruct (spawnAndCapture _ _); cbn [snd].
    + apply TrRunSpawn; try assumption. repeat constructor.
    + apply TrRunSpawn; try assumption. constructor.
  - destruct (toolRun_rejected ctx params env w) as (e' & m' & ->).
    + right. eauto.
    + cbn. rewrite <- (extend_nil w) at 2. constructor. constructor.
Qed.

Lemma toolConfirm_transition (ctx : TerminalContext) (tok : string) (env : Env)
    (w : World) :
  Transition ctx env w (Confirm tok) (snd (toolConfirm ctx tok env w)).
Proof.
  destruct (pending w !! tok) as [p|] eqn:Hp.
  2:{ rewrite toolConfirm_unknown by assumption. cbn.
      rewrite <- (extend_nil w) at 2. constructor. constructor. }
  destruct (expired env w p) eqn:He.
  { rewrite (toolConfirm_expired ctx tok env w p) by assumption. cbn [snd].
    apply TrRetire; [now left | repeat constructor]. }
  destruct (stage p) eqn:Hs.
  - rewrite (toolConfirm_stage1 ctx tok env w p) by assumption. cbn [snd].
    apply (TrAdvance ctx env w tok p (stage2Record ctx env w p) (S (S (length (trace w))))
             [_; _] [_; _]);
      first [ assumption | reflexivity | lia | repeat constructor ].
  - destruct (toolConfirm_stage2 ctx tok env w p Hp He Hs) as (r & evs & -> & Hq & _).
    cbn [snd].
    apply (TrConfirmSpawn ctx env w tok p [_]); try assumption. repeat constructor.
Qed.

Lemma handle_transition (ctx : TerminalContext) (req : Request) (env : Env) (w : World) :
  Transition ctx env w req (snd (handle RegExp ctx req env w)).
Proof.
  destruct req as [params|tok|tok|params]; cbn [handle].
  - apply toolRun_transition.
  - apply toolConfirm_transition.
  - destruct (toolCancel_eq ctx tok env w) as (r & evs & -> & Hq). cbn [snd].
    apply TrRetire; [now right | assumption].
  - destruct (toolGenerateSshKey_outcome ctx params env w);
      [now constructor | now constructor |].
    eapply TrIssue; eauto.
Qed.

(** the trace only grows *)
Lemma transition_trace (ctx : TerminalContext) (env : Env) (w w' : World) (req : Request) :
  Transition ctx env w req w' -> exists evs, trace w' = (trace w ++ evs)%list.
Proof. destruct 1; cbn; eauto. Qed.

(** a token that is not in the store stays out of it, as long as the
    UUID source does not draw it again *)
Lemma transition_absent (ctx : TerminalContext) (env : Env) (w w' : World) (req : Request)
    (tok : string) :
  Transition ctx env w req w' ->
  (forall n, (length (trace w) <= n)%nat -> uuid env n <> tok) ->
  pending w !! tok = None ->
  pending w' !! tok = None.
Proof.
  intros Htr Hfresh Habs.
  destruct Htr; cbn [pending store extend]; try assumption.
  - rewrite lookup_delete. case_decide; [reflexivity | assumption].
  - rewrite lookup_insert_ne; [assumption|].
    match goal with H : token _ = uuid _ _ |- _ => rewrite H end. now apply Hfresh.
  - rewrite lookup_insert_ne.
    + rewrite lookup_delete. case_decide; [reflexivity | assumption].
    + match goal with H : token _ = uuid _ _ |- _ => rewrite H end. now apply Hfresh.
  - rewrite lookup_delete. case_decide; [reflexivity | assumption].
Qed.

Lemma serve_absent (ctx : TerminalContext) (reqs : list Request) (env : Env) (w : World)
    (tok : string) :
  (forall n, (length (trace w) <= n)%nat -> uuid env n <> tok) ->
  pending w !! tok = None ->
  pending (serve RegExp ctx reqs env w) !! tok = None.
Proof.
  revert w. induction reqs as [|req reqs IH]; intros w Hfresh Habs; cbn; [assumption|].
  pose proof (handle_transition ctx req env w) as Htr.
  apply IH.
  - destruct (transition_trace _ _ _ _ _ Htr) as (evs & ->).
    intros n Hn. apply Hfresh. rewrite length_app in Hn. lia.
  - eapply transition_absent; eauto.
Qed.

(** *** Spawns of a transition *)

Lemma spawns_around (before after : list Event) (e : Event) :
  Forall quiet before -> Forall quiet after ->
  spawns (before ++ e :: after) = spawns [e].
Proof.
  intros Hb Ha. rewrite spawns_app. change (e :: after) with ([e] ++ after)%list.
  rewrite spawns_app, (spawns_quiet before Hb), (spawns_quiet after Ha).
  now rewrite app_nil_r.
Qed.

(** what a request adds to the spawn log: nothing, or one process whose
    command line comes from an admitted safe [run] or from a stage-2
    record *)
Lemma transition_spawns (ctx : TerminalContext) (env : Env) (w w' : World) (req : Request) :
  Transition ctx env w req w' ->
  spawns (trace w') = spawns (trace w) \/
  (exists params cwdAbs,
     req = Run params /\
     isDangerous RegExp ctx (rp_command params) (default [] (rp_args params)) = Ok None /\
     spawns (trace w')
     = (spawns (trace w) ++ [(rp_command params, default [] (rp_args params), cwdAbs)])%list) \/
  (exists tok p,
     req = Confirm tok /\ pending w !! tok = Some p /\ stage p = Stage2 /\
     spawns (trace w') = (spawns (trace w) ++ [(command p, args p, cwd p)])%list).
Proof.
  intros Htr.
  destruct Htr as [req evs Hq | req tok evs _ Hq | req p n before after _ _ _ _ Hb Ha
                  | tok p1 p2 n before after _ _ _ _ _ _ Hb Ha
                  | params cwdAbs after Hadm Hsafe Ha
                  | tok p before after Hp Hs _ Hb Ha];
    cbn [trace store extend]; rewrite spawns_app.
  - left. rewrite (spawns_quiet evs Hq). apply app_nil_r.
  - left. rewrite (spawns_quiet evs Hq). apply app_nil_r.
  - left. rewrite (spawns_around before after _ Hb Ha). apply app_nil_r.
  - left. rewrite (spawns_around before after _ Hb Ha). apply app_nil_r.
  - right. left. exists params, cwdAbs. repeat split; try assumption.
    f_equal. apply (spawns_around [] after); [constructor | assumption].
  - right. right. exists tok, p. repeat split; try assumption.
    f_equal. now apply spawns_around.
Qed.

(** *** The claims *)


(** C10.  [confirm] on a live stage-2 record starts exactly the stored
    command line in the stored directory.  Nothing of the policy is looked
    at: the statement holds for every context, so also when the stored
    command is not on the allowlist, as for the [ssh-keygen] record that
    [generate_ssh_key] issues. *)
Theorem C10_confirm_runs_stored_payload (ctx : TerminalContext) (tok : string)
    (env : Env) (w : World) (p : PendingConfirmation) :
  pending w !! tok = Some p ->
  stage p = Stage2 ->
  expired env w p = false ->
  spawns (trace (snd (toolConfirm ctx tok env w)))
  = (spawns (trace w) ++ [(command p, args p, cwd p)])%list /\
  pending (snd (toolConfirm ctx tok env w)) = delete tok (pending w).
Proof.
  intros Hp Hs He.
  destruct (toolConfirm_stage2 ctx tok env w p Hp He Hs) as (r & evs & -> & Hq & _).
  cbn [snd trace pending store extend]. split; [|reflexivity].
  rewrite spawns_app. f_equal.
  apply (spawns_around [_]); [repeat constructor | assumption].
Qed.

(** C3, as the code has it.  Every handler awaits the audit append and
    lets its failure escape: when the append fails, an admitted [run] fails
    with that I/O error, after the process has run (safe command) or after
    the stage-1 record has been stored (flagged command); the captured
    output is returned only when the append succeeds. *)
Theorem C3_audit_failure_fails_run (ctx : TerminalContext) (params : RunParams)
    (env : Env) (w : World) (cwdAbs : string) :
  admitted ctx params env cwdAbs ->
  let cmd := rp_command params in
  let argv := default [] (rp_args params) in
  let n := length (trace w) in
  let r := fst (toolRun RegExp ctx params env w) in
  let w' := snd (toolRun RegExp ctx params env w) in
  let ioError := Err IOFailure ("appendFile failed: " ++ auditLogAbs ctx) in
  (forall res,
      isDangerous RegExp ctx cmd argv = Ok None ->
      spawnAndCapture (child env n cmd argv cwdAbs) (maxChars ctx) = Ok res ->
      spawns (trace w') = (spawns (trace w) ++ [(cmd, argv, cwdAbs)])%list /\
      r = if appendOk env (S (S n))
          then Ok {| text := output res; requiresConfirmation := None |}
          else ioError) /\
  (forall why,
      isDangerous RegExp ctx cmd argv = Ok (Some why) ->
      let p := stage1Record ctx env w cmd argv cwdAbs why in
      pending w' !! token p = Some p /\
      (appendOk env (S (S (S n))) = false -> r = ioError)).
Proof.
  intros Hadm cmd argv n r w' ioError. subst r w'. split.
  - intros res Hsafe Hres.
    rewrite (toolRun_safe ctx params env w cwdAbs Hadm Hsafe). cbv zeta.
    fold cmd argv n. rewrite Hres. cbn [fst snd trace extend].
    split; [|reflexivity].
    rewrite spawns_app. reflexivity.
  - intros why Hd p.
    rewrite (toolRun_dangerous ctx params env w cwdAbs why Hadm Hd). cbn [fst snd pending store].
    split.
    + apply lookup_insert_eq.
    + fold n. intros ->. reflexivity.
Qed.

(** C4.  Whatever [confirm] did with a token (advanced it, executed it,
    found it expired or did not find it), and whatever requests are served
    afterwards, presenting the token again is answered with the
    unknown-token error, provided the UUID source does not draw the same
    value again.  Nothing is assumed about the process or the audit append
    of the first call. *)
Theorem C4_confirmed_token_is_single_use (ctx : TerminalContext) (tok : string)
    (env : Env) (w : World) (reqs : list Request) :
  (forall n, (length (trace w) <= n)%nat -> uuid env n <> tok) ->
  let w1 := snd (toolConfirm ctx tok env w) in
  let w2 := serve RegExp ctx reqs env w1 in
  pending w1 !! tok = None /\
  toolConfirm ctx tok env w2 = (Err ConfirmationMissing unknownTokenText, w2).
Proof.
  intros Hfresh w1 w2.
  assert (H1 : pending w1 !! tok = None).
  { subst w1. destruct (pending w !! tok) as [p|] eqn:Hp.
    - destruct (expired env w p) eqn:He.
      + rewrite (toolConfirm_expired ctx tok env w p) by assumption. apply lookup_delete_eq.
      + destruct (stage p) eqn:Hs.
        * rewrite (toolConfirm_stage1 ctx tok env w p) by assumption.
          cbn [snd pending store].
          rewrite lookup_insert_ne; [apply lookup_delete_eq|].
          apply Hfresh. lia.
        * destruct (toolConfirm_stage2 ctx tok env w p Hp He Hs) as (r & evs & -> & _).
          apply lookup_delete_eq.
    - now rewrite toolConfirm_unknown. }
  split; [assumption|].
  apply toolConfirm_unknown. subst w2. apply serve_absent; [|assumption].
  destruct (transition_trace _ _ _ _ _ (toolConfirm_transition ctx tok env w)) as (evs & Hevs).
  fold w1 in Hevs. rewrite Hevs. intros n Hn. apply Hfresh. rewrite length_app in Hn. lia.
Qed.

(** C5, as the code has it.  The store is a map from token to record and
    can hold many records (one for every request awaiting confirmation);
    what it guarantees is that each key names the one record that carries
    it.  A stage-2 record appears only when [confirm] retires a stage-1
    record with the same command, arguments and directory. *)
Theorem C5_store_keys_and_stage2_birth (ctx : TerminalContext) :
  (forall (reqs : list Request) (env : Env) (k : string) (p : PendingConfirmation),
      pending (serve RegExp ctx reqs env emptyWorld) !! k = Some p -> token p = k) /\
  (forall (req : Request) (env : Env) (w : World) (k : string) (p2 : PendingConfirmation),
      let w' := snd (handle RegExp ctx req env w) in
      pending w' !! k = Some p2 ->
      stage p2 = Stage2 ->
      pending w !! k <> Some p2 ->
      exists tok p1,
        req = Confirm tok /\ pending w !! tok = Some p1 /\ stage p1 = Stage1 /\
        samePayload p1 p2 /\ (k <> tok -> pending w' !! tok = None)).
Proof.
  split.
  - intros reqs env.
    assert (Hinv : forall w,
      (forall k p, pending w !! k = Some p -> token p = k) ->
      forall k p, pending (serve RegExp ctx reqs env w) !! k = Some p -> token p = k).
    { induction reqs as [|req reqs IH]; intros w Hw; cbn [serve]; [exact Hw|].
      apply IH. intros k p.
      destruct (handle_transition ctx req env w); cbn [pending store extend].
      - apply Hw.
      - rewrite lookup_delete. case_decide; [discriminate | apply Hw].
      - rewrite lookup_insert. case_decide; [congruence | apply Hw].
      - rewrite lookup_insert. case_decide; [congruence|].
        rewrite lookup_delete. case_decide; [discriminate | apply Hw].
      - apply Hw.
      - rewrite lookup_delete. case_decide; [discriminate | apply Hw]. }
    apply Hinv. intros k p. unfold emptyWorld. cbn. now rewrite lookup_empty.
  - intros req env w k p2 w' Hk Hs Hnew. subst w'.
    destruct (handle_transition ctx req env w)
      as [req evs Hq | req tok evs _ Hq | req p n before after _ _ _ Hs1 Hb Ha
         | tok p1 p3 n before after Hp1 Hs1 Hs3 Hsame _ _ Hb Ha
         | params cwdAbs after Hadm Hsafe Ha
         | tok p before after Hp Hsp _ Hb Ha];
      cbn [pending store extend] in Hk.
    + contradiction.
    + rewrite lookup_delete in Hk. case_decide; [discriminate | contradiction].
    + rewrite lookup_insert in Hk. case_decide; [|contradiction].
      injection Hk as <-. congruence.
    + rewrite lookup_insert in Hk. case_decide as Hkey.
      * injection Hk as <-. exists tok, p1. repeat split; try assumption; try apply Hsame.
        intros Hne. cbn [pending store]. rewrite lookup_insert_ne by congruence.
        apply lookup_delete_eq.
      * rewrite lookup_delete in Hk. case_decide; [discriminate | contradiction].
    + contradiction.
    + rewrite lookup_delete in Hk. case_decide; [discriminate | contradiction].
Qed.


End TerminalFacts.

(** ** Sample sessions: the claims at concrete inputs *)

Section Sessions.

Import Runner Terminal.

(** no pattern of the sample policies is a regular expression *)
Definition noRegExp : string -> option (string -> bool) := fun _ => None.

Definition rmSandbox : TerminalContext :=
  {| policy := {| sandboxRoot := "/tmp/s";
                  auditLogPath := ".mcp-audit/terminal-server.jsonl";
                  allowedCommands := ["ls"; "rm"];
                  blockedArgsRegex := None;
                  dangerousCommands := Some ["rm"];
                  dangerousPatterns := None;
                  confirmTtlSeconds := None;
                  maxOutputChars := None;
                  maxFileReadBytes := None |};
     sandboxRootAbs := "/tmp/s";
     auditLogAbs := "/tmp/s/.mcp-audit/terminal-server.jsonl" |}.

Definition listing : ChildRun :=
  {| events := [StdoutData "file.txt"]; ending := ChildClose (Some 0) |}.

(** a well-behaved runtime: the clock ticks, every append and mkdir
    succeeds, no key file exists, tokens are numbered by position *)
Definition calmEnv : Env :=
  {| clock := fun n => 1000 + Z.of_nat n;
     uuid := fun n => "T" ++ Js.numToString (Z.of_nat n);
     child := fun _ _ _ _ => listing;
     appendOk := fun _ => true;
     mkdirOk := fun _ => true;
     statOk := fun _ _ => false;
     homedir := "/home/u";
     processCwd := "/tmp/s" |}.

(** the same runtime with an audit file that cannot be written *)
Definition brokenAuditEnv : Env :=
  {| clock := clock calmEnv; uuid := uuid calmEnv; child := child calmEnv;
     appendOk := fun _ => false;
     mkdirOk := mkdirOk calmEnv; statOk := statOk calmEnv;
     homedir := homedir calmEnv; processCwd := processCwd calmEnv |}.

(** a runtime whose second and later tokens are all ["T2"] *)
Definition twoTokenEnv : Env :=
  {| clock := clock calmEnv;
     uuid := fun n => if (n =? 1)%nat then "T1" else "T2";
     child := child calmEnv; appendOk := appendOk calmEnv;
     mkdirOk := mkdirOk calmEnv; statOk := statOk calmEnv;
     homedir := homedir calmEnv; processCwd := processCwd calmEnv |}.

Definition runLs : RunParams :=
  {| rp_command := "ls"; rp_args := None; rp_cwd := None |}.

Definition runRm : RunParams :=
  {| rp_command := "rm"; rp_args := Some ["-rf"; "x"]; rp_cwd := None |}.

Definition defaultKey : SshKeyParams :=
  {| sk_type := None; sk_filename := None; sk_comment := None;
     sk_passphrase := None; sk_overwrite := None |}.


Lemma runLs_admitted (env : Env) :
  processCwd env = "/tmp/s" -> admitted noRegExp rmSandbox runLs env "/tmp/s".
Proof. intros H. unfold admitted. rewrite H. repeat split; reflexivity. Qed.

(** The claim C3 fails on the code: with an audit file that cannot be
    written, [run ls] spawns [ls], captures its listing and then fails with
    the I/O error instead of returning the listing. *)
Lemma C3_audit_failure_is_fatal :
  ~ (forall (env : Env) (w : World) (res : SpawnResult),
       admitted noRegExp rmSandbox runLs env "/tmp/s" ->
       isDangerous noRegExp rmSandbox "ls" [] = Ok None ->
       spawnAndCapture (child env (length (trace w)) "ls" [] "/tmp/s") (maxChars rmSandbox)
       = Ok res ->
       fst (toolRun noRegExp rmSandbox runLs env w)
       = Ok {| text := output res; requiresConfirmation := None |}).
Proof.
  intros H.
  specialize (H brokenAuditEnv emptyWorld _ (runLs_admitted brokenAuditEnv eq_refl)
                eq_refl eq_refl).
  vm_compute in H. discriminate H.
Qed.

Lemma C3_audit_failure_fails_run_witness :
  spawns (trace (snd (toolRun noRegExp rmSandbox runLs brokenAuditEnv emptyWorld)))
  = [("ls", [], "/tmp/s")] /\
  fst (toolRun noRegExp rmSandbox runLs brokenAuditEnv emptyWorld)
  = Err IOFailure "appendFile failed: /tmp/s/.mcp-audit/terminal-server.jsonl".
Proof.
  exact (proj1 (C3_audit_failure_fails_run noRegExp rmSandbox runLs brokenAuditEnv
                  emptyWorld "/tmp/s" (runLs_admitted brokenAuditEnv eq_refl))
           _ eq_refl eq_refl).
Defined.

(** the store after [run rm -rf x]: one stage-1 record under ["T1"] *)
Definition afterRunRm : World := serve noRegExp rmSandbox [Run runRm] twoTokenEnv emptyWorld.

Lemma C4_confirmed_token_is_single_use_witness :
  pending afterRunRm !! "T1" <> None /\
  toolConfirm rmSandbox "T1" twoTokenEnv
    (serve noRegExp rmSandbox [Cancel "T9"; Run runLs] twoTokenEnv
       (snd (toolConfirm rmSandbox "T1" twoTokenEnv afterRunRm)))
  = (Err ConfirmationMissing unknownTokenText,
     serve noRegExp rmSandbox [Cancel "T9"; Run runLs] twoTokenEnv
       (snd (toolConfirm rmSandbox "T1" twoTokenEnv afterRunRm))).
Proof.
  split; [vm_compute; discriminate|].
  refine (proj2 (C4_confirmed_token_is_single_use noRegExp rmSandbox "T1" twoTokenEnv
                   afterRunRm [Cancel "T9"; Run runLs] _)).
  intros n Hn. change (4 <= n)%nat in Hn. cbn [uuid twoTokenEnv].
  destruct (Nat.eqb_spec n 1); [lia | discriminate].
Defined.

(** The first part of C5 fails on the code: two flagged requests leave two
    records in the store. *)
Lemma C5_store_holds_two_records :
  ~ (forall (reqs : list Request) (env : Env),
       (size (pending (serve noRegExp rmSandbox reqs env emptyWorld)) <= 1)%nat).
Proof.
  intros H. specialize (H [Run runRm; Run runRm] twoTokenEnv).
  vm_compute in H. lia.
Qed.

(** the store after [generate_ssh_key] with defaults and one [confirm]:
    a stage-2 record for [ssh-keygen] under ["T9"] *)
Definition afterKeyRequest : World :=
  serve noRegExp tmpSandbox [GenerateSshKey defaultKey; Confirm "T4"] calmEnv emptyWorld.

Definition keygenRecord : PendingConfirmation :=
  stage2Record tmpSandbox calmEnv
    (serve noRegExp tmpSandbox [GenerateSshKey defaultKey] calmEnv emptyWorld)
    {| token := "T4"; stage := Stage1; createdAtMs := 1003; expiresAtMs := 91003;
       command := "ssh-keygen";
       args := sshKeygenArgs ed25519 "/home/u/.ssh/id_ed25519" "smartos-mcp" "";
       cwd := "/home/u";
       reason := "Requested SSH key generation under ~/.ssh." ++ Js.nl
                 ++ "Type: ed25519" ++ Js.nl
                 ++ "Target: ~/.ssh/id_ed25519" ++ Js.nl
                 ++ "NOTE: empty passphrase." ++ Js.nl |}.

Lemma C10_confirm_runs_stored_payload_witness :
  Js.arrIncludes (allowedCommands (policy tmpSandbox)) "ssh-keygen" = false /\
  spawns (trace (snd (toolConfirm tmpSandbox "T9" calmEnv afterKeyRequest)))
  = [("ssh-keygen",
      ["-t"; "ed25519"; "-f"; "/home/u/.ssh/id_ed25519"; "-C"; "smartos-mcp"; "-N"; ""],
      "/home/u")].
Proof.
  split; [reflexivity|].
  refine (proj1 (C10_confirm_runs_stored_payload tmpSandbox "T9" calmEnv afterKeyRequest
                   keygenRecord _ _ _)).
  - vm_compute. reflexivity.
  - reflexivity.
  - vm_compute. reflexivity.
Defined.

End Sessions.

(** ** JSON: reading back what [stringify] writes *)

Section JsonFacts.

Import Json.

(** *** Induction on values, through the lists inside them *)

Section ValueInd.

Variable P : value -> Prop.
Hypothesis HNull : P Null.
Hypothesis HBool : forall b, P (Bool b).
Hypothesis HNum : forall n, P (Num n).
Hypothesis HStr : forall s, P (Str s).
Hypothesis HArr : forall items, Forall P items -> P (Arr items).
Hypothesis HObj : forall fields, Forall (fun kv => P (snd kv)) fields -> P (Obj fields).

Fixpoint value_rect_nested (v : value) : P v :=
  match v with
  | Null => HNull
  | Bool b => HBool b
  | Num n => HNum n
  | Str s => HStr s
  | Arr items =>
      HArr items
        ((fix go (l : list value) : Forall P l :=
            match l with
            | [] => List.Forall_nil P
            | x :: xs => @List.Forall_cons _ P x xs (value_rect_nested x) (go xs)
            end) items)
  | Obj fields =>
      HObj fields
        ((fix go (l : fields_t) : Forall (fun kv => P (snd kv)) l :=
            match l with
            | [] => List.Forall_nil _
            | kv :: kvs => @List.Forall_cons _ _ kv kvs (value_rect_nested (snd kv)) (go kvs)
            end) fields)
  end.

End ValueInd.

(** *** String literals *)

Lemma parseString_escapeChar (c : ascii) (rest : string) :
  parseString (escapeChar c ++ rest)
  = match parseString rest with
    | Some (str, r) => Some (String c str, r)
    | None => None
    end.
Proof.
  destruct c as [[] [] [] [] [] [] [] []]; reflexivity.
Qed.

Lemma parseString_escape (s rest : string) :
  parseString (escape s ++ Js.dq ++ rest) = Some (s, rest).
Proof.
  induction s as [|c s IH].
  - reflexivity.
  - change (escape (String c s)) with (escapeChar c ++ escape s).
    rewrite string_app_assoc, parseString_escapeChar, IH. reflexivity.
Qed.

(** *** Numbers *)

(** what may follow a value in a serialization: not a digit, and not the
    start of a fraction or exponent *)
Definition delimited (rest : string) : Prop :=
  match rest with
  | EmptyString => True
  | String c _ => isDigit c = false /\ startsFraction rest = false /\ isJsonWs c = false
  end.

Lemma string_app_cons (c : ascii) (s t : string) : String c s ++ t = String c (s ++ t).
Proof. reflexivity. Qed.

Lemma spanDigits_uint (d : Decimal.uint) (rest : string) :
  delimited rest ->
  spanDigits (NilEmpty.string_of_uint d ++ rest) = (NilEmpty.string_of_uint d, rest).
Proof.
  intros Hrest. induction d as [|d IH|d IH|d IH|d IH|d IH|d IH|d IH|d IH|d IH|d IH];
    cbn [NilEmpty.string_of_uint];
    try (rewrite string_app_cons; cbn [spanDigits]; rewrite IH; reflexivity).
  destruct rest as [|c rest]; [reflexivity|].
  destruct Hrest as (Hd & _). change ("" ++ String c rest) with (String c rest).
  cbn [spanDigits]. now rewrite Hd.
Qed.

Lemma to_uint_no_leading_zero (p : positive) (d : Decimal.uint) :
  Pos.to_uint p <> Decimal.D0 d.
Proof.
  intros H.
  assert (Hn : Decimal.unorm (Pos.to_uint p) = Pos.to_uint p).
  { rewrite <- DecimalPos.Unsigned.to_of, DecimalPos.Unsigned.of_to. reflexivity. }
  rewrite H in Hn. unfold Decimal.unorm in Hn. cbn [Decimal.nzhead] in Hn.
  destruct (Decimal.nzhead d) eqn:Hz;
    try (apply (DecimalFacts.nzhead_nonzero d d); congruence).
  injection Hn as <-. apply (DecimalPos.Unsigned.to_uint_nonzero p). exact H.
Qed.

Ltac decide_digits :=
  repeat match goal with
  | |- context [isDigit ?c] =>
      let b := eval vm_compute in (isDigit c) in change (isDigit c) with b
  end.

Lemma uint_of_string_digits (c : ascii) (t : string) (d : Decimal.uint) :
  NilEmpty.uint_of_string (String c t) = Some d ->
  NilZero.uint_of_string (String c t) = Some d.
Proof. intros H. exact H. Qed.

(** the digits of a non-zero natural number, read back *)
Lemma parseNumber_uint (sign : bool) (u : Decimal.uint) (rest : string) :
  u <> Decimal.Nil ->
  (forall d, u <> Decimal.D0 d) ->
  delimited rest ->
  parseNumber ((if sign then "-" else "") ++ NilEmpty.string_of_uint u ++ rest)
  = Some (Num (Z.of_int (if sign then Decimal.Neg u else Decimal.Pos u)), rest).
Proof.
  intros Hnil Hz Hrest.
  assert (Hfrac : startsFraction rest = false).
  { destruct rest; [reflexivity | apply Hrest]. }
  destruct u as [|d|d|d|d|d|d|d|d|d|d];
    [congruence | exfalso; apply (Hz d); reflexivity | ..];
    match goal with
    | |- context [NilEmpty.string_of_uint ?u0] =>
        pose proof (NilEmpty.usu u0) as Husu;
        pose proof (spanDigits_uint u0 rest Hrest) as Hspan
    end;
    cbn [NilEmpty.string_of_uint] in *;
    rewrite string_app_cons in Hspan;
    destruct sign;
    unfold parseNumber;
    rewrite ?string_app_cons;
    change ("" ++ ?x) with x;
    cbv beta iota; rewrite Hspan; cbv beta iota;
    cbn [String.eqb leadingZero orb]; rewrite Hfrac;
    unfold NilZero.int_of_string;
    rewrite ?string_app_cons; change ("" ++ ?x) with x;
    cbn [Ascii.eqb Bool.eqb]; cbv beta iota;
    rewrite (uint_of_string_digits _ _ _ Husu); reflexivity.
Qed.

Lemma parseNumber_numToString (n : Z) (rest : string) :
  delimited rest ->
  parseNumber (Js.numToString n ++ rest) = Some (Num n, rest).
Proof.
  intros Hrest. pose proof (DecimalZ.of_to n) as Hval.
  unfold Js.numToString. destruct n as [|p|p]; cbn [Z.to_int NilZero.string_of_int] in *.
  - assert (Hfrac : startsFraction rest = false).
    { destruct rest; [reflexivity | apply Hrest]. }
    change (NilZero.string_of_uint Decimal.zero ++ rest) with (String "0" rest).
    unfold parseNumber. cbn [spanDigits]. decide_digits. cbv beta iota.
    destruct rest as [|c rest].
    + reflexivity.
    + destruct Hrest as (Hd & _ & _). cbn [spanDigits]. rewrite Hd. cbv beta iota.
      cbn [String.eqb leadingZero orb]. rewrite Hfrac. reflexivity.
  - pose proof (parseNumber_uint false (Pos.to_uint p) rest
                  (DecimalPos.Unsigned.to_uint_nonnil p) (to_uint_no_leading_zero p) Hrest)
      as H.
    cbv beta iota in H. change ("" ++ ?x) with x in H. rewrite Hval in H.
    destruct (Pos.to_uint p); try exact H.
    exfalso. now apply (DecimalPos.Unsigned.to_uint_nonnil p).
  - pose proof (parseNumber_uint true (Pos.to_uint p) rest
                  (DecimalPos.Unsigned.to_uint_nonnil p) (to_uint_no_leading_zero p) Hrest)
      as H.
    cbv beta iota in H. rewrite Hval in H.
    destruct (Pos.to_uint p) eqn:Hu; try exact H.
    exfalso. now apply (DecimalPos.Unsigned.to_uint_nonnil p).
Qed.

(** *** Values *)

Lemma skipWs_start (c : ascii) (s : string) :
  isJsonWs c = false -> skipWs (String c s) = String c s.
Proof. intros H. cbn [skipWs]. now rewrite H. Qed.

Lemma peekIs_hit (ch : ascii) (s : string) :
  isJsonWs ch = false -> peekIs ch (String ch s) = Some s.
Proof.
  intros H. unfold peekIs. rewrite skipWs_start by assumption.
  now rewrite Ascii.eqb_refl.
Qed.

Lemma peekIs_miss (c ch : ascii) (s : string) :
  isJsonWs c = false -> Ascii.eqb c ch = false -> peekIs ch (String c s) = None.
Proof.
  intros H Hne. unfold peekIs. rewrite skipWs_start by assumption. now rewrite Hne.
Qed.

Lemma valueStart_facts (c : ascii) :
  isValueStart c = true ->
  isJsonWs c = false /\ Ascii.eqb c "]" = false /\ Ascii.eqb c "}" = false.
Proof.
  destruct c as [[] [] [] [] [] [] [] []]; intros H; try discriminate H;
    repeat split; reflexivity.
Qed.

Lemma numToString_head (n : Z) :
  exists c t, Js.numToString n = String c t /\ (isDigit c = true \/ c = "-"%char).
Proof.
  unfold Js.numToString.
  destruct n as [|p|p]; cbn [Z.to_int NilZero.string_of_int].
  - exists "0"%char, "". split; [reflexivity | now left].
  - destruct (Pos.to_uint p); cbn; eexists _, _; (split; [reflexivity | now left]).
  - eexists _, _. split; [reflexivity | now right].
Qed.

Lemma parseValue_number (fuel : nat) (c : ascii) (t : string) :
  isDigit c = true \/ c = "-"%char ->
  parseValue (S fuel) (String c t) = parseNumber (String c t).
Proof.
  intros [H| ->]; [|reflexivity].
  destruct c as [[] [] [] [] [] [] [] []]; try discriminate H; reflexivity.
Qed.

Lemma stringify_head (v : value) :
  exists c t, stringify v = String c t /\ isValueStart c = true.
Proof.
  destruct v as [|[]|n|s|items|fields]; try (eexists _, _; split; reflexivity).
  destruct (numToString_head n) as (c & t & Hn & Hc).
  exists c, t. split; [exact Hn|].
  destruct Hc as [Hc| ->]; [|reflexivity].
  unfold isValueStart. now rewrite Hc.
Qed.

Lemma delimited_comma (s : string) : delimited (String "," s).
Proof. repeat split. Qed.

Lemma delimited_bracket (s : string) : delimited (String "]" s).
Proof. repeat split. Qed.

Lemma delimited_brace (s : string) : delimited (String "}" s).
Proof. repeat split. Qed.

Lemma commaSep_cons (x y : string) (l : list string) :
  commaSep (x :: y :: l) = x ++ String "," (commaSep (y :: l)).
Proof. reflexivity. Qed.

(** reading back the elements of a non-empty array, given that each of
    them reads back *)
Lemma parseItems_stringify (items : list value) :
  Forall (fun v => forall fuel rest,
            (fuelNeeded v <= fuel)%nat -> delimited rest ->
            parseValue fuel (stringify v ++ rest) = Some (v, rest)) items ->
  items <> [] ->
  forall fuel rest,
    (itemsFuel items <= fuel)%nat ->
    parseItems fuel (commaSep (List.map stringify items) ++ String "]" rest)
    = Some (items, rest).
Proof.
  induction 1 as [|x xs Hx _ IH]; [congruence|]. intros _ fuel rest Hfuel.
  destruct fuel as [|fuel]; [cbn in Hfuel; lia|].
  cbn [itemsFuel] in Hfuel.
  destruct xs as [|y ys].
  - cbn [List.map]. change (commaSep [stringify x]) with (stringify x).
    cbn [parseItems].
    rewrite Hx by (try apply delimited_bracket; lia).
    rewrite peekIs_miss, peekIs_hit by reflexivity. reflexivity.
  - cbn [List.map]. rewrite commaSep_cons, string_app_assoc, string_app_cons.
    cbn [parseItems].
    rewrite Hx by (try apply delimited_comma; lia).
    rewrite peekIs_hit by reflexivity.
    change (commaSep (stringify y :: List.map stringify ys))
      with (commaSep (List.map stringify (y :: ys))).
    rewrite IH by (try congruence; lia). reflexivity.
Qed.

Lemma dq_app (s : string) : Js.dq ++ s = String "034" s.
Proof. reflexivity. Qed.

Definition renderField (kv : string * value) : string :=
  quote (fst kv) ++ ":" ++ stringify (snd kv).

Lemma renderField_app (k : string) (v : value) (rest : string) :
  renderField (k, v) ++ rest
  = String "034" (escape k ++ Js.dq ++ String ":" (stringify v ++ rest)).
Proof.
  unfold renderField, quote. cbn [fst snd].
  rewrite !string_app_assoc, dq_app. reflexivity.
Qed.

Lemma parseMembers_stringify (fields : fields_t) :
  Forall (fun kv => forall fuel rest,
            (fuelNeeded (snd kv) <= fuel)%nat -> delimited rest ->
            parseValue fuel (stringify (snd kv) ++ rest) = Some (snd kv, rest)) fields ->
  fields <> [] ->
  forall fuel rest,
    (fieldsFuel fields <= fuel)%nat ->
    parseMembers fuel (commaSep (List.map renderField fields) ++ String "}" rest)
    = Some (fields, rest).
Proof.
  induction 1 as [|[k v] kvs Hv _ IH]; [congruence|]. intros _ fuel rest Hfuel.
  destruct fuel as [|fuel]; [cbn in Hfuel; lia|].
  cbn [itemsFuel fieldsFuel snd] in Hfuel, Hv.
  destruct kvs as [|kv' kvs'].
  - cbn [List.map]. change (commaSep [renderField (k, v)]) with (renderField (k, v)).
    rewrite renderField_app. cbn [parseMembers].
    rewrite peekIs_hit, parseString_escape, peekIs_hit by reflexivity.
    rewrite Hv by (try apply delimited_brace; lia).
    rewrite peekIs_miss, peekIs_hit by reflexivity. reflexivity.
  - cbn [List.map]. rewrite commaSep_cons, string_app_assoc, string_app_cons.
    rewrite renderField_app. cbn [parseMembers].
    rewrite peekIs_hit, parseString_escape, peekIs_hit by reflexivity.
    rewrite Hv by (try apply delimited_comma; lia).
    rewrite peekIs_hit by reflexivity.
    change (commaSep (renderField kv' :: List.map renderField kvs'))
      with (commaSep (List.map renderField (kv' :: kvs'))).
    rewrite IH by (try congruence; lia). reflexivity.
Qed.

(** *** Objects keep their fields when the keys are distinct *)

Lemma setField_fresh (k : string) (v : value) (acc : fields_t) :
  k ∉ List.map fst acc -> setField k v acc = (acc ++ [(k, v)])%list.
Proof.
  induction acc as [|[k' v'] acc IH]; intros Hk; [reflexivity|].
  cbn [setField]. cbn [List.map fst] in Hk.
  apply not_elem_of_cons in Hk as [Hne Hk].
  destruct (String.eqb_spec k' k) as [->|_]; [congruence|].
  cbn [app]. now rewrite IH.
Qed.

Lemma buildObject_acc (fields acc : fields_t) :
  NoDup (List.map fst (acc ++ fields)%list) ->
  fold_left (fun a kv => setField (fst kv) (snd kv) a) fields acc = (acc ++ fields)%list.
Proof.
  revert acc. induction fields as [|[k v] fields IH]; intros acc Hnd.
  - now rewrite app_nil_r.
  - cbn [fold_left fst snd].
    rewrite setField_fresh.
    + rewrite IH; rewrite <- List.app_assoc; [reflexivity | exact Hnd].
    + rewrite List.map_app in Hnd. apply NoDup_app in Hnd as (_ & Hdisj & _).
      intros Hin. apply (Hdisj k Hin). cbn. left.
Qed.

Lemma buildObject_distinct (fields : fields_t) :
  NoDup (List.map fst fields) -> buildObject fields = fields.
Proof. intros H. unfold buildObject. now rewrite buildObject_acc. Qed.

Lemma fuelNeeded_arr (items : list value) : fuelNeeded (Arr items) = S (itemsFuel items).
Proof. reflexivity. Qed.

Lemma fuelNeeded_obj (fields : fields_t) : fuelNeeded (Obj fields) = S (fieldsFuel fields).
Proof. reflexivity. Qed.

Lemma stringify_obj (fields : fields_t) :
  stringify (Obj fields) = String "{" (commaSep (List.map renderField fields) ++ "}").
Proof. reflexivity. Qed.

Lemma stringify_arr (items : list value) :
  stringify (Arr items) = String "[" (commaSep (List.map stringify items) ++ "]").
Proof. reflexivity. Qed.

(** what [stringify] writes, [parseValue] reads back, whatever follows *)
Lemma parseValue_stringify (v : value) :
  wf v ->
  forall fuel rest,
    (fuelNeeded v <= fuel)%nat -> delimited rest ->
    parseValue fuel (stringify v ++ rest) = Some (v, rest).
Proof.
  induction v as [|b|n|s|items IH|fields IH] using value_rect_nested;
    intros Hwf fuel rest Hfuel Hrest.
  - destruct fuel; [cbn in Hfuel; lia | vm_compute; reflexivity].
  - destruct fuel; [cbn in Hfuel; lia | destruct b; vm_compute; reflexivity].
  - destruct fuel; [cbn in Hfuel; lia|]. cbn [stringify].
    destruct (numToString_head n) as (c & t & Hn & Hc).
    pose proof (parseNumber_numToString n rest Hrest) as Hnum.
    rewrite Hn in *. rewrite string_app_cons in *.
    now rewrite parseValue_number.
  - destruct fuel; [cbn in Hfuel; lia|]. cbn [stringify]. unfold quote.
    rewrite !string_app_assoc, dq_app.
    cbn [parseValue skipWs isJsonWs Ascii.eqb Bool.eqb]. cbv beta iota.
    now rewrite parseString_escape.
  - rewrite fuelNeeded_arr in Hfuel. destruct fuel; [lia|].
    rewrite stringify_arr, string_app_cons, string_app_assoc.
    change ("]" ++ rest) with (String "]" rest).
    cbn [parseValue skipWs isJsonWs Ascii.eqb Bool.eqb]. cbv beta iota.
    destruct items as [|x xs].
    + change (commaSep (List.map stringify []) ++ String "]" rest) with (String "]" rest).
      now rewrite peekIs_hit.
    + inversion Hwf as [| | | |items' Hitems|]; subst.
      assert (Hhead : peekIs "]" (commaSep (List.map stringify (x :: xs)) ++ String "]" rest)
                      = None).
      { destruct (stringify_head x) as (c & t & Hx & Hc).
        destruct (valueStart_facts c Hc) as (Hws & Hb & _).
        destruct xs as [|y ys]; cbn [List.map];
          [change (commaSep [stringify x]) with (stringify x)
          | rewrite commaSep_cons, string_app_assoc];
          rewrite Hx, string_app_cons; now apply peekIs_miss. }
      rewrite Hhead, parseItems_stringify; [reflexivity | | congruence | lia].
      apply Forall_forall. intros v Hv fuel' rest' Hf Hr.
      rewrite Forall_forall in IH, Hitems. apply IH; auto.
  - rewrite fuelNeeded_obj in Hfuel. destruct fuel; [lia|].
    rewrite stringify_obj, string_app_cons, string_app_assoc.
    change ("}" ++ rest) with (String "}" rest).
    cbn [parseValue skipWs isJsonWs Ascii.eqb Bool.eqb]. cbv beta iota.
    destruct fields as [|[k v] kvs].
    + change (commaSep (List.map renderField []) ++ String "}" rest) with (String "}" rest).
      now rewrite peekIs_hit.
    + inversion Hwf as [| | | | |fields' Hkeys Hfields]; subst.
      assert (Hhead : peekIs "}" (commaSep (List.map renderField ((k, v) :: kvs))
                                  ++ String "}" rest) = None).
      { destruct kvs as [|kv' kvs']; cbn [List.map];
          [change (commaSep [renderField (k, v)]) with (renderField (k, v))
          | rewrite commaSep_cons, string_app_assoc];
          rewrite renderField_app; now apply peekIs_miss. }
      rewrite Hhead, parseMembers_stringify; [| | congruence | lia].
      * now rewrite buildObject_distinct.
      * apply Forall_forall. intros kv Hkv fuel' rest' Hf Hr.
        rewrite Forall_forall in IH, Hfields. apply IH; auto.
Qed.

(** *** The fuel that [parse] gives itself is enough *)

Lemma stringify_nonempty (v : value) : (1 <= String.length (stringify v))%nat.
Proof.
  destruct (stringify_head v) as (c & t & -> & _). cbn [String.length]. lia.
Qed.

Lemma itemsFuel_length (items : list value) :
  Forall (fun v => (fuelNeeded v <= String.length (stringify v))%nat) items ->
  (itemsFuel items <= String.length (commaSep (List.map stringify items)) + 1)%nat.
Proof.
  induction 1 as [|x xs Hx _ IH]; [cbn; lia|].
  cbn [itemsFuel List.map]. destruct xs as [|y ys].
  - cbn [List.map]. change (commaSep [stringify x]) with (stringify x).
    cbn [itemsFuel]. lia.
  - cbn [List.map] in *. rewrite commaSep_cons, string_length_app.
    cbn [String.length]. lia.
Qed.

Lemma renderField_length (k : string) (v : value) :
  (String.length (stringify v) <= String.length (renderField (k, v)))%nat.
Proof.
  unfold renderField. cbn [fst snd]. rewrite !string_length_app. lia.
Qed.

Lemma fieldsFuel_length (fields : fields_t) :
  Forall (fun kv => (fuelNeeded (snd kv) <= String.length (stringify (snd kv)))%nat) fields ->
  (fieldsFuel fields <= String.length (commaSep (List.map renderField fields)) + 1)%nat.
Proof.
  induction 1 as [|[k v] kvs Hv _ IH]; [cbn; lia|].
  cbn [fieldsFuel List.map snd] in *. pose proof (renderField_length k v).
  destruct kvs as [|kv' kvs'].
  - cbn [List.map]. change (commaSep [renderField (k, v)]) with (renderField (k, v)).
    cbn [fieldsFuel]. lia.
  - cbn [List.map] in *. rewrite commaSep_cons, string_length_app.
    cbn [String.length]. lia.
Qed.

Lemma fuelNeeded_length (v : value) :
  (fuelNeeded v <= String.length (stringify v))%nat.
Proof.
  induction v as [|b|n|s|items IH|fields IH] using value_rect_nested;
    try apply stringify_nonempty.
  - rewrite fuelNeeded_arr, stringify_arr. cbn [String.length].
    rewrite string_length_app. cbn [String.length].
    pose proof (itemsFuel_length items IH). lia.
  - rewrite fuelNeeded_obj, stringify_obj. cbn [String.length].
    rewrite string_length_app. cbn [String.length].
    pose proof (fieldsFuel_length fields IH). lia.
Qed.

(** [JSON.parse(JSON.stringify(v))] gives [v] back *)
Lemma parse_stringify (v : value) : wf v -> parse (stringify v) = Some v.
Proof.
  intros Hwf. unfold parse.
  rewrite <- (string_app_empty_r (stringify v)) at 2.
  rewrite (parseValue_stringify v Hwf); [reflexivity | | exact I].
  pose proof (fuelNeeded_length v). lia.
Qed.

End JsonFacts.

(** ** Action parser: the round trip (C9) *)

Section ParserFacts.

Import Json Chatbot.

(** *** The brace scanner over a serialization *)

Lemma scan_escapeChar (c : ascii) (s : string) (d : Z) (n : nat) :
  scanObject (escapeChar c ++ s) d true false n
  = scanObject s d true false (String.length (escapeChar c) + n).
Proof.
  destruct c as [[] [] [] [] [] [] [] []]; reflexivity.
Qed.

Lemma scan_escape (k s : string) (d : Z) (n : nat) :
  scanObject (escape k ++ s) d true false n
  = scanObject s d true false (String.length (escape k) + n).
Proof.
  revert n. induction k as [|c k IH]; intros n; [reflexivity|].
  change (escape (String c k)) with (escapeChar c ++ escape k).
  rewrite string_app_assoc, scan_escapeChar, IH, string_length_app.
  f_equal. lia.
Qed.

Lemma scan_quote (k s : string) (d : Z) (n : nat) :
  scanObject (quote k ++ s) d false false n
  = scanObject s d false false (String.length (quote k) + n).
Proof.
  unfold quote. rewrite !string_app_assoc, dq_app.
  cbn [scanObject Ascii.eqb Bool.eqb]. cbv beta iota.
  rewrite scan_escape, dq_app.
  cbn [scanObject Ascii.eqb Bool.eqb]. cbv beta iota.
  rewrite !string_length_app. change (String.length Js.dq) with 1%nat.
  f_equal. lia.
Qed.

(** characters that mean nothing to the scanner outside a string *)
Definition plainChar (c : ascii) : bool :=
  negb (Ascii.eqb c "034" || Ascii.eqb c "{" || Ascii.eqb c "}").

Fixpoint allPlain (s : string) : bool :=
  match s with
  | EmptyString => true
  | String c s' => plainChar c && allPlain s'
  end.

Lemma scan_plain (t s : string) (d : Z) (n : nat) :
  allPlain t = true -> d <> 0 ->
  scanObject (t ++ s) d false false n = scanObject s d false false (String.length t + n).
Proof.
  intros Ht Hd. revert n. induction t as [|c t IH]; intros n; [reflexivity|].
  cbn [allPlain] in Ht. apply andb_true_iff in Ht as [Hc Ht].
  unfold plainChar in Hc. apply negb_true_iff in Hc.
  apply orb_false_iff in Hc as [Hc Hclose]. apply orb_false_iff in Hc as [Hq Hopen].
  rewrite string_app_cons. cbn [scanObject]. rewrite Hq, Hopen, Hclose.
  destruct (Z.eqb_spec d 0) as [|_]; [contradiction|].
  rewrite IH by assumption. cbn [String.length]. f_equal. lia.
Qed.

Lemma allPlain_uint (u : Decimal.uint) : allPlain (NilEmpty.string_of_uint u) = true.
Proof. induction u; cbn [NilEmpty.string_of_uint allPlain]; try rewrite IHu; reflexivity. Qed.

Lemma allPlain_numToString (n : Z) : allPlain (Js.numToString n) = true.
Proof.
  unfold Js.numToString.
  destruct n as [|p|p]; cbn [Z.to_int NilZero.string_of_int]; [reflexivity | |];
    unfold NilZero.string_of_uint; destruct (Pos.to_uint p) eqn:Hu; try reflexivity;
    rewrite <- ?Hu; cbn [allPlain]; rewrite ?allPlain_uint; reflexivity.
Qed.

(** the scanner, below the top level and outside a string, passes over a
    whole serialized value *)
Definition passes (t : string) : Prop :=
  forall (d : Z) (s : string) (n : nat),
    0 < d ->
    scanObject (t ++ s) d false false n = scanObject s d false false (String.length t + n).

Lemma passes_plain (t : string) : allPlain t = true -> passes t.
Proof. intros Ht d s n Hd. apply scan_plain; [assumption | lia]. Qed.

Lemma passes_app (t u : string) : passes t -> passes u -> passes (t ++ u).
Proof.
  intros Ht Hu d s n Hd.
  rewrite string_app_assoc, Ht, Hu, string_length_app by assumption. f_equal. lia.
Qed.

Lemma passes_quote (k : string) : passes (quote k).
Proof. intros d s n _. apply scan_quote. Qed.

Lemma passes_commaSep (parts : list string) :
  Forall passes parts -> passes (commaSep parts).
Proof.
  induction 1 as [|x xs Hx Hxs IH]; [now apply passes_plain|].
  destruct xs as [|y ys]; [exact Hx|].
  rewrite commaSep_cons. apply passes_app; [exact Hx|].
  change (String "," (commaSep (y :: ys))) with ("," ++ commaSep (y :: ys)).
  apply passes_app; [now apply passes_plain | exact IH].
Qed.

(** a nested object: one level down at its opening brace, back at its
    closing brace *)
Lemma passes_braces (body : string) : passes body -> passes (String "{" (body ++ "}")).
Proof.
  intros Hbody d s n Hd.
  rewrite string_app_cons, string_app_assoc.
  cbn [scanObject Ascii.eqb Bool.eqb]. cbv beta iota.
  destruct (Z.eqb_spec (d + 1) 0) as [|_]; [lia|].
  rewrite Hbody by lia.
  change ("}" ++ s) with (String "}" s).
  cbn [scanObject Ascii.eqb Bool.eqb]. cbv beta iota.
  replace (d + 1 - 1) with d by lia.
  destruct (Z.eqb_spec d 0) as [|_]; [lia|].
  cbn [String.length]. rewrite string_length_app. cbn [String.length]. f_equal. lia.
Qed.

Lemma passes_renderField (k : string) (v : value) :
  passes (stringify v) -> passes (renderField (k, v)).
Proof.
  intros Hv. unfold renderField. cbn [fst snd].
  apply passes_app; [apply passes_quote|].
  apply passes_app; [now apply passes_plain | exact Hv].
Qed.

Lemma passes_fields (fields : fields_t) :
  Forall (fun kv => passes (stringify (snd kv))) fields ->
  passes (commaSep (List.map renderField fields)).
Proof.
  intros H. apply passes_commaSep. apply Forall_map.
  eapply Forall_impl; [exact H|]. intros [k v] Hv. now apply passes_renderField.
Qed.

Lemma passes_stringify (v : value) : passes (stringify v).
Proof.
  induction v as [|b|n|s|items IH|fields IH] using value_rect_nested.
  - now apply passes_plain.
  - destruct b; now apply passes_plain.
  - apply passes_plain, allPlain_numToString.
  - apply passes_quote.
  - rewrite stringify_arr. change (String "[" ?x) with ("[" ++ x).
    apply passes_app; [now apply passes_plain|].
    apply passes_app; [|now apply passes_plain].
    apply passes_commaSep. now apply Forall_map.
  - rewrite stringify_obj. apply passes_braces. now apply passes_fields.
Qed.

Lemma take_all (s : string) : Js.take (String.length s) s = s.
Proof. induction s as [|c s IH]; [reflexivity|]. cbn [String.length Js.take]. now rewrite IH. Qed.

(** on the serialization of an object, the extraction returns the whole
    text *)
Lemma extract_stringify_object (fields : fields_t) :
  extractFirstJsonObjectString (stringify (Obj fields)) = Some (stringify (Obj fields)).
Proof.
  unfold extractFirstJsonObjectString. rewrite stringify_obj.
  cbn [indexOfBrace Ascii.eqb Bool.eqb]. cbv beta iota. cbn [Js.drop].
  cbn [scanObject Ascii.eqb Bool.eqb]. cbv beta iota.
  change (0 + 1 =? 0) with false. cbv beta iota.
  rewrite (passes_fields fields) by
    (apply Forall_forall; intros kv _; apply passes_stringify) || lia.
  cbn [scanObject Ascii.eqb Bool.eqb]. cbv beta iota.
  change (0 + 1 - 1 =? 0) with true. cbv beta iota.
  f_equal.
  replace (S (String.length (commaSep (List.map renderField fields)) + 1))
    with (String.length (String "{" (commaSep (List.map renderField fields) ++ "}"))).
  - apply take_all.
  - cbn [String.length]. rewrite string_length_app. cbn [String.length]. lia.
Qed.

(** *** Trimming and fences leave a serialized object alone *)

Lemma lastChar_snoc (s : string) (c : ascii) : lastChar (s ++ String c "") = Some c.
Proof.
  induction s as [|a s IH]; [reflexivity|].
  rewrite string_app_cons. cbn [lastChar]. rewrite IH.
  destruct (s ++ String c "") eqn:E; [destruct s; discriminate E | reflexivity].
Qed.

Lemma trimEnd_snoc (s : string) (c : ascii) :
  Js.isWhite c = false -> Js.trimEnd (s ++ String c "") = s ++ String c "".
Proof.
  intros Hc. induction s as [|a s IH].
  - change ("" ++ String c "") with (String c ""). cbn [Js.trimEnd]. now rewrite Hc.
  - rewrite string_app_cons. cbn [Js.trimEnd]. rewrite IH.
    destruct (s ++ String c "") eqn:E; [destruct s; discriminate E | reflexivity].
Qed.

Lemma endsWith_lastChar (s suffix : string) :
  endsWith s suffix = true -> suffix <> "" -> lastChar s = lastChar suffix.
Proof.
  intros H Hne. induction s as [|a s IH].
  - cbn [endsWith] in H. rewrite orb_false_r in H.
    apply String.eqb_eq in H. congruence.
  - cbn [endsWith] in H. apply orb_true_iff in H as [H|H].
    + apply String.eqb_eq in H. now subst.
    + specialize (IH H). rewrite <- IH. destruct s as [|b s]; [|reflexivity].
      cbn [endsWith] in H. rewrite orb_false_r in H.
      apply String.eqb_eq in H. congruence.
Qed.

Lemma unfence_object (body : string) :
  let s := String "{" (body ++ "}") in
  Js.trim (stripTrailingFence (stripLeadingFence (Js.trim s))) = s.
Proof.
  cbv zeta.
  assert (Htrim : Js.trim (String "{" (body ++ "}")) = String "{" (body ++ "}")).
  { unfold Js.trim. cbn [Js.trimStart Js.isWhite]. cbv beta iota.
    rewrite <- string_app_cons. now apply trimEnd_snoc. }
  rewrite Htrim.
  assert (Hlead : stripLeadingFence (String "{" (body ++ "}")) = String "{" (body ++ "}")).
  { reflexivity. }
  rewrite Hlead.
  assert (Htrail : stripTrailingFence (String "{" (body ++ "}")) = String "{" (body ++ "}")).
  { unfold stripTrailingFence.
    destruct (endsWith (String "{" (body ++ "}")) fence) eqn:E; [|reflexivity].
    apply endsWith_lastChar in E; [|discriminate].
    rewrite <- string_app_cons, lastChar_snoc in E. discriminate E. }
  now rewrite Htrail.
Qed.

Lemma safeJsonParse_stringify_object (fields : fields_t) :
  wf (Obj fields) -> safeJsonParse (stringify (Obj fields)) = Ok (Obj fields).
Proof.
  intros Hwf. unfold safeJsonParse. cbv zeta.
  rewrite stringify_obj, unfence_object, <- stringify_obj.
  rewrite extract_stringify_object. cbn [default from_option id].
  now rewrite parse_stringify.
Qed.

Ltac distinct_keys :=
  repeat (apply NoDup_cons_2;
          [ rewrite ?elem_of_cons, ?elem_of_nil;
            let H := fresh in intros H; decompose [or] H; (discriminate || contradiction)
          | ]);
  apply NoDup_nil_2.

Lemma wf_actionJson (a : ActionValue) : wfAction a -> wf (actionJson a).
Proof.
  destruct a as [t|srv tl [args|]]; intros Hwf; cbn [actionJson];
    (constructor; cbn [List.map fst];
     [ distinct_keys
     | repeat (apply List.Forall_cons; [cbn [snd]; first [exact Hwf | constructor]|]);
       apply List.Forall_nil ]).
Qed.



End ParserFacts.

(** ** Agent loop: no repeated dispatch within a turn (C8) *)

Section LoopFacts.

Import Json Chatbot.

Variable servers : list string.
Variable cfg : ChatbotConfig.
Variable parseSshWizardInput : string -> fields_t.

Ltac run_c :=
  unfold mbind, mret, C_bind, C_ret, historyPush, setAwaiting, getAwaiting, record;
  cbn [fst snd history awaitingSshWizardInput ctrace].

Lemma dispatches_app (t1 t2 : list ChatEvent) :
  dispatches (t1 ++ t2) = (dispatches t1 ++ dispatches t2)%list.
Proof. unfold dispatches. apply omap_app. Qed.

(** what the part of an iteration after the model's action does: no tool
    call at all, or one call whose key was not in the set and now is *)
Lemma dispatchStep_spec (step : Z) (seen : gset string) (srv tl : string) (args : fields_t)
    (env : ChatEnv) (w : ChatWorld) :
  let r := fst (dispatchStep servers cfg step seen srv tl args env w) in
  let w' := snd (dispatchStep servers cfg step seen srv tl args env w) in
  (ctrace w' = ctrace w /\ forall seen', r = Continue seen' -> seen ⊆ seen') \/
  ((callKey srv tl args ∉ seen) /\
   (exists reply, ctrace w' = (ctrace w ++ [EvCallTool srv tl args reply])%list) /\
   forall seen', r = Continue seen' -> seen' = seen ∪ {[callKey srv tl args]}).
Proof.
  cbv zeta. unfold dispatchStep.
  destruct ((srv =? "terminal-server")%string && (tl =? "confirm")%string).
  { left. split; [reflexivity | intros seen' [=]]. }
  destruct ((srv =? "terminal-server")%string && (tl =? "generate_ssh_key")%string
            && negb (hasAnyOption args)).
  { left. split; [reflexivity | intros seen' [=]]. }
  destruct (bool_decide (callKey srv tl args ∈ seen)) eqn:Hseen.
  { left. split; [reflexivity | intros seen' [= <-]; reflexivity]. }
  apply bool_decide_eq_false in Hseen.
  run_c.
  destruct (maxSteps cfg - 2 <=? step); cbn [fst snd ctrace history awaitingSshWizardInput];
    (destruct (findServer servers srv); cbn [negb fst snd ctrace];
     [ right; split; [exact Hseen|];
       match goal with |- context [EvCallTool srv tl args ?reply] => destruct reply as [a|e m] end;
       cbn [fst snd ctrace];
       [ repeat (case_match; cbn [fst snd ctrace]) | ];
       (split; [eexists; reflexivity|]);
       first [ intros seen' [= <-]; reflexivity | intros seen' [=] ]
     | left; split; [reflexivity | intros seen' [= <-]; set_solver] ]).
Qed.

(** asking the model adds model events only *)
Lemma callModel_spec (nudge : option string) (env : ChatEnv) (w : ChatWorld) :
  exists reply,
    snd (callModel nudge env w)
    = {| history := history w; awaitingSshWizardInput := awaitingSshWizardInput w;
         ctrace := (ctrace w ++ [EvModel nudge reply])%list |}.
Proof. unfold callModel. run_c. eauto. Qed.

(** one iteration: some model events, then what [dispatchStep] allows *)
Lemma iteration_spec (step : Z) (seen : gset string) (env : ChatEnv) (w : ChatWorld)
    (r : Step) (w' : ChatWorld) :
  iteration servers cfg step seen env w = (r, w') ->
  exists pre,
    dispatches pre = [] /\
    ((ctrace w' = (ctrace w ++ pre)%list /\ forall seen', r = Continue seen' -> seen ⊆ seen') \/
     exists srv tl args reply,
       (callKey srv tl args ∉ seen) /\
       ctrace w' = (ctrace w ++ pre ++ [EvCallTool srv tl args reply])%list /\
       forall seen', r = Continue seen' -> seen' = seen ∪ {[callKey srv tl args]}).
Proof.
  intros Hit. unfold iteration in Hit.
  unfold mbind at 1 in Hit. unfold C_bind at 1 in Hit.
  destruct (callModel None env w) as [first w1] eqn:E1.
  destruct (callModel_spec None env w) as (reply1 & Hw1). rewrite E1 in Hw1. cbn [snd] in Hw1.
  unfold mbind at 1 in Hit. unfold C_bind at 1 in Hit.
  assert (Hsecond : exists (modelResp : Result (string * Action)) (w2 : ChatWorld)
                           (more : list ChatEvent),
    match first with
    | Ok _ => mret first
    | Err _ _ => callModel (Some repairNudge)
    end env w1 = (modelResp, w2) /\
    ctrace w2 = (ctrace w ++ EvModel None reply1 :: more)%list /\ dispatches more = []).
  { destruct first as [ok|e m].
    - exists (Ok ok), w1, []. subst w1. repeat split.
    - destruct (callModel (Some repairNudge) env w1) as [second w2] eqn:E2.
      destruct (callModel_spec (Some repairNudge) env w1) as (reply2 & Hw2).
      rewrite E2 in Hw2. cbn [snd] in Hw2.
      exists second, w2, [EvModel (Some repairNudge) reply2]. subst w2 w1.
      cbn [history ctrace]. rewrite <- List.app_assoc. repeat split. }
  destruct Hsecond as (modelResp & w2 & more & Hresp & Htrace & Hmore).
  rewrite Hresp in Hit.
  exists (EvModel None reply1 :: more). split; [exact Hmore|].
  destruct modelResp as [[raw action]|e m].
  2:{ left. injection Hit as <- <-. split; [exact Htrace | intros seen' [=]]. }
  destruct action as [srv tl args|t].
  2:{ left. injection Hit as <- <-. split; [exact Htrace | intros seen' [=]]. }
  revert Hit. run_c. intros Hit.
  match type of Hit with dispatchStep servers cfg step seen srv tl args env ?w3 = _ =>
    pose proof (dispatchStep_spec step seen srv tl args env w3) as Hd
  end.
  cbv zeta in Hd. rewrite Hit in Hd. cbn [fst snd ctrace] in Hd.
  destruct Hd as [[Ht Hs]|(Hk & (reply & Ht) & Hs)].
  - left. split; [congruence | exact Hs].
  - right. exists srv, tl, args, reply. repeat split; try assumption.
    rewrite Ht, Htrace, <- List.app_assoc. reflexivity.
Qed.

(** the loop keeps the calls of the turn distinct: every call made so far
    has its key in the set, and a call is made only when its key is not *)
Lemma reasoningLoop_distinct (remaining : nat) :
  forall (step : Z) (seen : gset string) (env : ChatEnv) (w : ChatWorld)
         (made : list (string * string * fields_t)),
    NoDup made ->
    (forall srv tl args, (srv, tl, args) ∈ made -> callKey srv tl args ∈ seen) ->
    exists evs,
      ctrace (snd (reasoningLoop servers cfg remaining step seen env w))
      = (ctrace w ++ evs)%list /\
      NoDup (made ++ dispatches evs).
Proof.
  induction remaining as [|remaining IH]; intros step seen env w made Hnd Hseen.
  - exists []. cbn. rewrite !app_nil_r. now split.
  - cbn [reasoningLoop]. unfold mbind at 1. unfold C_bind at 1.
    destruct (iteration servers cfg step seen env w) as [r w1] eqn:Eit.
    pose proof (iteration_spec step seen env w r w1 Eit) as Hspec.
    destruct Hspec as (pre & Hpre & [[Ht Hs]|(srv & tl & args & reply & Hk & Ht & Hs)]).
    + destruct r as [answer|seen'].
      * exists pre. cbn [snd]. split; [exact Ht|]. now rewrite Hpre, app_nil_r.
      * destruct (IH (step + 1) seen' env w1 made Hnd) as (evs & Hevs & Hnd').
        { intros s0 t0 a0 Hin. apply (Hs seen' eq_refl). now apply Hseen. }
        exists (pre ++ evs)%list. rewrite Hevs, Ht, <- List.app_assoc. split; [reflexivity|].
        now rewrite dispatches_app, Hpre.
    + assert (Hnew : (srv, tl, args) ∉ made).
      { intros Hin. apply Hk. now apply Hseen. }
      assert (Hnd1 : NoDup (made ++ [(srv, tl, args)])).
      { apply NoDup_app. repeat split; [assumption | | apply NoDup_singleton].
        intros x Hx Hx'. apply list_elem_of_singleton in Hx'. now subst. }
      destruct r as [answer|seen'].
      * exists (pre ++ [EvCallTool srv tl args reply])%list. cbn [snd].
        split; [exact Ht|]. rewrite dispatches_app, Hpre. exact Hnd1.
      * destruct (IH (step + 1) seen' env w1 (made ++ [(srv, tl, args)])%list Hnd1)
          as (evs & Hevs & Hnd').
        { intros s0 t0 a0 Hin. rewrite (Hs seen' eq_refl).
          apply elem_of_app in Hin as [Hin|Hin].
          - apply elem_of_union_l. now apply Hseen.
          - apply list_elem_of_singleton in Hin. injection Hin as -> -> ->.
            apply elem_of_union_r. now apply elem_of_singleton. }
        exists (pre ++ [EvCallTool srv tl args reply] ++ evs)%list.
        rewrite Hevs, Ht, <- !List.app_assoc. split; [reflexivity|].
        rewrite !dispatches_app, Hpre. cbn [app].
        now rewrite <- List.app_assoc in Hnd'.
Qed.

Lemma generateSshKeyTurn_spec (args : fields_t) (env : ChatEnv) (w : ChatWorld) :
  exists evs,
    ctrace (snd (generateSshKeyTurn servers args env w)) = (ctrace w ++ evs)%list /\
    NoDup (dispatches evs).
Proof.
  unfold generateSshKeyTurn, runTool. run_c.
  destruct (findServer servers "terminal-server"); cbn [fst snd ctrace].
  - match goal with |- context [EvCallTool _ _ _ ?reply] => destruct reply as [a|e m] end;
      cbn [fst snd ctrace]; [destruct (replyConfirmation a)|];
      cbn [fst snd ctrace]; (eexists [_]; split; [reflexivity | apply NoDup_singleton]).
  - exists []. rewrite app_nil_r. split; [reflexivity | apply NoDup_nil_2].
Qed.

Lemma handleUserMessage_distinct (userText : string) (env : ChatEnv) (w : ChatWorld) :
  exists evs,
    ctrace (snd (handleUserMessage servers cfg parseSshWizardInput userText env w))
    = (ctrace w ++ evs)%list /\
    NoDup (dispatches evs).
Proof.
  unfold handleUserMessage. run_c.
  destruct (awaitingSshWizardInput w).
  - run_c.
    match goal with |- context [generateSshKeyTurn servers ?a env ?w0] =>
      destruct (generateSshKeyTurn_spec a env w0) as (evs & Hevs & Hnd)
    end.
    exists evs. split; [exact Hevs | exact Hnd].
  - destruct (isSshKeyIntent userText).
    + match goal with |- context [negb ?c] => destruct c end; cbn [negb].
      * match goal with |- context [generateSshKeyTurn servers ?a env ?w0] =>
          destruct (generateSshKeyTurn_spec a env w0) as (evs & Hevs & Hnd)
        end.
        exists evs. split; [exact Hevs | exact Hnd].
      * run_c. exists []. rewrite app_nil_r. split; [reflexivity | apply NoDup_nil_2].
    + match goal with |- context [reasoningLoop servers cfg ?n ?st ?sn env ?w0] =>
        destruct (reasoningLoop_distinct n st sn env w0 [] (@NoDup_nil_2 _))
          as (evs & Hevs & Hnd)
      end.
      * intros srv tl args Hin. now apply elem_of_nil in Hin.
      * exists evs. split; [exact Hevs | exact Hnd].
Qed.

(** an action whose key is already in the set, and which the two gates
    let through, gets the synthetic tool message and no tool call *)
Lemma iteration_repeated (step : Z) (seen : gset string) (env : ChatEnv) (w : ChatWorld)
    (raw srv tl : string) (args : fields_t) :
  ollamaChat env (length (ctrace w)) (history w) None = Ok raw ->
  parseAction raw = Ok (ToolAction srv tl args) ->
  callKey srv tl args ∈ seen ->
  gated srv tl args = false ->
  iteration servers cfg step seen env w
  = (Continue seen,
     {| history := (history w ++
                    [ {| role := assistant; content := Js.trim raw |};
                      {| role := tool;
                         content := repeatedCallText (callKey srv tl args) |} ])%list;
        awaitingSshWizardInput := awaitingSshWizardInput w;
        ctrace := (ctrace w ++ [EvModel None (Ok raw)])%list |}).
Proof.
  intros Hraw Hact Hseen Hgate.
  apply orb_false_iff in Hgate as [Hg1 Hg2].
  unfold iteration, callModel, dispatchStep. run_c.
  rewrite Hraw. cbn [mbind result_bind]. rewrite Hact. cbn. rewrite Hg1, Hg2.
  rewrite bool_decide_eq_true_2 by assumption. cbn.
  rewrite <- List.app_assoc. reflexivity.
Qed.


End LoopFacts.

(** ** More on the process runner *)

Section RunnerMore.

Import Runner.

Lemma length_take_exact (n : nat) (s : string) :
  String.length (Js.take n s) = Nat.min n (String.length s).
Proof.
  revert s. induction n as [|n IH]; intros [|c s]; simpl; try reflexivity.
  now rewrite IH.
Qed.

Lemma take_app_le (n : nat) (s t : string) :
  (n <= String.length s)%nat -> Js.take n (s ++ t) = Js.take n s.
Proof.
  revert s. induction n as [|n IH]; intros s H; [reflexivity|].
  destruct s as [|c s]; simpl in *; [lia|].
  f_equal. apply IH. lia.
Qed.

Lemma take_take_app (n : nat) (s t : string) :
  (n <= String.length s)%nat -> Js.take n (Js.take n s ++ t) = Js.take n s.
Proof.
  intros H. rewrite take_app_le.
  - revert s H. induction n as [|n IH]; intros [|c s] H; simpl in *; try reflexivity.
    f_equal. apply IH. lia.
  - rewrite length_take_exact. lia.
Qed.

(** the chunks of each pipe, put end to end *)
Fixpoint stdoutOf (evs : list ChildEvent) : string :=
  match evs with
  | [] => ""
  | StdoutData d :: evs' => d ++ stdoutOf evs'
  | StderrData _ :: evs' => stdoutOf evs'
  end.

Fixpoint stderrOf (evs : list ChildEvent) : string :=
  match evs with
  | [] => ""
  | StdoutData _ :: evs' => stderrOf evs'
  | StderrData d :: evs' => d ++ stderrOf evs'
  end.

Lemma onData_clampText (m : Z) (s d : string) :
  0 <= m -> onData m (clampText s m) d = clampText (s ++ d) m.
Proof.
  intros Hm. unfold onData, clampText. cbv zeta.
  pose proof (len_truncationSuffix m) as Hsuf.
  destruct (Z.leb_spec (Js.len s) m) as [Hs|Hs].
  - destruct (Z.ltb_spec m (Js.len (s ++ d))) as [H|H].
    + destruct (Z.leb_spec (Js.len (s ++ d)) m); [lia | reflexivity].
    + destruct (Z.leb_spec (Js.len (s ++ d)) m); [reflexivity | lia].
  - assert (Hn : (Z.to_nat m <= String.length s)%nat) by (unfold Js.len in Hs; lia).
    assert (Hslice : Js.len (Js.slice0 s m) = m).
    { unfold Js.slice0. destruct (Z.ltb_spec m 0); [lia|].
      unfold Js.len. rewrite length_take_exact. lia. }
    rewrite !len_app, Hslice.
    pose proof (len_nonneg d) as Hd.
    destruct (Z.ltb_spec m (m + Js.len (truncationSuffix m) + Js.len d)) as [_|H]; [|lia].
    destruct (Z.leb_spec (m + Js.len (truncationSuffix m) + Js.len d) m) as [H|_]; [lia|].
    destruct (Z.leb_spec (Js.len s + Js.len d) m) as [H|_]; [lia|].
    f_equal. unfold Js.slice0. destruct (Z.ltb_spec m 0); [lia|].
    rewrite string_app_assoc, take_take_app by assumption.
    now rewrite take_app_le.
Qed.

Lemma capture_clampText (m : Z) (evs : list ChildEvent) (out err : string) :
  0 <= m ->
  capture m (clampText out m) (clampText err m) evs
  = (clampText (out ++ stdoutOf evs) m, clampText (err ++ stderrOf evs) m).
Proof.
  intros Hm. revert out err.
  induction evs as [|[d|d] evs IH]; intros out err; cbn [capture stdoutOf stderrOf].
  - now rewrite !string_app_empty_r.
  - rewrite onData_clampText, IH by assumption. now rewrite string_app_assoc.
  - rewrite onData_clampText, IH by assumption. now rewrite string_app_assoc.
Qed.

Lemma clampText_empty (m : Z) : 0 <= m -> clampText "" m = "".
Proof.
  intros Hm. unfold clampText. change (Js.len "") with 0.
  destruct (Z.leb_spec 0 m); [reflexivity | lia].
Qed.

Lemma capture_from_empty (m : Z) (evs : list ChildEvent) :
  0 <= m ->
  capture m "" "" evs = (clampText (stdoutOf evs) m, clampText (stderrOf evs) m).
Proof.
  intros Hm. rewrite <- (clampText_empty m Hm) at 1 2. now rewrite capture_clampText.
Qed.


Lemma trimEnd_idempotent (s : string) : Js.trimEnd (Js.trimEnd s) = Js.trimEnd s.
Proof.
  induction s as [|c s IH]; [reflexivity|].
  cbn [Js.trimEnd]. destruct (Js.trimEnd s) as [|c' t] eqn:E.
  - destruct (Js.isWhite c) eqn:Hc; [reflexivity|]. cbn [Js.trimEnd]. now rewrite Hc.
  - cbn [Js.trimEnd] in *. now rewrite IH.
Qed.

(** X2.  The output that [spawnAndCapture] resolves with is never the
    empty string and never ends in white space; a child that wrote
    nothing to either pipe yields ["(no output)"]. *)
Theorem spawn_output_is_trimmed_and_nonempty (run : ChildRun) (m : Z) (r : SpawnResult) :
  spawnAndCapture run m = Ok r ->
  output r <> "" /\ Js.trimEnd (output r) = output r /\
  (stdoutOf (events run) = "" -> stderrOf (events run) = "" -> 0 <= m ->
   output r = "(no output)").
Proof.
  unfold spawnAndCapture.
  destruct (capture m "" "" (events run)) as [out err] eqn:Hcap.
  destruct (ending run) as [msg|code]; [discriminate|].
  intros [= <-]. cbn [output]. unfold combine. cbv zeta.
  set (combined := Js.trimEnd (out ++ (if Js.truthy err then stderrMarker ++ err else ""))).
  split; [|split].
  - destruct (Js.truthy combined) eqn:Ht; [|discriminate].
    intros Heq. rewrite Heq in Ht. discriminate.
  - destruct (Js.truthy combined) eqn:Ht; [|reflexivity].
    subst combined. apply trimEnd_idempotent.
  - intros Hout Herr Hm.
    rewrite capture_from_empty, Hout, Herr, clampText_empty in Hcap by assumption.
    injection Hcap as <- <-. reflexivity.
Qed.


Lemma spawn_output_is_trimmed_and_nonempty_witness :
  output {| output := "file.txt"; exitCode := Some 0 |} <> "" /\
  Js.trimEnd "file.txt" = "file.txt".
Proof.
  pose proof (spawn_output_is_trimmed_and_nonempty listing 20000
                {| output := "file.txt"; exitCode := Some 0 |} eq_refl) as (H1 & H2 & _).
  split; assumption.
Defined.

End RunnerMore.

(** ** More on paths: what [resolve] returns *)

Section PathMore.

Fixpoint noSlash (s : string) : bool :=
  match s with
  | EmptyString => true
  | String c s' => negb (Ascii.eqb c "/") && noSlash s'
  end.

(** a segment of a normalized path: a name, neither empty nor a dot
    segment *)
Definition plainSegment (s : string) : bool :=
  noSlash s && negb (String.eqb s "") && negb (String.eqb s ".") && negb (String.eqb s "..").

(** an absolute path in normal form *)
Definition normalAbs (p : string) : Prop :=
  exists segs : list string,
    Forall (fun s => plainSegment s = true) segs /\ p = "/" ++ Path.joinSegments segs.

Lemma split_nonempty (p : string) : exists seg segs, Path.split p = seg :: segs.
Proof.
  induction p as [|c p (seg & segs & IH)]; cbn [Path.split]; [eauto|].
  rewrite IH. destruct (Ascii.eqb c "/"); eauto.
Qed.

Lemma split_app_slash (s t : string) :
  noSlash s = true -> Path.split (s ++ "/" ++ t) = s :: Path.split t.
Proof.
  induction s as [|c s IH]; cbn [noSlash]; intros H.
  - change ("" ++ "/" ++ t) with (String "/" t). cbn [Path.split].
    destruct (split_nonempty t) as (seg & segs & ->). reflexivity.
  - apply andb_true_iff in H as [Hc Hs]. rewrite string_app_cons. cbn [Path.split].
    rewrite (IH Hs). now destruct (Ascii.eqb c "/").
Qed.

Lemma split_noSlash (s : string) : noSlash s = true -> Path.split s = [s].
Proof.
  induction s as [|c s IH]; cbn [noSlash]; intros H; [reflexivity|].
  apply andb_true_iff in H as [Hc Hs]. cbn [Path.split]. rewrite (IH Hs).
  now destruct (Ascii.eqb c "/").
Qed.

Lemma split_all_noSlash (p : string) : Forall (fun s => noSlash s = true) (Path.split p).
Proof.
  induction p as [|c p IH]; cbn [Path.split]; [repeat constructor|].
  destruct (split_nonempty p) as (seg & segs & E). rewrite E in *.
  inversion IH as [|? ? Hseg Hsegs]; subst.
  destruct (Ascii.eqb c "/") eqn:Hc.
  - repeat constructor; assumption.
  - constructor; [|assumption]. cbn [noSlash]. now rewrite Hc.
Qed.

Lemma joinSegments_cons (x y : string) (l : list string) :
  Path.joinSegments (x :: y :: l) = x ++ "/" ++ Path.joinSegments (y :: l).
Proof. reflexivity. Qed.

Lemma split_joinSegments_app (segs : list string) (t : string) :
  Forall (fun s => noSlash s = true) segs -> segs <> [] ->
  Path.split (Path.joinSegments segs ++ "/" ++ t) = (segs ++ Path.split t)%list.
Proof.
  induction segs as [|x [|y l] IH]; intros Hall Hne; [congruence| |].
  - inversion Hall; subst. now apply split_app_slash.
  - inversion Hall as [|? ? Hx Hrest]; subst.
    rewrite joinSegments_cons, !string_app_assoc, split_app_slash by assumption.
    cbn [app]. f_equal. now apply IH.
Qed.

Lemma split_joinSegments (segs : list string) :
  Forall (fun s => noSlash s = true) segs -> segs <> [] ->
  Path.split (Path.joinSegments segs) = segs.
Proof.
  induction segs as [|x [|y l] IH]; intros Hall Hne; [congruence| |].
  - inversion Hall; subst. now apply split_noSlash.
  - inversion Hall as [|? ? Hx Hrest]; subst.
    rewrite joinSegments_cons, split_app_slash by assumption.
    f_equal. now apply IH.
Qed.

Lemma joinSegments_snoc (segs : list string) (f : string) :
  segs <> [] -> Path.joinSegments (segs ++ [f]) = Path.joinSegments segs ++ "/" ++ f.
Proof.
  induction segs as [|x [|y l] IH]; intros Hne; [congruence|reflexivity|].
  change ((x :: y :: l) ++ [f])%list with (x :: y :: (l ++ [f]))%list.
  rewrite !joinSegments_cons, !string_app_assoc. do 2 f_equal.
  now apply (IH ltac:(discriminate)).
Qed.

Lemma plainSegment_noSlash (s : string) : plainSegment s = true -> noSlash s = true.
Proof. unfold plainSegment. rewrite !andb_true_iff. tauto. Qed.

Lemma pushSegment_plain (a : bool) (stack : list string) (s : string) :
  plainSegment s = true -> Path.pushSegment a stack s = s :: stack.
Proof.
  unfold plainSegment, Path.pushSegment. rewrite !andb_true_iff, !negb_true_iff.
  intros (((_ & -> ) & ->) & ->). reflexivity.
Qed.

Lemma fold_pushSegment_plain (a : bool) (segs stack : list string) :
  Forall (fun s => plainSegment s = true) segs ->
  fold_left (Path.pushSegment a) segs stack = (rev segs ++ stack)%list.
Proof.
  revert stack. induction segs as [|s segs IH]; intros stack H; [reflexivity|].
  inversion H; subst. cbn [fold_left rev]. rewrite pushSegment_plain, IH by assumption.
  now rewrite <- List.app_assoc.
Qed.

Lemma normalizeSegments_plain (a : bool) (segs : list string) :
  Forall (fun s => plainSegment s = true) segs ->
  Path.normalizeSegments a ("" :: segs ++ [""]) = segs.
Proof.
  intros H. unfold Path.normalizeSegments. cbn [fold_left].
  change (Path.pushSegment a [] "") with (@nil string).
  rewrite fold_left_app, (fold_pushSegment_plain a segs []) by assumption. cbn [fold_left].
  change (Path.pushSegment a ?st "") with st.
  now rewrite app_nil_r, rev_involutive.
Qed.

Lemma fold_pushSegment_keeps_plain (segs stack : list string) :
  Forall (fun s => noSlash s = true) segs ->
  Forall (fun s => plainSegment s = true) stack ->
  Forall (fun s => plainSegment s = true) (fold_left (Path.pushSegment false) segs stack).
Proof.
  revert stack. induction segs as [|s segs IH]; intros stack Hs Hst; [assumption|].
  inversion Hs as [|? ? Hslash Hrest]; subst. cbn [fold_left]. apply IH; [assumption|].
  unfold Path.pushSegment.
  destruct (String.eqb_spec s "") as [->|He]; [assumption|].
  destruct (String.eqb_spec s ".") as [->|Hd]; [assumption|]. cbn [orb].
  destruct (String.eqb_spec s "..") as [->|Hdd].
  - destruct stack as [|top below]; [constructor|].
    inversion Hst; subst. destruct (String.eqb_spec top "..") as [->|_]; [discriminate|assumption].
  - constructor; [|assumption]. unfold plainSegment. rewrite Hslash.
    apply String.eqb_neq in He, Hd, Hdd. now rewrite He, Hd, Hdd.
Qed.

Lemma normalizeString_plain (p : string) :
  Forall (fun s => plainSegment s = true) (Path.normalizeSegments false (Path.split p)).
Proof.
  unfold Path.normalizeSegments. apply Forall_rev.
  apply fold_pushSegment_keeps_plain; [apply split_all_noSlash | constructor].
Qed.

Lemma resolveLoop_absolute (l : list string) (acc : string) :
  Exists (fun p => Path.isAbsolute p = true) l -> snd (Path.resolveLoop l acc) = true.
Proof.
  revert acc. induction l as [|p l IH]; intros acc H; [inversion H|].
  cbn [Path.resolveLoop].
  destruct (String.eqb_spec p "") as [->|Hne].
  - apply IH. inversion H as [? ? Habs|]; subst; [discriminate | assumption].
  - destruct (Path.isAbsolute p) eqn:Hp; [reflexivity|].
    apply IH. inversion H as [? ? Habs|]; subst; [congruence | assumption].
Qed.

(** [resolve] gives an absolute path in normal form as soon as one of
    its arguments, or the working directory, is absolute *)
Lemma resolve_normalAbs (cwd : string) (paths : list string) :
  Exists (fun p => Path.isAbsolute p = true) (cwd :: paths) ->
  normalAbs (Path.resolve cwd paths).
Proof.
  intros H. unfold Path.resolve.
  pose proof (resolveLoop_absolute (rev (cwd :: paths)) "") as Habs.
  destruct (Path.resolveLoop (rev (cwd :: paths)) "") as [rp abs].
  cbn [snd] in Habs. rewrite Habs by (apply Exists_rev; exact H).
  eexists. split; [apply normalizeString_plain | reflexivity].
Qed.

Lemma normalAbs_isAbsolute (p : string) : normalAbs p -> Path.isAbsolute p = true.
Proof. intros (segs & _ & ->). reflexivity. Qed.

Lemma normalAbs_nonempty (p : string) : normalAbs p -> p <> "".
Proof. intros (segs & _ & ->). discriminate. Qed.

(** a path in normal form resolves to itself *)
Lemma resolve_fixes_normalAbs (cwd p : string) : normalAbs p -> Path.resolve cwd [p] = p.
Proof.
  intros (segs & Hsegs & ->). unfold Path.resolve. cbn [rev app Path.resolveLoop].
  cbn [String.eqb Path.isAbsolute]. cbn [negb].
  change (("/" ++ Path.joinSegments segs) ++ "/" ++ "")
    with (String "/" (Path.joinSegments segs ++ "/" ++ "")).
  change (String.eqb (String "/" ?x) "") with false. cbv iota.
  unfold Path.normalizeString. f_equal.
  destruct segs as [|x l]; [reflexivity|].
  cbn [Path.split].
  assert (Hslash : Forall (fun s => noSlash s = true) (x :: l)).
  { eapply Forall_impl; [exact Hsegs|]. apply plainSegment_noSlash. }
  rewrite split_joinSegments_app by (assumption || discriminate).
  destruct ((x :: l) ++ Path.split "")%list as [|seg segs'] eqn:E; [discriminate|].
  rewrite Ascii.eqb_refl, <- E. cbn [Path.split].
  now rewrite normalizeSegments_plain.
Qed.

Lemma filter_plain (segs : list string) :
  Forall (fun s => plainSegment s = true) segs ->
  filter (fun seg : string => seg <> "") segs = segs.
Proof.
  induction 1 as [|y l Hy Hl IH]; [reflexivity|].
  rewrite filter_cons_True; [now rewrite IH|].
  intros ->. discriminate.
Qed.

Lemma segments_normalAbs (segs : list string) :
  Forall (fun s => plainSegment s = true) segs ->
  Path.segments ("/" ++ Path.joinSegments segs) = segs.
Proof.
  intros H. unfold Path.segments.
  assert (Hslash : Forall (fun s => noSlash s = true) segs).
  { eapply Forall_impl; [exact H|]. apply plainSegment_noSlash. }
  destruct segs as [|x l]; [reflexivity|].
  change ("/" ++ Path.joinSegments (x :: l)) with (String "/" (Path.joinSegments (x :: l))).
  cbn [Path.split]. rewrite split_joinSegments by (assumption || discriminate).
  rewrite Ascii.eqb_refl, filter_cons_False by congruence.
  now apply filter_plain.
Qed.

End PathMore.

(** ** More on the tool handlers *)

Section TerminalMore.

Import Runner Terminal.

Variable RegExp : string -> option (string -> bool).

Ltac run_t :=
  unfold dateNow, randomUUID;
  unfold mbind, mret, M_bind, M_ret, throw, liftResult, ask, interact,
    pendingGet, pendingSet, pendingDelete, chmod;
  cbn [fst snd pending trace].

Lemma spawnAndCapture_error (run : ChildRun) (m : Z) (e : ErrorKind) (msg : string) :
  spawnAndCapture run m = Err e msg -> e = SpawnFailure.
Proof.
  unfold spawnAndCapture. destruct (capture _ _ _ _) as [out err].
  destruct (ending run); congruence.
Qed.

Lemma spawns_unchanged (t : list Event) (l : list (string * list string * string)) :
  spawns t = (spawns t ++ l)%list -> l = [].
Proof.
  intros H. rewrite <- (app_nil_r (spawns t)) in H at 1. now apply app_inv_head in H.
Qed.

(** the ways a call to [run] can go *)
Inductive RunCase (ctx : TerminalContext) (params : RunParams) (env : Env) (w : World) : Prop :=
| RunRefused (e : ErrorKind) (m : string) :
    toolRun RegExp ctx params env w = (Err e m, w) ->
    e <> SpawnFailure -> e <> IOFailure ->
    RunCase ctx params env w
| RunFlagged (cwdAbs why : string) :
    admitted RegExp ctx params env cwdAbs ->
    isDangerous RegExp ctx (rp_command params) (default [] (rp_args params)) = Ok (Some why) ->
    RunCase ctx params env w
| RunSafe (cwdAbs : string) :
    admitted RegExp ctx params env cwdAbs ->
    isDangerous RegExp ctx (rp_command params) (default [] (rp_args params)) = Ok None ->
    RunCase ctx params env w.

Lemma checkBlocked_error (argv reStrs : list string) (e : ErrorKind) (m : string) :
  checkBlocked RegExp argv reStrs = Err e m -> e = BlockedArgument \/ e = InvalidRegExp.
Proof.
  induction reStrs as [|reStr rest IH]; cbn [checkBlocked]; [discriminate|].
  unfold newRegExp. destruct (RegExp reStr) as [re|]; cbn; [|intros [= <- _]; now right].
  destruct (List.find re argv) as [bad|]; [|exact IH].
  destruct (Js.truthy bad); [intros [= <- _]; now left | exact IH].
Qed.

Lemma checkEscapes_error (cwd0 : string) (ctx : TerminalContext) (argv : list string)
    (e : ErrorKind) (m : string) :
  checkEscapes cwd0 ctx argv = Err e m -> e = PathEscape.
Proof.
  induction argv as [|a rest IH]; cbn [checkEscapes]; [discriminate|].
  repeat case_match; try congruence; exact IH.
Qed.

Lemma regexAnyOf_error (cmd : string) (argv reStrs : list string) (e : ErrorKind) (m : string) :
  regexAnyOf RegExp cmd argv reStrs = Err e m -> e = InvalidRegExp.
Proof.
  induction reStrs as [|reStr rest IH]; cbn [regexAnyOf]; [discriminate|].
  unfold newRegExp. destruct (RegExp reStr) as [re|]; cbn; [|congruence].
  destruct (existsb re argv); [discriminate | exact IH].
Qed.

Lemma dangerousRules_error (cmd : string) (argv : list string) (rules : list DangerousPattern)
    (e : ErrorKind) (m : string) :
  dangerousRules RegExp cmd argv rules = Err e m -> e = InvalidRegExp.
Proof.
  induction rules as [|rule rest IH]; cbn [dangerousRules]; [discriminate|].
  destruct (negb _); [exact IH|].
  destruct (match argsAnyOf rule with Some _ => _ | None => _ end); [discriminate|].
  destruct (argsRegexAnyOf rule) as [reStrs|]; cbn; [|exact IH].
  destruct (regexAnyOf RegExp cmd argv reStrs) as [[hit|]|e' m'] eqn:E; cbn;
    [discriminate | exact IH |].
  intros [= <- _]. exact (regexAnyOf_error _ _ _ _ _ E).
Qed.

Lemma isDangerous_error (ctx : TerminalContext) (cmd : string) (argv : list string)
    (e : ErrorKind) (m : string) :
  isDangerous RegExp ctx cmd argv = Err e m -> e = InvalidRegExp.
Proof.
  unfold isDangerous. destruct (match dangerousCommands _ with Some _ => _ | None => _ end);
    [discriminate | apply dangerousRules_error].
Qed.

Lemma toolRun_cases (ctx : TerminalContext) (params : RunParams) (env : Env) (w : World) :
  RunCase ctx params env w.
Proof.
  destruct (resolveSandboxPath (processCwd env) ctx (default "." (rp_cwd params)))
    as [cwdAbs|e m] eqn:Hcwd.
  2:{ apply (RunRefused _ _ _ _ e m).
      - unfold toolRun. run_t. now rewrite Hcwd.
      - unfold resolveSandboxPath in Hcwd. case_match; congruence.
      - unfold resolveSandboxPath in Hcwd. case_match; congruence. }
  destruct (isSafeCommandName (rp_command params)) eqn:Hsafe.
  2:{ apply (RunRefused _ _ _ _ InvalidCommandName ("Invalid command name: " ++ rp_command params));
        [|discriminate|discriminate].
      unfold toolRun. run_t. rewrite Hcwd. cbn. now rewrite Hsafe. }
  destruct (Js.arrIncludes (allowedCommands (policy ctx)) (rp_command params)) eqn:Hallow.
  2:{ apply (RunRefused _ _ _ _ NotAllowed ("Command not allowed: " ++ rp_command params));
        [|discriminate|discriminate].
      unfold toolRun. run_t. rewrite Hcwd. cbn. now rewrite Hsafe, Hallow. }
  destruct (checkArgsAgainstPolicy RegExp (processCwd env) ctx (default [] (rp_args params)))
    as [[]|e m] eqn:Hargs.
  2:{ apply (RunRefused _ _ _ _ e m).
      - unfold toolRun. run_t. rewrite Hcwd. cbn. now rewrite Hsafe, Hallow, Hargs.
      - unfold checkArgsAgainstPolicy in Hargs.
        destruct (checkBlocked _ _ _) as [[]|e' m'] eqn:Hb; cbn in Hargs.
        + apply checkEscapes_error in Hargs as ->. discriminate.
        + injection Hargs as <- _. apply checkBlocked_error in Hb as [->| ->]; discriminate.
      - unfold checkArgsAgainstPolicy in Hargs.
        destruct (checkBlocked _ _ _) as [[]|e' m'] eqn:Hb; cbn in Hargs.
        + apply checkEscapes_error in Hargs as ->. discriminate.
        + injection Hargs as <- _. apply checkBlocked_error in Hb as [->| ->]; discriminate. }
  assert (Hadm : admitted RegExp ctx params env cwdAbs) by (now repeat split).
  destruct (isDangerous RegExp ctx (rp_command params) (default [] (rp_args params)))
    as [[why|]|e m] eqn:Hd.
  - now apply (RunFlagged _ _ _ _ cwdAbs why).
  - now apply (RunSafe _ _ _ _ cwdAbs).
  - apply (RunRefused _ _ _ _ e m).
    + unfold toolRun. run_t. rewrite Hcwd. cbn. now rewrite Hsafe, Hallow, Hargs, Hd.
    + apply isDangerous_error in Hd as ->. discriminate.
    + apply isDangerous_error in Hd as ->. discriminate.
Qed.

(** X3.  Every process that [run] starts is one the policy admits: its
    command is the requested one, has a safe name and is on the allowlist;
    its arguments passed the argument guard; its directory is the
    requested [cwd] resolved inside the sandbox; and the classifier did
    not flag the command line. *)
Theorem run_starts_only_what_policy_admits (ctx : TerminalContext) (params : RunParams)
    (env : Env) (w : World) (cmd : string) (argv : list string) (dir : string)
    (l : list (string * list string * string)) :
  spawns (trace (snd (toolRun RegExp ctx params env w))) = (spawns (trace w) ++ l)%list ->
  In (cmd, argv, dir) l ->
  l = [(cmd, argv, dir)] /\
  cmd = rp_command params /\
  argv = default [] (rp_args params) /\
  resolveSandboxPath (processCwd env) ctx (default "." (rp_cwd params)) = Ok dir /\
  isSafeCommandName cmd = true /\
  Js.arrIncludes (allowedCommands (policy ctx)) cmd = true /\
  checkArgsAgainstPolicy RegExp (processCwd env) ctx argv = Ok tt /\
  isDangerous RegExp ctx cmd argv = Ok None.
Proof.
  intros Hl Hin.
  destruct (toolRun_cases ctx params env w) as [e m Hr _ _|cwdAbs why Hadm Hd|cwdAbs Hadm Hd].
  - rewrite Hr in Hl. cbn [snd] in Hl. apply spawns_unchanged in Hl. subst l. destruct Hin.
  - rewrite (toolRun_dangerous RegExp ctx params env w cwdAbs why Hadm Hd) in Hl.
    cbn [snd trace store extend] in Hl. rewrite spawns_app in Hl.
    apply app_inv_head in Hl. subst l. destruct Hin.
  - rewrite (toolRun_safe RegExp ctx params env w cwdAbs Hadm Hd) in Hl.
    assert (Hone : l = [(rp_command params, default [] (rp_args params), cwdAbs)]).
    { destruct (spawnAndCapture _ _); cbn [snd trace extend] in Hl;
        rewrite spawns_app in Hl; apply app_inv_head in Hl; now subst l. }
    subst l. destruct Hin as [[= <- <- <-]|[]].
    destruct Hadm as (Hcwd & Hsafe & Hallow & Hargs). now repeat split.
Qed.


End TerminalMore.

Section TerminalSamples.

Import Runner Terminal.

Lemma run_starts_only_what_policy_admits_witness :
  isSafeCommandName "ls" = true /\ isDangerous noRegExp rmSandbox "ls" [] = Ok None.
Proof.
  pose proof (run_starts_only_what_policy_admits noRegExp rmSandbox runLs calmEnv emptyWorld
                "ls" [] "/tmp/s" [("ls", [], "/tmp/s")] eq_refl (or_introl eq_refl)) as H.
  split; apply H.
Defined.

(** [cat] is not on the allowlist *)
Definition runCat : RunParams :=
  {| rp_command := "cat"; rp_args := Some ["/etc/passwd"]; rp_cwd := None |}.


End TerminalSamples.

Section GuardMore.

Import Runner Terminal.

Variable RegExp : string -> option (string -> bool).

(** the test that both path guards make on [path.relative] *)
Lemma relative_inside (cwd0 root target : string) :
  Js.startsWith (Path.relative cwd0 root target) ".." = false ->
  Path.segments (Path.resolve cwd0 [root]) `prefix_of` Path.segments (Path.resolve cwd0 [target]).
Proof.
  intros Eup. unfold Path.relative in Eup.
  destruct (String.eqb_spec root target) as [->|_]; [reflexivity|].
  destruct (String.eqb_spec (Path.resolve cwd0 [root]) (Path.resolve cwd0 [target]))
    as [->|_]; [reflexivity|].
  destruct (Path.dropCommon _ _) as [up down] eqn:Edrop.
  destruct (dropCommon_spec _ _ _ _ Edrop) as (common & Hfrom & Hto).
  destruct up as [|u up].
  - rewrite Hfrom, Hto, app_nil_r. now exists down.
  - rewrite relative_climbs in Eup; [discriminate | congruence].
Qed.

Lemma startsWith_slash (a : string) : Js.startsWith a "/" = Path.isAbsolute a.
Proof. destruct a as [|c a]; [reflexivity|]. cbn. destruct c as [[] [] [] [] [] [] [] []]; reflexivity. Qed.

Lemma checkEscapes_accepts (cwd0 : string) (ctx : TerminalContext) (argv : list string) :
  checkEscapes cwd0 ctx argv = Ok tt ->
  Forall (fun a =>
            Js.includes a ".." = false /\
            (Js.startsWith a "/" = true ->
             normalAbs (Path.resolve cwd0 [a]) /\
             Path.segments (Path.resolve cwd0 [sandboxRootAbs ctx])
               `prefix_of` Path.segments (Path.resolve cwd0 [a]))) argv.
Proof.
  induction argv as [|a rest IH]; cbn [checkEscapes]; [constructor|].
  destruct (Js.includes a "..") eqn:Hdots; [discriminate|].
  destruct (Js.startsWith a "/") eqn:Habs.
  - destruct (Js.startsWith _ ".." || Path.isAbsolute _) eqn:E; [discriminate|].
    intros H. constructor; [|now apply IH]. split; [assumption|]. intros _.
    apply orb_false_iff in E as [Eup _].
    assert (Hn : normalAbs (Path.resolve cwd0 [a])).
    { apply resolve_normalAbs. right. left. now rewrite <- startsWith_slash. }
    split; [assumption|].
    apply relative_inside in Eup. now rewrite (resolve_fixes_normalAbs cwd0 _ Hn) in Eup.
  - intros H. constructor; [|now apply IH]. split; [assumption | congruence].
Qed.

Lemma checkBlocked_accepts (argv reStrs : list string) :
  checkBlocked RegExp argv reStrs = Ok tt ->
  Forall (fun reStr =>
            exists re, RegExp reStr = Some re /\
                       forall bad, List.find re argv = Some bad -> bad = "") reStrs.
Proof.
  induction reStrs as [|reStr rest IH]; cbn [checkBlocked]; [constructor|].
  unfold newRegExp. destruct (RegExp reStr) as [re|] eqn:Hre; cbn; [|discriminate].
  destruct (List.find re argv) as [bad|] eqn:Hfind.
  - destruct (Js.truthy bad) eqn:Ht; [discriminate|].
    intros H. constructor; [|now apply IH].
    exists re. split; [assumption|]. intros bad' Hbad.
    rewrite Hfind in Hbad. injection Hbad as <-. now apply truthy_false.
  - intros H. constructor; [|now apply IH].
    exists re. split; [assumption|]. intros bad' Hbad. congruence.
Qed.

(** X5.  What the argument guard lets through: no argument contains
    [".."]; every argument that starts with a slash resolves to a
    normalized absolute path under the sandbox root; every blocked pattern
    of the policy is a valid regular expression, and the first argument it
    matches, if any, is the empty string (the guard tests the match for
    truthiness). *)
Theorem argument_guard_accepts_only_clean_arguments (cwd0 : string) (ctx : TerminalContext)
    (argv : list string) :
  checkArgsAgainstPolicy RegExp cwd0 ctx argv = Ok tt ->
  Forall (fun a =>
            Js.includes a ".." = false /\
            (Js.startsWith a "/" = true ->
             normalAbs (Path.resolve cwd0 [a]) /\
             Path.segments (Path.resolve cwd0 [sandboxRootAbs ctx])
               `prefix_of` Path.segments (Path.resolve cwd0 [a]))) argv /\
  Forall (fun reStr =>
            exists re, RegExp reStr = Some re /\
                       forall bad, List.find re argv = Some bad -> bad = "")
         (default [] (blockedArgsRegex (policy ctx))).
Proof.
  unfold checkArgsAgainstPolicy.
  destruct (checkBlocked RegExp argv _) as [[]|e m] eqn:Hb; cbn; [|discriminate].
  intros He. split; [now apply checkEscapes_accepts | now apply checkBlocked_accepts].
Qed.

(** the rules of the policy that name a command *)
Definition rulesFor (cmd : string) (rules : list DangerousPattern) : list DangerousPattern :=
  List.filter (fun rule => String.eqb (dp_command rule) cmd) rules.

Lemma dangerousRules_rulesFor (cmd : string) (argv : list string)
    (rules : list DangerousPattern) :
  dangerousRules RegExp cmd argv rules = dangerousRules RegExp cmd argv (rulesFor cmd rules).
Proof.
  induction rules as [|rule rest IH]; [reflexivity|].
  cbn [dangerousRules rulesFor List.filter].
  destruct (String.eqb (dp_command rule) cmd) eqn:E; cbn [negb].
  - cbn [dangerousRules]. rewrite E. cbn [negb]. fold (rulesFor cmd rest).
    destruct (match argsAnyOf rule with Some _ => _ | None => _ end); [reflexivity|].
    destruct (match argsRegexAnyOf rule with Some _ => _ | None => _ end) as [[hit|]|e m];
      cbn; [reflexivity | exact IH | reflexivity].
  - exact IH.
Qed.

(** X6.  The classification of a command line depends only on the
    [dangerousCommands] list and on the patterns that name its command:
    two policies that agree on those give the same answer, whatever rules
    (even rules with invalid regular expressions) they hold for other
    commands. *)
Theorem classifier_reads_only_rules_of_the_command (ctx ctx' : TerminalContext)
    (cmd : string) (argv : list string) :
  dangerousCommands (policy ctx) = dangerousCommands (policy ctx') ->
  rulesFor cmd (default [] (dangerousPatterns (policy ctx)))
  = rulesFor cmd (default [] (dangerousPatterns (policy ctx'))) ->
  isDangerous RegExp ctx cmd argv = isDangerous RegExp ctx' cmd argv.
Proof.
  intros Hc Hr. unfold isDangerous. rewrite Hc.
  destruct (match dangerousCommands (policy ctx') with Some _ => _ | None => _ end);
    [reflexivity|].
  rewrite (dangerousRules_rulesFor cmd argv (default [] (dangerousPatterns (policy ctx)))),
          (dangerousRules_rulesFor cmd argv (default [] (dangerousPatterns (policy ctx')))).
  now rewrite Hr.
Qed.

End GuardMore.

Section GuardSamples.

Import Runner Terminal.

Lemma argument_guard_accepts_only_clean_arguments_witness :
  Forall (fun a =>
            Js.includes a ".." = false /\
            (Js.startsWith a "/" = true ->
             normalAbs (Path.resolve "/tmp/s" [a]) /\
             Path.segments (Path.resolve "/tmp/s" [sandboxRootAbs rmSandbox])
               `prefix_of` Path.segments (Path.resolve "/tmp/s" [a])))
         ["-la"; "/tmp/s/x"].
Proof.
  exact (proj1 (argument_guard_accepts_only_clean_arguments noRegExp "/tmp/s" rmSandbox
                  ["-la"; "/tmp/s/x"] eq_refl)).
Defined.

(** the policy of [rmSandbox] with a rule for [git] whose pattern is not
    a regular expression *)
Definition gitRuleSandbox : TerminalContext :=
  {| policy := {| sandboxRoot := "/tmp/s";
                  auditLogPath := ".mcp-audit/terminal-server.jsonl";
                  allowedCommands := ["ls"; "rm"];
                  blockedArgsRegex := None;
                  dangerousCommands := Some ["rm"];
                  dangerousPatterns :=
                    Some [{| dp_command := "git"; argsAnyOf := None;
                             argsRegexAnyOf := Some ["(push"] |}];
                  confirmTtlSeconds := None;
                  maxOutputChars := None;
                  maxFileReadBytes := None |};
     sandboxRootAbs := "/tmp/s";
     auditLogAbs := "/tmp/s/.mcp-audit/terminal-server.jsonl" |}.

Lemma classifier_reads_only_rules_of_the_command_witness :
  isDangerous noRegExp rmSandbox "ls" ["-la"] = isDangerous noRegExp gitRuleSandbox "ls" ["-la"].
Proof.
  apply (classifier_reads_only_rules_of_the_command noRegExp rmSandbox gitRuleSandbox
           "ls" ["-la"]); reflexivity.
Defined.

End GuardSamples.

Section StoreMore.

Import Runner Terminal.

Variable RegExp : string -> option (string -> bool).

(** X7.  An accepted path is inside the sandbox: with an absolute
    working directory, the path that [resolveSandboxPath] returns is an
    absolute path in normal form (no empty, ["."] or [".."] segment) whose
    segments begin with those of the resolved sandbox root; presenting it
    again gives it back. *)
Theorem accepted_path_is_inside_the_sandbox (cwd0 : string) (ctx : TerminalContext)
    (userPath abs : string) :
  Path.isAbsolute cwd0 = true ->
  resolveSandboxPath cwd0 ctx userPath = Ok abs ->
  normalAbs abs /\
  Path.segments (Path.resolve cwd0 [sandboxRootAbs ctx]) `prefix_of` Path.segments abs /\
  resolveSandboxPath cwd0 ctx abs = Ok abs.
Proof.
  intros Hcwd H.
  pose proof (resolveSandboxPath_confined cwd0 ctx userPath abs H) as Hin.
  assert (Hn : normalAbs abs).
  { unfold resolveSandboxPath in H. cbv zeta in H.
    destruct (_ || _) in H; [discriminate|]. injection H as <-.
    destruct (Path.isAbsolute userPath); apply resolve_normalAbs; now left. }
  rewrite (resolve_fixes_normalAbs cwd0 abs Hn) in Hin.
  split; [assumption|]. split; [assumption|].
  unfold resolveSandboxPath in *. cbv zeta in *.
  rewrite (normalAbs_isAbsolute abs Hn), (resolve_fixes_normalAbs cwd0 abs Hn).
  destruct (Path.isAbsolute userPath);
    (destruct (_ || _) eqn:E in H; [discriminate|]; injection H as H; rewrite H in E;
     now rewrite E).
Qed.

(** X8.  [cancel] removes the token from the store whether or not the
    audit append succeeds, and starts nothing; the answer says whether the
    token was there; a later [confirm] of the token finds it unknown. *)
Theorem cancel_retires_the_token (ctx : TerminalContext) (tok : string) (env : Env) (w : World) :
  let r := fst (toolCancel ctx tok env w) in
  let w' := snd (toolCancel ctx tok env w) in
  pending w' = delete tok (pending w) /\
  spawns (trace w') = spawns (trace w) /\
  (forall res, r = Ok res ->
     text res = if bool_decide (is_Some (pending w !! tok))
                then "Cancelled pending confirmation."
                else "No pending confirmation for that token.") /\
  (forall env', toolConfirm ctx tok env' w' = (Err ConfirmationMissing unknownTokenText, w')).
Proof.
  cbv zeta.
  assert (Hp : pending (snd (toolCancel ctx tok env w)) = delete tok (pending w)).
  { destruct (toolCancel_eq ctx tok env w) as (r & evs & -> & _). reflexivity. }
  split; [assumption|]. split; [|split].
  - destruct (toolCancel_eq ctx tok env w) as (r & evs & -> & Hq).
    cbn [snd trace store extend]. rewrite spawns_app, (spawns_quiet evs Hq). apply app_nil_r.
  - intros res. unfold toolCancel.
    unfold mbind, mret, M_bind, M_ret, pendingDelete. rewrite appendAudit_eq. cbv zeta.
    cbn [fst]. destruct (appendOk env _); cbn [fst]; [|discriminate].
    intros [= <-]. reflexivity.
  - intros env'. apply toolConfirm_unknown. rewrite Hp. apply lookup_delete_eq.
Qed.

(** X9.  The time window of a confirmation.  A token that [run] issues
    at clock reading [t] is accepted by [confirm] as long as the clock
    reads at most [t + confirmTtlSeconds * 1000] (90 seconds when the
    policy sets none): the record then moves to stage 2 under a new token
    and no process starts.  After that instant [confirm] fails with the
    expiry error, removes the record and starts no process. *)
Theorem confirmation_window (ctx : TerminalContext) (params : RunParams) (env : Env)
    (w : World) (cwdAbs why : string) :
  admitted RegExp ctx params env cwdAbs ->
  isDangerous RegExp ctx (rp_command params) (default [] (rp_args params)) = Ok (Some why) ->
  let p := stage1Record ctx env w (rp_command params) (default [] (rp_args params))
             cwdAbs why in
  let w1 := snd (toolRun RegExp ctx params env w) in
  let now := clock env (length (trace w1)) in
  let r := fst (toolConfirm ctx (token p) env w1) in
  let w2 := snd (toolConfirm ctx (token p) env w1) in
  expiresAtMs p = clock env (length (trace w)) + default 90 (confirmTtlSeconds (policy ctx)) * 1000 /\
  spawns (trace w2) = spawns (trace w) /\
  (now <= expiresAtMs p ->
   let p2 := stage2Record ctx env w1 p in
   pending w2 = <[token p2 := p2]> (delete (token p) (pending w1)) /\
   command p2 = rp_command params /\ args p2 = default [] (rp_args params) /\
   cwd p2 = cwdAbs /\ stage p2 = Stage2) /\
  (expiresAtMs p < now ->
   r = Err ConfirmationExpired "Confirmation token expired" /\
   pending w2 !! token p = None).
Proof.
  intros Hadm Hd p w1 now r w2.
  assert (Hw1 : pending w1 !! token p = Some p /\ spawns (trace w1) = spawns (trace w)).
  { subst w1. rewrite (toolRun_dangerous RegExp ctx params env w cwdAbs why Hadm Hd).
    cbn [snd pending trace store extend]. split; [apply lookup_insert_eq|].
    rewrite spawns_app. apply app_nil_r. }
  destruct Hw1 as [Hp Hsp]. split; [reflexivity|].
  destruct (expired env w1 p) eqn:He.
  - assert (Hlate : expiresAtMs p < now) by (unfold expired in He; subst now; lia).
    subst r w2. rewrite (toolConfirm_expired ctx (token p) env w1 p Hp He).
    cbn [fst snd pending trace store extend]. split; [|split].
    + rewrite spawns_app, Hsp. apply app_nil_r.
    + lia.
    + intros _. split; [reflexivity | apply lookup_delete_eq].
  - assert (Hearly : now <= expiresAtMs p) by (unfold expired in He; subst now; lia).
    subst r w2.
    rewrite (toolConfirm_stage1 ctx (token p) env w1 p Hp He eq_refl).
    cbn [fst snd pending trace store extend]. split; [|split].
    + rewrite spawns_app, Hsp. apply app_nil_r.
    + intros _. repeat split.
    + lia.
Qed.

(** X10.  Two confirmations in time run the command once.  After [run]
    has issued token [t1] for a flagged command line, [confirm t1] starts
    nothing and issues [t2]; [confirm t2] starts exactly that command line
    in the resolved directory; afterwards neither token is in the store. *)
Theorem two_confirmations_run_the_command (ctx : TerminalContext) (params : RunParams)
    (env : Env) (w : World) (cwdAbs why : string) :
  admitted RegExp ctx params env cwdAbs ->
  isDangerous RegExp ctx (rp_command params) (default [] (rp_args params)) = Ok (Some why) ->
  let w1 := snd (toolRun RegExp ctx params env w) in
  let t1 := uuid env (S (length (trace w))) in
  let w2 := snd (toolConfirm ctx t1 env w1) in
  let t2 := uuid env (S (S (length (trace w1)))) in
  let w3 := snd (toolConfirm ctx t2 env w2) in
  clock env (length (trace w1)) <= clock env (length (trace w)) + ttlMs ctx ->
  clock env (length (trace w2)) <= clock env (S (length (trace w1))) + ttlMs ctx ->
  spawns (trace w2) = spawns (trace w) /\
  spawns (trace w3)
  = (spawns (trace w) ++ [(rp_command params, default [] (rp_args params), cwdAbs)])%list /\
  pending w3 !! t1 = None /\
  pending w3 !! t2 = None.
Proof.
  intros Hadm Hd w1 t1 w2 t2 w3 Hfirst Hsecond.
  set (p := stage1Record ctx env w (rp_command params) (default [] (rp_args params))
              cwdAbs why).
  assert (Hw1 : w1 = store (<[t1 := p]> (pending w))
                       (extend w [EvClock (createdAtMs p); EvUUID t1;
                                  EvClock (clock env (S (S (length (trace w)))));
                                  EvAppend (auditLogAbs ctx)
                                    (clock env (S (S (length (trace w)))))
                                    (run_requires_confirmation_stage1 t1 (rp_command params)
                                       (default [] (rp_args params)) cwdAbs why)
                                    (appendOk env (S (S (S (length (trace w))))))])).
  { subst w1. now rewrite (toolRun_dangerous RegExp ctx params env w cwdAbs why Hadm Hd). }
  assert (Hp1 : pending w1 !! t1 = Some p) by (rewrite Hw1; apply lookup_insert_eq).
  assert (He1 : expired env w1 p = false).
  { unfold expired. apply Z.ltb_ge. exact Hfirst. }
  set (p2 := stage2Record ctx env w1 p).
  assert (Hw2 : w2 = store (<[t2 := p2]> (delete t1 (pending w1)))
                       (extend w1 [EvClock (clock env (length (trace w1)));
                                   EvClock (createdAtMs p2); EvUUID t2;
                                   EvClock (clock env (S (S (S (length (trace w1))))));
                                   EvAppend (auditLogAbs ctx)
                                     (clock env (S (S (S (length (trace w1))))))
                                     (confirm_stage1_issued_stage2 t1 t2 (command p) (args p)
                                        (cwd p) (reason p))
                                     (appendOk env (S (S (S (S (length (trace w1)))))))])).
  { subst w2. now rewrite (toolConfirm_stage1 ctx t1 env w1 p Hp1 He1 eq_refl). }
  assert (Hp2 : pending w2 !! t2 = Some p2) by (rewrite Hw2; apply lookup_insert_eq).
  assert (He2 : expired env w2 p2 = false).
  { unfold expired. apply Z.ltb_ge. exact Hsecond. }
  destruct (toolConfirm_stage2 ctx t2 env w2 p2 Hp2 He2 eq_refl) as (r & evs & Hw3 & Hq & _).
  apply (f_equal snd) in Hw3. cbn [snd] in Hw3.
  change (snd (toolConfirm ctx t2 env w2)) with w3 in Hw3.
  assert (Hs1 : spawns (trace w1) = spawns (trace w)).
  { rewrite Hw1. cbn [trace store extend]. rewrite spawns_app. apply app_nil_r. }
  assert (Hs2 : spawns (trace w2) = spawns (trace w)).
  { rewrite Hw2. cbn [trace store extend]. rewrite spawns_app, Hs1. apply app_nil_r. }
  split; [assumption|]. split; [|split].
  - rewrite Hw3. cbn [trace store extend]. rewrite spawns_app, Hs2. f_equal.
    apply (spawns_around [_]); [repeat constructor | assumption].
  - rewrite Hw3. cbn [pending store extend]. rewrite lookup_delete. case_decide; [reflexivity|].
    rewrite Hw2. cbn [pending store extend]. rewrite lookup_insert_ne by assumption.
    apply lookup_delete_eq.
  - rewrite Hw3. cbn [pending store extend]. apply lookup_delete_eq.
Qed.

End StoreMore.

Section StoreSamples.

Import Runner Terminal.

Lemma accepted_path_is_inside_the_sandbox_witness :
  normalAbs "/tmp/s/a/b" /\
  Path.segments (Path.resolve "/tmp/s" [sandboxRootAbs rmSandbox])
    `prefix_of` Path.segments "/tmp/s/a/b" /\
  resolveSandboxPath "/tmp/s" rmSandbox "/tmp/s/a/b" = Ok "/tmp/s/a/b".
Proof.
  exact (accepted_path_is_inside_the_sandbox "/tmp/s" rmSandbox "a/./b" "/tmp/s/a/b"
           eq_refl eq_refl).
Defined.

Definition rmReason : string :=
  "Command " ++ Js.dq ++ "rm" ++ Js.dq ++ " is marked dangerous by policy".

Lemma confirmation_window_witness :
  spawns (trace (snd (toolConfirm rmSandbox "T1" calmEnv
                        (snd (toolRun noRegExp rmSandbox runRm calmEnv emptyWorld)))))
  = spawns (trace emptyWorld).
Proof.
  refine (proj1 (proj2 (confirmation_window noRegExp rmSandbox runRm calmEnv emptyWorld
                          "/tmp/s" rmReason _ _))).
  - repeat split; reflexivity.
  - reflexivity.
Defined.

Lemma two_confirmations_run_the_command_witness :
  spawns (trace (snd (toolConfirm rmSandbox "T6" calmEnv
                        (snd (toolConfirm rmSandbox "T1" calmEnv
                                (snd (toolRun noRegExp rmSandbox runRm calmEnv emptyWorld)))))))
  = [("rm", ["-rf"; "x"], "/tmp/s")].
Proof.
  refine (proj1 (proj2 (two_confirmations_run_the_command noRegExp rmSandbox runRm calmEnv
                          emptyWorld "/tmp/s" rmReason _ _ _ _))).
  - repeat split; reflexivity.
  - reflexivity.
  - vm_compute. discriminate.
  - vm_compute. discriminate.
Defined.

End StoreSamples.

Section SshKeyMore.

Import Runner Terminal.

Lemma isNameChar_facts (c : ascii) :
  isNameChar c = true -> Js.isWhite c = false /\ Ascii.eqb c "/" = false.
Proof. destruct c as [[] [] [] [] [] [] [] []]; cbn; intros H; try discriminate; now split. Qed.

Lemma allNameChars_noSlash (s : string) : allNameChars s = true -> noSlash s = true.
Proof.
  induction s as [|c s IH]; cbn [allNameChars noSlash]; [reflexivity|].
  intros H. apply andb_true_iff in H as [Hc Hs].
  destruct (isNameChar_facts c Hc) as [_ ->]. now rewrite IH.
Qed.

Lemma trimEnd_nameChars (s : string) : allNameChars s = true -> Js.trimEnd s = s.
Proof.
  induction s as [|c s IH]; cbn [allNameChars Js.trimEnd]; [reflexivity|].
  intros H. apply andb_true_iff in H as [Hc Hs]. rewrite (IH Hs).
  destruct (isNameChar_facts c Hc) as [-> _]. now destruct s.
Qed.

Lemma trim_nameChars (s : string) : allNameChars s = true -> Js.trim s = s.
Proof.
  intros H. unfold Js.trim.
  assert (Hstart : Js.trimStart s = s).
  { destruct s as [|c s]; [reflexivity|]. cbn [allNameChars] in H.
    apply andb_true_iff in H as [Hc _]. cbn [Js.trimStart].
    now destruct (isNameChar_facts c Hc) as [-> _]. }
  rewrite Hstart. now apply trimEnd_nameChars.
Qed.

Lemma includes_slash (s : string) : Js.includes s "/" = negb (noSlash s).
Proof.
  induction s as [|c s IH]; [reflexivity|].
  cbn [Js.includes Js.startsWith noSlash]. rewrite IH.
  rewrite (Ascii.eqb_sym "/" c). destruct (Ascii.eqb c "/"); reflexivity.
Qed.

Lemma ensureSafeSshKeyFileName_plain (name f : string) :
  ensureSafeSshKeyFileName name = Ok f ->
  f = Js.trim name /\ allNameChars f = true /\ plainSegment f = true.
Proof.
  unfold ensureSafeSshKeyFileName. cbv zeta.
  destruct (Js.truthy (Js.trim name)) eqn:Ht; cbn [negb]; [|discriminate].
  destruct (Js.includes (Js.trim name) "/" || Js.includes (Js.trim name) "\") eqn:Hsep;
    [discriminate|].
  destruct (String.eqb (Js.trim name) "." || String.eqb (Js.trim name) "..") eqn:Hdot;
    [discriminate|].
  destruct (matchesNamePattern (Js.trim name)) eqn:Hpat; cbn [negb]; [|discriminate].
  intros [= <-].
  assert (Hall : allNameChars (Js.trim name) = true).
  { unfold matchesNamePattern in Hpat. now apply andb_true_iff in Hpat as [_ ?]. }
  split; [reflexivity|]. split; [assumption|].
  unfold plainSegment. rewrite (allNameChars_noSlash _ Hall).
  apply orb_false_iff in Hdot as [-> ->].
  unfold Js.truthy in Ht. now rewrite Ht.
Qed.

(** X11.  A key file name that [ensureSafeSshKeyFileName] accepts is the
    trimmed input; it is made of letters, digits, dots, underscores and
    hyphens only, is not empty, is neither ["."] nor [".."], and contains
    no slash; the function gives it back unchanged when applied again. *)
Theorem accepted_key_file_name_is_a_plain_name (name f : string) :
  ensureSafeSshKeyFileName name = Ok f ->
  f = Js.trim name /\
  allNameChars f = true /\
  plainSegment f = true /\
  ensureSafeSshKeyFileName f = Ok f.
Proof.
  intros H. destruct (ensureSafeSshKeyFileName_plain name f H) as (Htrim & Hall & Hplain).
  repeat split; try assumption.
  unfold ensureSafeSshKeyFileName. cbv zeta. rewrite (trim_nameChars f Hall).
  unfold plainSegment in Hplain. rewrite !andb_true_iff, !negb_true_iff in Hplain.
  destruct Hplain as (((Hslash & He) & Hd) & Hdd).
  unfold Js.truthy. rewrite He. cbn [negb].
  rewrite includes_slash, Hslash. cbn [negb orb].
  assert (Hback : Js.includes f "\" = false).
  { clear -Hall. induction f as [|c f IH]; [reflexivity|].
    cbn [allNameChars] in Hall. apply andb_true_iff in Hall as [Hc Hf].
    cbn [Js.includes Js.startsWith]. rewrite (IH Hf).
    destruct (Ascii.eqb_spec "\" c) as [<-|_]; [discriminate | reflexivity]. }
  rewrite Hback, Hd, Hdd. cbn [orb].
  unfold matchesNamePattern, Js.truthy. rewrite He, Hall. reflexivity.
Qed.

Lemma accepted_key_file_name_is_a_plain_name_witness :
  "id_rsa" = Js.trim " id_rsa " /\
  allNameChars "id_rsa" = true /\
  plainSegment "id_rsa" = true /\
  ensureSafeSshKeyFileName "id_rsa" = Ok "id_rsa".
Proof.
  exact (accepted_key_file_name_is_a_plain_name " id_rsa " "id_rsa" eq_refl).
Defined.

End SshKeyMore.

Section KeygenPermissions.

Import Runner Terminal.

Lemma normalizeSegments_lead (a : bool) (segs : list string) :
  Forall (fun s => plainSegment s = true) segs ->
  Path.normalizeSegments a ("" :: segs) = segs.
Proof.
  intros H. unfold Path.normalizeSegments. cbn [fold_left].
  change (Path.pushSegment a [] "") with (@nil string).
  rewrite fold_pushSegment_plain by assumption.
  now rewrite app_nil_r, rev_involutive.
Qed.

Lemma endsWithSlash_app (s f : string) :
  f <> "" -> Path.endsWithSlash (s ++ f) = Path.endsWithSlash f.
Proof.
  intros Hf. induction s as [|c s IH]; [reflexivity|].
  rewrite string_app_cons. destruct (s ++ f) as [|a s1] eqn:E.
  - exfalso. destruct s; [change ("" ++ f) with f in E; congruence | discriminate].
  - exact IH.
Qed.

Lemma endsWithSlash_noSlash (f : string) : noSlash f = true -> Path.endsWithSlash f = false.
Proof.
  induction f as [|c f IH]; [reflexivity|]. cbn [noSlash]. intros H.
  apply andb_true_iff in H as [Hc Hf]. cbn [Path.endsWithSlash]. rewrite (IH Hf).
  destruct f; [now apply negb_true_iff in Hc | reflexivity].
Qed.

Lemma joinSegments_nonempty (segs : list string) (f : string) :
  f <> "" -> Path.joinSegments (segs ++ [f]) <> "".
Proof.
  intros Hf. destruct segs as [|x l]; [exact Hf|].
  rewrite joinSegments_snoc by discriminate.
  intros H. apply (f_equal String.length) in H.
  rewrite !string_length_app in H. cbn in H. lia.
Qed.

Lemma plainSegment_nonempty (f : string) : plainSegment f = true -> f <> "".
Proof. intros H ->. discriminate. Qed.

(** [path.join(dir, name)] for a directory in normal form and a plain
    name *)
Lemma join_plain (segs : list string) (f : string) :
  Forall (fun s => plainSegment s = true) segs ->
  plainSegment f = true ->
  Path.join ["/" ++ Path.joinSegments segs; f] = "/" ++ Path.joinSegments (segs ++ [f]).
Proof.
  intros Hsegs Hf.
  pose proof (plainSegment_nonempty f Hf) as Hne.
  pose proof (plainSegment_noSlash f Hf) as Hslash.
  assert (Hall : Forall (fun s => plainSegment s = true) (segs ++ [f])).
  { apply Forall_app. split; [assumption | now constructor]. }
  assert (Hparts : filter (fun a : string => a <> "") ["/" ++ Path.joinSegments segs; f]
                   = ["/" ++ Path.joinSegments segs; f]).
  { rewrite filter_cons_True by discriminate. now rewrite filter_cons_True by assumption. }
  unfold Path.join. cbv zeta. rewrite Hparts. cbv beta iota.
  change (String.concat "/" ["/" ++ Path.joinSegments segs; f])
    with (("/" ++ Path.joinSegments segs) ++ "/" ++ f).
  unfold Path.normalize.
  change (("/" ++ Path.joinSegments segs) ++ "/" ++ f)
    with (String "/" (Path.joinSegments segs ++ "/" ++ f)).
  cbn [String.eqb Path.isAbsolute negb].
  assert (Hends : Path.endsWithSlash (String "/" (Path.joinSegments segs ++ "/" ++ f)) = false).
  { replace (String "/" (Path.joinSegments segs ++ "/" ++ f))
      with (String "/" (Path.joinSegments segs ++ "/") ++ f)
      by (now rewrite string_app_cons, string_app_assoc).
    now rewrite (endsWithSlash_app _ f Hne), (endsWithSlash_noSlash f Hslash). }
  rewrite Hends.
  assert (Hn : Path.normalizeString (String "/" (Path.joinSegments segs ++ "/" ++ f)) false
               = Path.joinSegments (segs ++ [f])).
  { unfold Path.normalizeString. f_equal.
    destruct segs as [|x l].
    - change (String "/" (Path.joinSegments [] ++ "/" ++ f)) with ("" ++ "/" ++ "" ++ "/" ++ f).
      rewrite !split_app_slash, (split_noSlash f Hslash) by reflexivity.
      unfold Path.normalizeSegments. cbn [fold_left].
      change (Path.pushSegment false [] "") with (@nil string).
      change (Path.pushSegment false [] "") with (@nil string).
      now rewrite (pushSegment_plain false [] f Hf).
    - cbn [Path.split].
      assert (Hsl : Forall (fun s => noSlash s = true) (x :: l)).
      { eapply Forall_impl; [exact Hsegs|]. apply plainSegment_noSlash. }
      rewrite split_joinSegments_app by (assumption || discriminate).
      rewrite (split_noSlash f Hslash).
      destruct ((x :: l) ++ [f])%list as [|s0 l0] eqn:E; [discriminate|].
      rewrite Ascii.eqb_refl. apply normalizeSegments_lead. exact Hall. }
  rewrite Hn.
  destruct (String.eqb_spec (Path.joinSegments (segs ++ [f])) "") as [E|_]; [|reflexivity].
  now apply joinSegments_nonempty in E.
Qed.

Lemma get_noSlash (f : string) (k : nat) :
  noSlash f = true -> (k < String.length f)%nat ->
  exists c, String.get k f = Some c /\ Ascii.eqb c "/" = false.
Proof.
  revert k. induction f as [|c f IH]; intros k H Hk; [cbn in Hk; lia|].
  cbn [noSlash] in H. apply andb_true_iff in H as [Hc Hf].
  destruct k as [|k]; cbn [String.get].
  - exists c. split; [reflexivity | now apply negb_true_iff in Hc].
  - apply IH; [assumption | cbn in Hk; lia].
Qed.

Lemma dirnameEnd_step (p : string) (i : nat) (b : bool) (c : ascii) :
  String.get (S i) p = Some c -> Ascii.eqb c "/" = false ->
  Path.dirnameEnd p (S i) b = Path.dirnameEnd p i false.
Proof.
  intros Hget Hc. cbn [Path.dirnameEnd]. rewrite Hget.
  destruct c as [[] [] [] [] [] [] [] []]; try reflexivity. discriminate.
Qed.

Lemma get_tail (X f : string) (k : nat) :
  String.get (S (String.length X + k)) (X ++ "/" ++ f) = String.get k f.
Proof.
  replace (S (String.length X + k)) with (S k + String.length X)%nat by lia.
  now rewrite <- (append_correct2 X ("/" ++ f) (S k)).
Qed.

Lemma dirnameEnd_tail (X f : string) (k : nat) :
  noSlash f = true -> (k <= String.length f)%nat ->
  Path.dirnameEnd (X ++ "/" ++ f) (String.length X + k) false
  = if (String.length X =? 0)%nat then None else Some (String.length X).
Proof.
  intros Hf. induction k as [|k IH]; intros Hk.
  - rewrite Nat.add_0_r. destruct (String.length X) as [|n] eqn:E; [reflexivity|].
    cbn [Nat.eqb Path.dirnameEnd].
    assert (Hget : String.get (S n) (X ++ "/" ++ f) = Some "/"%char).
    { rewrite <- E. rewrite <- (Nat.add_0_l (String.length X)).
      now rewrite <- (append_correct2 X ("/" ++ f) 0). }
    now rewrite Hget.
  - destruct (get_noSlash f k Hf ltac:(lia)) as (c & Hget & Hc).
    rewrite Nat.add_succ_r.
    rewrite (dirnameEnd_step _ _ false c); [apply IH; lia | | assumption].
    now rewrite get_tail.
Qed.

Lemma dirname_tail (X f : string) :
  noSlash f = true -> f <> "" ->
  Path.dirnameEnd (X ++ "/" ++ f) (String.length (X ++ "/" ++ f) - 1) true
  = if (String.length X =? 0)%nat then None else Some (String.length X).
Proof.
  intros Hf Hne. rewrite !string_length_app. cbn [String.length].
  destruct (String.length f) as [|m] eqn:E; [destruct f; [congruence | discriminate]|].
  replace (String.length X + (1 + S m) - 1)%nat with (S (String.length X + m)) by lia.
  destruct (get_noSlash f m Hf ltac:(lia)) as (c & Hget & Hc).
  rewrite (dirnameEnd_step _ _ true c); [apply dirnameEnd_tail; [assumption | lia] | | assumption].
  now rewrite get_tail.
Qed.

Lemma take_prefix (s t : string) : Js.take (String.length s) (s ++ t) = s.
Proof.
  induction s as [|c s IH]; [now destruct t|].
  rewrite string_app_cons. cbn [String.length Js.take]. now rewrite IH.
Qed.

(** the directory of [dir/name] is [dir] *)
Lemma dirname_join (segs : list string) (f : string) :
  Forall (fun s => plainSegment s = true) segs ->
  plainSegment f = true ->
  Path.dirname ("/" ++ Path.joinSegments (segs ++ [f])) = "/" ++ Path.joinSegments segs.
Proof.
  intros Hsegs Hf.
  pose proof (plainSegment_nonempty f Hf) as Hne.
  pose proof (plainSegment_noSlash f Hf) as Hslash.
  unfold Path.dirname.
  change (String.eqb ("/" ++ ?x) "") with false. cbv iota.
  change (Path.isAbsolute ("/" ++ ?x)) with true. cbv iota.
  destruct segs as [|x l].
  - change ("/" ++ Path.joinSegments ([] ++ [f])) with ("" ++ "/" ++ f).
    now rewrite (dirname_tail "" f Hslash Hne).
  - rewrite joinSegments_snoc by discriminate.
    replace ("/" ++ Path.joinSegments (x :: l) ++ "/" ++ f)
      with (("/" ++ Path.joinSegments (x :: l)) ++ "/" ++ f)
      by (now rewrite string_app_assoc).
    rewrite (dirname_tail _ f Hslash Hne).
    assert (Hlen : (2 <= String.length ("/" ++ Path.joinSegments (x :: l)))%nat).
    { inversion Hsegs as [|? ? Hx _]; subst.
      pose proof (plainSegment_nonempty x Hx) as Hxne.
      change ("/" ++ Path.joinSegments (x :: l)) with (String "/" (Path.joinSegments (x :: l))).
      cbn [String.length].
      destruct l as [|y l']; [destruct x; [congruence | cbn; lia]|].
      rewrite joinSegments_cons, string_length_app. destruct x; [congruence | cbn; lia]. }
    destruct (String.length ("/" ++ Path.joinSegments (x :: l))) as [|[|n]] eqn:E; [lia | lia |].
    cbn [Nat.eqb andb]. rewrite <- E. apply take_prefix.
Qed.

(** the directory of a key file, resolved, is [~/.ssh]: the test that
    the post-processing of [confirm] makes *)
Lemma keyPath_dirname (env : Env) (f : string) :
  Path.isAbsolute (processCwd env) = true ->
  plainSegment f = true ->
  Path.resolve (processCwd env) [Path.dirname (sshKeyPath env f)]
  = Path.resolve (processCwd env) [homedir env; ".ssh"] /\
  Path.isAbsolute (sshKeyPath env f) = true.
Proof.
  intros Hcwd Hf. unfold sshKeyPath.
  destruct (resolve_normalAbs (processCwd env) [homedir env; ".ssh"]) as (segs & Hsegs & E);
    [now left|].
  rewrite E, (join_plain segs f Hsegs Hf), (dirname_join segs f Hsegs Hf).
  split; [|reflexivity].
  apply resolve_fixes_normalAbs. now exists segs.
Qed.

Lemma findIndex_f (kt : KeyType) (keyPath comment pass : string) :
  findIndex "-f" (sshKeygenArgs kt keyPath comment pass) = Some 2%nat /\
  sshKeygenArgs kt keyPath comment pass !! 3%nat = Some keyPath.
Proof. destruct kt; split; reflexivity. Qed.

Lemma isAbsolute_truthy (p : string) : Path.isAbsolute p = true -> Js.truthy p = true.
Proof. destruct p; [discriminate | reflexivity]. Qed.

Lemma sshKeygenPostProcess_keygen (p : PendingConfirmation) (env : Env) (w : World)
    (f : string) (kt : KeyType) (comment pass : string) :
  Path.isAbsolute (processCwd env) = true ->
  plainSegment f = true ->
  command p = "ssh-keygen" ->
  args p = sshKeygenArgs kt (sshKeyPath env f) comment pass ->
  sshKeygenPostProcess p env w
  = (Ok tt, extend w [EvChmod (Path.resolve (processCwd env) [homedir env; ".ssh"]) 448;
                      EvChmod (sshKeyPath env f) 384;
                      EvChmod (sshKeyPath env f ++ ".pub") 420]).
Proof.
  intros Hcwd Hf Hc Ha.
  destruct (keyPath_dirname env f Hcwd Hf) as [Hdir Habs].
  unfold sshKeygenPostProcess. rewrite Hc, Ha. cbn [String.eqb Ascii.eqb Bool.eqb].
  unfold mbind, mret, M_bind, M_ret, ask.
  destruct (findIndex_f kt (sshKeyPath env f) comment pass) as [-> Hlook].
  cbn [option_bind mbind]. unfold mbind, option_bind. rewrite Hlook.
  rewrite (isAbsolute_truthy _ Habs), Hdir, String.eqb_refl.
  unfold chmod, extend. cbn. now rewrite <- !List.app_assoc.
Qed.



End KeygenPermissions.

(** ** More on the agent loop *)

Section LoopMore.

Import Json Chatbot.

Variable servers : list string.
Variable cfg : ChatbotConfig.
Variable parseSshWizardInput : string -> fields_t.

Ltac run_l :=
  unfold mbind, mret, C_bind, C_ret, historyPush, setAwaiting, getAwaiting, record;
  cbn [fst snd history awaitingSshWizardInput ctrace].

(** the requests to the model of a trace, by their extra system message *)
Definition modelCalls (t : list ChatEvent) : list (option string) :=
  omap (fun e => match e with
                 | EvModel nudge _ => Some nudge
                 | EvCallTool _ _ _ _ => None
                 end) t.

Lemma modelCalls_app (t1 t2 : list ChatEvent) :
  modelCalls (t1 ++ t2) = (modelCalls t1 ++ modelCalls t2)%list.
Proof. unfold modelCalls. apply omap_app. Qed.

(** a tool call that the loop may make: to a connected server, past the
    two gates *)
Definition permitted (call : string * string * fields_t) : Prop :=
  let '(srv, tl, args) := call in
  findServer servers srv = true /\ gated srv tl args = false.

(** what a turn, or a part of one, does to the world: it appends events
    and messages *)
Record Grows (w w' : ChatWorld) (evs : list ChatEvent) (msgs : list ChatMsg) : Prop := {
  grows_trace : ctrace w' = (ctrace w ++ evs)%list;
  grows_history : history w' = (history w ++ msgs)%list
}.

Lemma Grows_refl (w : ChatWorld) : Grows w w [] [].
Proof. split; now rewrite app_nil_r. Qed.

Lemma Grows_trans (w1 w2 w3 : ChatWorld) (e1 e2 : list ChatEvent) (m1 m2 : list ChatMsg) :
  Grows w1 w2 e1 m1 -> Grows w2 w3 e2 m2 -> Grows w1 w3 (e1 ++ e2) (m1 ++ m2).
Proof.
  intros [Ht1 Hh1] [Ht2 Hh2]. split.
  - now rewrite Ht2, Ht1, <- List.app_assoc.
  - now rewrite Hh2, Hh1, <- List.app_assoc.
Qed.

Definition fromLoop (m : ChatMsg) : Prop := role m = assistant \/ role m = tool.

Lemma dispatchStep_shape (step : Z) (seen : gset string) (srv tl : string) (args : fields_t)
    (env : ChatEnv) (w : ChatWorld) :
  exists (calls : list ChatEvent) (msgs : list ChatMsg),
    Grows w (snd (dispatchStep servers cfg step seen srv tl args env w)) calls msgs /\
    Forall fromLoop msgs /\
    modelCalls calls = [] /\
    (calls = [] \/
     exists reply, calls = [EvCallTool srv tl args reply] /\ permitted (srv, tl, args)).
Proof.
  unfold dispatchStep.
  destruct ((srv =? "terminal-server")%string && (tl =? "confirm")%string) eqn:G1.
  { exists [], []. split; [apply Grows_refl|]. split; [constructor|]. split; [reflexivity|].
    now left. }
  destruct ((srv =? "terminal-server")%string && (tl =? "generate_ssh_key")%string
            && negb (hasAnyOption args)) eqn:G2.
  { exists [], []. run_l. split; [split; cbn; now rewrite app_nil_r|].
    split; [constructor|]. split; [reflexivity|]. now left. }
  assert (Hgate : gated srv tl args = false) by (unfold gated; now rewrite G1, G2).
  destruct (bool_decide (callKey srv tl args ∈ seen)).
  { eexists [], [_]. run_l. split; [split; cbn; [now rewrite app_nil_r | reflexivity]|].
    split; [repeat constructor; now right|]. split; [reflexivity|]. now left. }
  run_l.
  destruct (maxSteps cfg - 2 <=? step); cbn [fst snd ctrace history awaitingSshWizardInput];
    (destruct (findServer servers srv) eqn:Hsrv; cbn [negb fst snd ctrace history];
     [ match goal with |- context [EvCallTool srv tl args ?reply] =>
         destruct reply as [a|e m] eqn:Hreply
       end;
       cbn [fst snd ctrace history];
       [ repeat (case_match; cbn [fst snd ctrace history]) | ]
     | ]).
  all: try (eexists [EvCallTool srv tl args _], _;
            split; [split; cbn [ctrace history]; [reflexivity | rewrite <- ?List.app_assoc; reflexivity]|];
            split; [repeat constructor; now right|];
            split; [reflexivity|];
            right; eexists; split; [reflexivity | now split]).
  all: eexists [], _;
       (split; [split; cbn [ctrace history]; [now rewrite app_nil_r | rewrite <- ?List.app_assoc; reflexivity]|]);
       (split; [repeat constructor; now right|]);
       (split; [reflexivity | now left]).
Qed.

Lemma callModel_shape (nudge : option string) (env : ChatEnv) (w : ChatWorld) :
  exists reply,
    Grows w (snd (callModel nudge env w)) [EvModel nudge reply] [] /\
    awaitingSshWizardInput (snd (callModel nudge env w)) = awaitingSshWizardInput w.
Proof.
  unfold callModel. run_l. eexists. split; [split|]; cbn; [reflexivity | now rewrite app_nil_r | reflexivity].
Qed.

(** one iteration: one or two requests to the model, then at most one
    permitted tool call *)
Lemma iteration_shape (step : Z) (seen : gset string) (env : ChatEnv) (w : ChatWorld) :
  exists (models calls : list ChatEvent) (msgs : list ChatMsg),
    Grows w (snd (iteration servers cfg step seen env w)) (models ++ calls) msgs /\
    Forall fromLoop msgs /\
    dispatches models = [] /\ (length (modelCalls models) <= 2)%nat /\
    modelCalls calls = [] /\
    (calls = [] \/
     exists srv tl args reply,
       calls = [EvCallTool srv tl args reply] /\ permitted (srv, tl, args)).
Proof.
  unfold iteration.
  unfold mbind at 1. unfold C_bind at 1.
  destruct (callModel None env w) as [first w1] eqn:E1.
  destruct (callModel_shape None env w) as (reply1 & G1 & _). rewrite E1 in G1. cbn [snd] in G1.
  unfold mbind at 1. unfold C_bind at 1.
  assert (Hsecond : exists (modelResp : Result (string * Action)) (w2 : ChatWorld)
                           (models : list ChatEvent),
    match first with
    | Ok _ => mret first
    | Err _ _ => callModel (Some repairNudge)
    end env w1 = (modelResp, w2) /\
    Grows w w2 models [] /\ dispatches models = [] /\ (length (modelCalls models) <= 2)%nat).
  { destruct first as [ok|e m].
    - exists (Ok ok), w1, [EvModel None reply1]. repeat split; try apply G1; cbn; lia.
    - destruct (callModel (Some repairNudge) env w1) as [second w2] eqn:E2.
      destruct (callModel_shape (Some repairNudge) env w1) as (reply2 & G2 & _).
      rewrite E2 in G2. cbn [snd] in G2.
      exists second, w2, [EvModel None reply1; EvModel (Some repairNudge) reply2].
      split; [reflexivity|]. split; [exact (Grows_trans _ _ _ _ _ _ _ G1 G2)|].
      split; [reflexivity | cbn; lia]. }
  destruct Hsecond as (modelResp & w2 & models & -> & G2 & Hd & Hm).
  destruct modelResp as [[raw action]|e m].
  2:{ exists models, [], []. cbn [snd]. rewrite app_nil_r.
      split; [exact G2|]. split; [constructor|]. split; [assumption|]. split; [assumption|].
      split; [reflexivity | now left]. }
  run_l.
  destruct action as [srv tl args|t].
  2:{ exists models, [], [{| role := assistant; content := Js.trim raw |}].
      cbn [snd]. rewrite app_nil_r. destruct G2 as [Ht Hh]. rewrite app_nil_r in Hh.
      split; [split; cbn [ctrace history]; [assumption | now rewrite Hh]|].
      split; [repeat constructor; now left|]. split; [assumption|]. split; [assumption|].
      split; [reflexivity | now left]. }
  match goal with |- context [dispatchStep servers cfg step seen srv tl args env ?w3] =>
    destruct (dispatchStep_shape step seen srv tl args env w3) as (calls & msgs & G3 & Hf & Hmc & Hc);
    set (w4 := snd (dispatchStep servers cfg step seen srv tl args env w3)) in *
  end.
  exists models, calls, ({| role := assistant; content := Js.trim raw |} :: msgs).
  destruct G2 as [Ht2 Hh2]. rewrite app_nil_r in Hh2.
  destruct G3 as [Ht3 Hh3]. cbn [ctrace history] in Ht3, Hh3.
  split; [split|].
  - now rewrite Ht3, Ht2, <- List.app_assoc.
  - rewrite Hh3, Hh2, <- List.app_assoc. reflexivity.
  - split; [constructor; [now left | assumption]|].
    split; [assumption|]. split; [assumption|]. split; [assumption|].
    destruct Hc as [->|(reply & -> & Hp)]; [now left|].
    right. exists srv, tl, args, reply. now split.
Qed.

(** what a run of the loop adds *)
Lemma reasoningLoop_shape (remaining : nat) :
  forall (step : Z) (seen : gset string) (env : ChatEnv) (w : ChatWorld),
  exists (evs : list ChatEvent) (msgs : list ChatMsg),
    Grows w (snd (reasoningLoop servers cfg remaining step seen env w)) evs msgs /\
    Forall fromLoop msgs /\
    Forall permitted (dispatches evs) /\
    (length (dispatches evs) <= remaining)%nat /\
    (length (modelCalls evs) <= 2 * remaining)%nat.
Proof.
  induction remaining as [|remaining IH]; intros step seen env w.
  - exists [], []. cbn. repeat split; try (now rewrite app_nil_r); constructor.
  - cbn [reasoningLoop]. unfold mbind at 1. unfold C_bind at 1.
    destruct (iteration_shape step seen env w)
      as (models & calls & msgs & G & Hf & Hd & Hm & Hmc & Hc).
    destruct (iteration servers cfg step seen env w) as [r w1]. cbn [snd] in G.
    assert (Hcalls : Forall permitted (dispatches calls) /\ (length (dispatches calls) <= 1)%nat).
    { destruct Hc as [->|(srv & tl & args & reply & -> & Hp)].
      - split; [constructor | unfold dispatches; cbn; lia].
      - split; [constructor; [exact Hp | constructor] | unfold dispatches; cbn; lia]. }
    destruct Hcalls as [Hperm Hlen].
    destruct r as [answer|seen'].
    + exists (models ++ calls)%list, msgs. cbn [snd].
      rewrite dispatches_app, modelCalls_app, Hd, Hmc, app_nil_r. cbn [app].
      split; [exact G|]. split; [assumption|]. split; [assumption|]. split; lia.
    + destruct (IH (step + 1) seen' env w1) as (evs & msgs' & G' & Hf' & Hp' & Hl' & Hm').
      exists ((models ++ calls) ++ evs)%list, (msgs ++ msgs')%list.
      split; [exact (Grows_trans _ _ _ _ _ _ _ G G')|].
      rewrite !dispatches_app, !modelCalls_app, Hd, Hmc, app_nil_r. cbn [app].
      rewrite !length_app.
      split; [apply Forall_app; now split|].
      split; [apply Forall_app; now split|].
      split; lia.
Qed.

(** the one call of the wizard, when the terminal server is connected *)
Definition wizardCall (args : fields_t) (evs : list ChatEvent) : Prop :=
  (evs = [] /\ findServer servers "terminal-server" = false) \/
  (exists reply, evs = [EvCallTool "terminal-server" "generate_ssh_key" args reply] /\
                 findServer servers "terminal-server" = true).

Lemma generateSshKeyTurn_shape (args : fields_t) (env : ChatEnv) (w : ChatWorld) :
  exists (evs : list ChatEvent) (msgs : list ChatMsg),
    Grows w (snd (generateSshKeyTurn servers args env w)) evs msgs /\
    Forall fromLoop msgs /\
    awaitingSshWizardInput (snd (generateSshKeyTurn servers args env w))
    = awaitingSshWizardInput w /\
    wizardCall args evs.
Proof.
  unfold generateSshKeyTurn, runTool. run_l.
  destruct (findServer servers "terminal-server") eqn:Hsrv; cbn [fst snd ctrace].
  - match goal with |- context [EvCallTool _ _ _ ?reply] => destruct reply as [a|e m] eqn:Hr end;
      cbn [fst snd ctrace history awaitingSshWizardInput].
    + eexists [_], [_].
      split; [destruct (replyConfirmation a); split; cbn; reflexivity|].
      split; [repeat constructor; now right|].
      split; [now destruct (replyConfirmation a)|].
      right. eexists. split; [reflexivity | assumption].
    + eexists [_], []. split; [split; cbn; [reflexivity | now rewrite app_nil_r]|].
      split; [constructor|]. split; [reflexivity|].
      right. eexists. split; [reflexivity | assumption].
  - exists [], []. split; [apply Grows_refl|]. split; [constructor|]. split; [reflexivity|].
    left. now split.
Qed.

(** the user asked for the defaults in so many words *)
Definition explicitDefaults (userText : string) : bool :=
  let lower := toLowerCase userText in
  Js.includes lower "use defaults" || String.eqb lower "defaults" || String.eqb lower "default".

(** the three kinds of turn *)
Inductive TurnShape (userText : string) (w w' : ChatWorld) (evs : list ChatEvent) : Prop :=
| WizardAnswer :
    awaitingSshWizardInput w = true ->
    awaitingSshWizardInput w' = false ->
    wizardCall (parseSshWizardInput userText) evs ->
    TurnShape userText w w' evs
| KeyIntent :
    awaitingSshWizardInput w = false ->
    isSshKeyIntent userText = true ->
    (explicitDefaults userText = false /\ evs = [] /\ awaitingSshWizardInput w' = true) \/
    (explicitDefaults userText = true /\ wizardCall [] evs /\
     awaitingSshWizardInput w' = false) ->
    TurnShape userText w w' evs
| ModelTurn :
    awaitingSshWizardInput w = false ->
    isSshKeyIntent userText = false ->
    Forall permitted (dispatches evs) ->
    (length (dispatches evs) <= Z.to_nat (maxSteps cfg))%nat ->
    (length (modelCalls evs) <= 2 * Z.to_nat (maxSteps cfg))%nat ->
    TurnShape userText w w' evs.

Lemma handleUserMessage_shape (userText : string) (env : ChatEnv) (w : ChatWorld) :
  exists (evs : list ChatEvent) (msgs : list ChatMsg),
    Grows w (snd (handleUserMessage servers cfg parseSshWizardInput userText env w)) evs
      ({| role := user; content := userText |} :: msgs) /\
    Forall fromLoop msgs /\
    TurnShape userText w
      (snd (handleUserMessage servers cfg parseSshWizardInput userText env w)) evs.
Proof.
  unfold handleUserMessage. run_l.
  destruct (awaitingSshWizardInput w) eqn:Haw.
  - run_l.
    match goal with |- context [generateSshKeyTurn servers ?a env ?w0] =>
      destruct (generateSshKeyTurn_shape a env w0) as (evs & msgs & [Ht Hh] & Hf & Ha & Hc)
    end.
    cbn [ctrace history awaitingSshWizardInput] in Ht, Hh, Ha.
    exists evs, msgs. split; [split; [exact Ht | now rewrite Hh, <- List.app_assoc]|].
    split; [assumption|]. now apply WizardAnswer.
  - destruct (isSshKeyIntent userText) eqn:Hint.
    + fold (explicitDefaults userText).
      destruct (explicitDefaults userText) eqn:Hdef; cbn [negb].
      * match goal with |- context [generateSshKeyTurn servers ?a env ?w0] =>
          destruct (generateSshKeyTurn_shape a env w0) as (evs & msgs & [Ht Hh] & Hf & Ha & Hc)
        end.
        cbn [ctrace history awaitingSshWizardInput] in Ht, Hh, Ha.
        exists evs, msgs. split; [split; [exact Ht | now rewrite Hh, <- List.app_assoc]|].
        split; [assumption|]. apply KeyIntent; try assumption. right. now rewrite Ha.
      * run_l. exists [], []. split; [split; cbn; [now rewrite app_nil_r | reflexivity]|].
        split; [constructor|]. apply KeyIntent; try assumption. left. now repeat split.
    + match goal with |- context [reasoningLoop servers cfg ?n ?st ?sn env ?w0] =>
        destruct (reasoningLoop_shape n st sn env w0)
          as (evs & msgs & [Ht Hh] & Hf & Hp & Hl & Hm)
      end.
      cbn [ctrace history] in Ht, Hh.
      exists evs, msgs. split; [split; [exact Ht | now rewrite Hh, <- List.app_assoc]|].
      split; [assumption|]. now apply ModelTurn.
Qed.

Lemma wizardCall_dispatches (args : fields_t) (evs : list ChatEvent) :
  wizardCall args evs ->
  modelCalls evs = [] /\
  (dispatches evs = [] \/
   dispatches evs = [("terminal-server", "generate_ssh_key", args)] /\
   findServer servers "terminal-server" = true).
Proof.
  intros [[-> _]|(reply & -> & Hsrv)]; (split; [reflexivity|]); [now left | now right].
Qed.

(** X13.  Whatever the model answers, the tool calls of a user turn go
    to connected servers only and never to [terminal-server.confirm]; and
    [generate_ssh_key] is called without any option only in a turn that
    the wizard handles (the answer to its prompt, or a request for an SSH
    key that asks for the defaults). *)
Theorem model_cannot_confirm_or_default_a_key (userText : string) (env : ChatEnv)
    (w : ChatWorld) :
  exists evs,
    ctrace (snd (handleUserMessage servers cfg parseSshWizardInput userText env w))
    = (ctrace w ++ evs)%list /\
    forall srv tl args,
      In (srv, tl, args) (dispatches evs) ->
      Js.arrIncludes servers srv = true /\
      ~ (srv = "terminal-server" /\ tl = "confirm") /\
      (srv = "terminal-server" -> tl = "generate_ssh_key" -> hasAnyOption args = false ->
       awaitingSshWizardInput w = true \/ isSshKeyIntent userText = true).
Proof.
  destruct (handleUserMessage_shape userText env w) as (evs & msgs & [Ht _] & _ & Hshape).
  exists evs. split; [exact Ht|]. intros srv tl args Hin.
  assert (Hwizard : forall a, wizardCall a evs ->
            Js.arrIncludes servers srv = true /\
            ~ (srv = "terminal-server" /\ tl = "confirm")).
  { intros a Hc. destruct (wizardCall_dispatches a evs Hc) as [_ [Hd|[Hd Hsrv]]];
      rewrite Hd in Hin; [destruct Hin|].
    destruct Hin as [[= <- <- <-]|[]]. split; [exact Hsrv | intros [_ [=]]]. }
  destruct Hshape as [Haw _ Hc|Haw Hint [(_ & -> & _)|(_ & Hc & _)]|Haw Hint Hp _ _].
  - destruct (Hwizard _ Hc) as [H1 H2]. repeat split; try assumption. intros _ _ _. now left.
  - destruct Hin.
  - destruct (Hwizard _ Hc) as [H1 H2]. repeat split; try assumption. intros _ _ _. now right.
  - rewrite List.Forall_forall in Hp. destruct (Hp _ Hin) as [Hsrv Hgate].
    unfold gated in Hgate. apply orb_false_iff in Hgate as [G1 G2].
    split; [exact Hsrv|]. split.
    + intros [-> ->]. discriminate.
    + intros -> -> Hopt. rewrite Hopt in G2. discriminate.
Qed.


(** X15.  The history is append-only: a turn leaves the earlier
    messages in place, appends the user's message first, and after it only
    assistant and tool messages. *)
Theorem history_is_append_only (userText : string) (env : ChatEnv) (w : ChatWorld) :
  exists msgs,
    history (snd (handleUserMessage servers cfg parseSshWizardInput userText env w))
    = (history w ++ {| role := user; content := userText |} :: msgs)%list /\
    Forall (fun m => role m = assistant \/ role m = tool) msgs.
Proof.
  destruct (handleUserMessage_shape userText env w) as (evs & msgs & [_ Hh] & Hf & _).
  exists msgs. split; [exact Hh | exact Hf].
Qed.

(** X16.  The SSH key wizard does not consult the model.  A turn that
    answers the wizard's prompt, or whose text asks for an SSH key, makes
    no request to the model and no tool call other than one
    [terminal-server.generate_ssh_key]; the answer to the prompt is always
    taken as the options, whatever it says, and ends the wizard; a request
    for a key that does not ask for the defaults makes no call at all and
    starts the wizard. *)
Theorem ssh_key_turns_bypass_the_model (userText : string) (env : ChatEnv) (w : ChatWorld) :
  awaitingSshWizardInput w = true \/ isSshKeyIntent userText = true ->
  let w' := snd (handleUserMessage servers cfg parseSshWizardInput userText env w) in
  exists evs,
    ctrace w' = (ctrace w ++ evs)%list /\
    modelCalls evs = [] /\
    (awaitingSshWizardInput w = true ->
     awaitingSshWizardInput w' = false /\
     (dispatches evs = [] \/
      dispatches evs
      = [("terminal-server", "generate_ssh_key", parseSshWizardInput userText)])) /\
    (awaitingSshWizardInput w = false ->
     awaitingSshWizardInput w' = negb (explicitDefaults userText) /\
     (dispatches evs = [] \/
      explicitDefaults userText = true /\
      dispatches evs = [("terminal-server", "generate_ssh_key", [])])).
Proof.
  intros Hgate w'. subst w'.
  destruct (handleUserMessage_shape userText env w) as (evs & msgs & [Ht _] & _ & Hshape).
  exists evs. split; [exact Ht|].
  destruct Hshape as [Haw Haw' Hc|Haw Hint [(Hdef & -> & Haw')|(Hdef & Hc & Haw')]
                     |Haw Hint _ _ _].
  - destruct (wizardCall_dispatches _ evs Hc) as [Hm Hd].
    split; [exact Hm|]. split; [|congruence].
    intros _. split; [exact Haw'|]. destruct Hd as [Hd|[Hd _]]; [now left | now right].
  - split; [reflexivity|]. split; [congruence|].
    intros _. rewrite Hdef. split; [exact Haw' | now left].
  - destruct (wizardCall_dispatches _ evs Hc) as [Hm Hd].
    split; [exact Hm|]. split; [congruence|].
    intros _. rewrite Hdef. split; [exact Haw'|].
    destruct Hd as [Hd|[Hd _]]; [now left | right; now split].
  - destruct Hgate; congruence.
Qed.

End LoopMore.

Section LoopSamples.

Import Json Chatbot.

(** a model that always gives a final answer, and servers that answer
    every call with the same text *)
Definition quietChat : ChatEnv :=
  {| ollamaChat := fun _ _ _ => Ok "{}";
     callTool := fun _ _ _ _ => Ok {| replyText := "ok"; replyConfirmation := None |} |}.

Definition defaultConfig : ChatbotConfig :=
  {| ollamaHost := "http://127.0.0.1:11434"; ollamaModel := "llama3";
     ollamaTimeoutMs := None; maxToolStepsPerUserTurn := None |}.

Definition freshChat : ChatWorld :=
  {| history := []; awaitingSshWizardInput := false; ctrace := [] |}.

Lemma ssh_key_turns_bypass_the_model_witness :
  exists evs,
    ctrace (snd (handleUserMessage ["terminal-server"] defaultConfig (fun _ => [])
                   "make me an ssh key" quietChat freshChat))
    = (ctrace freshChat ++ evs)%list /\
    modelCalls evs = [].
Proof.
  destruct (ssh_key_turns_bypass_the_model ["terminal-server"] defaultConfig (fun _ => [])
              "make me an ssh key" quietChat freshChat (or_intror eq_refl))
    as (evs & H1 & H2 & _).
  exists evs. split; assumption.
Defined.

End LoopSamples.

(** ** More on the action parser: text around the action *)

Section ParserMore.

Import Json Chatbot.

(** [s] holds [body] after a prefix without an opening brace *)
Definition framed (body s : string) : Prop :=
  exists pre post : string, s = pre ++ body ++ post /\ indexOfBrace pre = None.

Lemma indexOfBrace_cons (c : ascii) (s : string) :
  indexOfBrace (String c s) = None -> Ascii.eqb c "{" = false /\ indexOfBrace s = None.
Proof.
  cbn [indexOfBrace]. destruct (Ascii.eqb c "{"); [discriminate|].
  destruct (indexOfBrace s); [discriminate | now split].
Qed.

Lemma trimStart_framed (inner s : string) :
  framed (String "{" inner) s -> framed (String "{" inner) (Js.trimStart s).
Proof.
  intros (pre & post & -> & Hpre). revert Hpre.
  induction pre as [|c pre IH]; intros Hpre.
  - exists "", post. split; [reflexivity | reflexivity].
  - apply indexOfBrace_cons in Hpre as [Hc Hpre].
    rewrite string_app_cons. cbn [Js.trimStart].
    destruct (Js.isWhite c); [now apply IH|].
    exists (String c pre), post. split; [reflexivity|].
    cbn [indexOfBrace]. now rewrite Hc, Hpre.
Qed.

Lemma trimEnd_keeps (a : string) (c : ascii) (t : string) :
  Js.isWhite c = false -> Js.trimEnd (a ++ String c t) = a ++ String c (Js.trimEnd t).
Proof.
  intros Hc. induction a as [|x a IH].
  - change ("" ++ String c t) with (String c t). cbn [Js.trimEnd].
    destruct (Js.trimEnd t); [now rewrite Hc | reflexivity].
  - rewrite string_app_cons. cbn [Js.trimEnd]. rewrite IH.
    destruct (a ++ String c (Js.trimEnd t)) eqn:E;
      [destruct a; discriminate E | now rewrite string_app_cons, E].
Qed.

(** a body that ends with a closing brace *)
Definition closed (body : string) : Prop := exists inner, body = inner ++ "}".

Lemma trimEnd_framed (body s : string) :
  closed body -> framed body s -> framed body (Js.trimEnd s).
Proof.
  intros (inner & ->) (pre & post & -> & Hpre).
  exists pre, (Js.trimEnd post). split; [|assumption].
  replace (pre ++ (inner ++ "}") ++ post) with ((pre ++ inner) ++ String "}" post)
    by (now rewrite !string_app_assoc).
  rewrite trimEnd_keeps by reflexivity.
  now rewrite !string_app_assoc.
Qed.

Lemma drop_app (n : nat) (pre t : string) :
  (n <= String.length pre)%nat -> Js.drop n (pre ++ t) = Js.drop n pre ++ t.
Proof.
  revert pre. induction n as [|n IH]; intros pre H; [reflexivity|].
  destruct pre as [|c pre]; [cbn in H; lia|].
  rewrite string_app_cons. cbn [Js.drop]. apply IH. cbn in H. lia.
Qed.

Lemma indexOfBrace_drop (n : nat) (pre : string) :
  indexOfBrace pre = None -> indexOfBrace (Js.drop n pre) = None.
Proof.
  revert pre. induction n as [|n IH]; intros pre H; [assumption|].
  destruct pre as [|c pre]; [reflexivity|].
  apply indexOfBrace_cons in H as [_ H]. cbn [Js.drop]. now apply IH.
Qed.

Fixpoint noBrace (p : string) : bool :=
  match p with
  | EmptyString => true
  | String c p' => negb (Ascii.eqb c "{") && noBrace p'
  end.

(** a prefix without a brace, of a text whose first brace comes after
    [pre], lies within [pre] *)
Lemma startsWith_within (p pre t : string) :
  noBrace p = true ->
  Js.startsWith (pre ++ String "{" t) p = true ->
  (String.length p <= String.length pre)%nat.
Proof.
  revert pre. induction p as [|a p IH]; intros pre Hp H; [cbn; lia|].
  cbn [noBrace] in Hp. apply andb_true_iff in Hp as [Ha Hp].
  apply negb_true_iff in Ha.
  destruct pre as [|b pre].
  - change ("" ++ String "{" t) with (String "{" t) in H. cbn [Js.startsWith] in H.
    rewrite Ha in H. discriminate.
  - rewrite string_app_cons in H. cbn [Js.startsWith] in H.
    apply andb_true_iff in H as [_ H]. specialize (IH pre Hp H). cbn. lia.
Qed.

Lemma startsWith_take (n : nat) (x p : string) :
  Js.startsWith (Js.take n x) p = true -> Js.startsWith x p = true.
Proof.
  revert n x. induction p as [|a p IH]; intros n x H; [reflexivity|].
  destruct n as [|n]; [discriminate|]. destruct x as [|b x]; [discriminate|].
  cbn [Js.take Js.startsWith] in *. apply andb_true_iff in H as [-> H].
  now rewrite (IH n x H).
Qed.

Lemma toLowerCase_app (s t : string) : toLowerCase (s ++ t) = toLowerCase s ++ toLowerCase t.
Proof.
  induction s as [|c s IH]; [reflexivity|].
  rewrite string_app_cons. cbn [toLowerCase]. now rewrite IH, string_app_cons.
Qed.

Lemma length_toLowerCase (s : string) : String.length (toLowerCase s) = String.length s.
Proof. induction s as [|c s IH]; [reflexivity|]. cbn. now rewrite IH. Qed.

Lemma startsWith_take_lower (n : nat) (x p : string) :
  Js.startsWith (toLowerCase (Js.take n x)) p = true -> Js.startsWith (toLowerCase x) p = true.
Proof.
  revert n x. induction p as [|a p IH]; intros n x H; [reflexivity|].
  destruct n as [|n]; [discriminate|]. destruct x as [|b x]; [discriminate|].
  cbn [Js.take toLowerCase Js.startsWith] in *. apply andb_true_iff in H as [-> H].
  now rewrite (IH n x H).
Qed.

Lemma stripLeadingFence_framed (inner s : string) :
  framed (String "{" inner) s -> framed (String "{" inner) (stripLeadingFence s).
Proof.
  intros Hs. unfold stripLeadingFence.
  destruct (Js.startsWith s fence) eqn:Hfence; [|assumption].
  apply trimStart_framed.
  destruct Hs as (pre & post & -> & Hpre).
  change (String "{" inner ++ post) with (String "{" (inner ++ post)) in *.
  pose proof (startsWith_within fence pre (inner ++ post) eq_refl Hfence) as Hlen.
  rewrite (drop_app 3 pre) by exact Hlen.
  pose proof (indexOfBrace_drop 3 pre Hpre) as Hpre3.
  set (pre3 := Js.drop 3 pre) in *.
  destruct (Js.startsWith (toLowerCase (Js.take 4 (pre3 ++ String "{" (inner ++ post)))) "json")
    eqn:Hjson.
  - apply startsWith_take_lower in Hjson. rewrite toLowerCase_app in Hjson.
    change (toLowerCase (String "{" (inner ++ post)))
      with (String "{" (toLowerCase (inner ++ post))) in Hjson.
    pose proof (startsWith_within "json" _ _ eq_refl Hjson) as Hlen4.
    rewrite length_toLowerCase in Hlen4.
    rewrite (drop_app 4 pre3) by exact Hlen4.
    exists (Js.drop 4 pre3), post. split; [reflexivity | now apply indexOfBrace_drop].
  - now exists pre3, post.
Qed.

Lemma endsWith_spec (s suffix : string) :
  endsWith s suffix = true -> exists a, s = a ++ suffix.
Proof.
  induction s as [|c s IH]; cbn [endsWith]; intros H.
  - rewrite orb_false_r in H. apply String.eqb_eq in H. subst. now exists "".
  - apply orb_true_iff in H as [H|H].
    + apply String.eqb_eq in H. rewrite H. now exists "".
    + destruct (IH H) as (a & ->). now exists (String c a).
Qed.

Lemma snoc_inj (a b : string) (c d : ascii) :
  a ++ String c "" = b ++ String d "" -> a = b /\ c = d.
Proof.
  revert b. induction a as [|x a IH]; intros [|y b] H.
  - injection H as ->. now split.
  - rewrite string_app_cons in H. injection H as -> H. destruct b; discriminate H.
  - rewrite string_app_cons in H. injection H as -> H. destruct a; discriminate H.
  - rewrite !string_app_cons in H. injection H as -> H.
    destruct (IH b H) as [-> ->]. now split.
Qed.

Lemma length_nonempty_snoc (s : string) :
  s <> "" -> exists a c, s = a ++ String c "".
Proof.
  induction s as [|x s IH]; [congruence|]. intros _.
  destruct s as [|y s].
  - now exists "", x.
  - destruct IH as (a & c & E); [discriminate|]. rewrite E. now exists (String x a), c.
Qed.

(** when a text that holds [... }] ends with the fence, the fence is
    after the brace *)
Lemma fence_after_brace (Y post : string) :
  endsWith ((Y ++ "}") ++ post) fence = true ->
  exists post0, post = post0 ++ fence.
Proof.
  intros H. apply endsWith_spec in H as (a & E).
  unfold fence in *.
  destruct (string_dec post "") as [->|Hne].
  { rewrite string_app_empty_r in E.
    change (a ++ "```") with (a ++ String "`" (String "`" (String "`" ""))) in E.
    replace (a ++ String "`" (String "`" (String "`" "")))
      with ((a ++ "``") ++ String "`" "") in E by (now rewrite string_app_assoc).
    apply snoc_inj in E as [_ E]. discriminate E. }
  destruct (length_nonempty_snoc post Hne) as (p1 & c1 & ->).
  replace (a ++ "```") with ((a ++ "``") ++ String "`" "") in E
    by (now rewrite string_app_assoc).
  rewrite <- string_app_assoc in E. apply snoc_inj in E as [E ->].
  destruct (string_dec p1 "") as [->|Hne1].
  { rewrite string_app_empty_r in E.
    replace (a ++ "``") with ((a ++ "`") ++ String "`" "") in E
      by (now rewrite string_app_assoc).
    apply snoc_inj in E as [_ E]. discriminate E. }
  destruct (length_nonempty_snoc p1 Hne1) as (p2 & c2 & ->).
  replace (a ++ "``") with ((a ++ "`") ++ String "`" "") in E
    by (now rewrite string_app_assoc).
  rewrite <- string_app_assoc in E. apply snoc_inj in E as [E ->].
  destruct (string_dec p2 "") as [->|Hne2].
  { rewrite string_app_empty_r in E. apply snoc_inj in E as [_ E]. discriminate E. }
  destruct (length_nonempty_snoc p2 Hne2) as (p3 & c3 & ->).
  rewrite <- string_app_assoc in E. apply snoc_inj in E as [E ->].
  exists p3. now rewrite !string_app_assoc.
Qed.

Lemma take_app_exact (s t u : string) (n : nat) :
  n = String.length (s ++ t) -> Js.take n ((s ++ t) ++ u) = s ++ t.
Proof. intros ->. apply take_prefix. Qed.

Lemma stripTrailingFence_framed (body s : string) :
  closed body -> framed body s -> framed body (stripTrailingFence s).
Proof.
  intros (inner & ->) Hs. unfold stripTrailingFence.
  destruct (endsWith s fence) eqn:Hfence; [|assumption].
  destruct Hs as (pre & post & -> & Hpre).
  replace (pre ++ (inner ++ "}") ++ post) with (((pre ++ inner) ++ "}") ++ post) in *
    by (now rewrite !string_app_assoc).
  destruct (fence_after_brace _ _ Hfence) as (post0 & ->).
  exists pre, post0. split; [|assumption].
  replace (String.length ((((pre ++ inner) ++ "}") ++ post0 ++ fence)) - 3)%nat
    with (String.length (((pre ++ inner) ++ "}") ++ post0)).
  - rewrite <- (string_app_assoc _ post0 fence), take_prefix.
    now rewrite !string_app_assoc.
  - rewrite <- (string_app_assoc _ post0 fence), (string_length_app _ fence).
    cbn [fence String.length]. lia.
Qed.

Lemma indexOfBrace_framed (pre inner post : string) :
  indexOfBrace pre = None ->
  indexOfBrace (pre ++ String "{" inner ++ post) = Some (String.length pre) /\
  Js.drop (String.length pre) (pre ++ String "{" inner ++ post) = String "{" inner ++ post.
Proof.
  induction pre as [|c pre IH]; intros H.
  - split; reflexivity.
  - apply indexOfBrace_cons in H as [Hc H]. destruct (IH H) as [Hi Hd].
    rewrite string_app_cons. cbn [indexOfBrace String.length Js.drop].
    rewrite Hc, Hi. now split.
Qed.

(** the extraction finds a serialized object inside its frame *)
Lemma extract_framed (fields : fields_t) (s : string) :
  framed (stringify (Obj fields)) s ->
  extractFirstJsonObjectString s = Some (stringify (Obj fields)).
Proof.
  intros (pre & post & -> & Hpre). unfold extractFirstJsonObjectString.
  rewrite stringify_obj.
  change (String "{" (commaSep (List.map renderField fields) ++ "}") ++ post)
    with (String "{" ((commaSep (List.map renderField fields) ++ "}") ++ post)).
  destruct (indexOfBrace_framed pre ((commaSep (List.map renderField fields) ++ "}") ++ post) ""
              Hpre) as [Hi Hd].
  rewrite string_app_empty_r in Hi, Hd. rewrite Hi, Hd.
  cbn [scanObject Ascii.eqb Bool.eqb]. cbv beta iota.
  change (0 + 1 =? 0) with false. cbv beta iota.
  rewrite string_app_assoc.
  rewrite (passes_fields fields) by
    (apply Forall_forall; intros kv _; apply passes_stringify) || lia.
  change ("}" ++ post) with (String "}" post).
  cbn [scanObject Ascii.eqb Bool.eqb]. cbv beta iota.
  change (0 + 1 - 1 =? 0) with true. cbv beta iota.
  f_equal.
  replace (S (String.length (commaSep (List.map renderField fields)) + 1))
    with (String.length (String "{" (commaSep (List.map renderField fields) ++ "}"))).
  - change (String "{" (commaSep (List.map renderField fields) ++ String "}" post))
      with ("{" ++ commaSep (List.map renderField fields) ++ "}" ++ post).
    replace ("{" ++ commaSep (List.map renderField fields) ++ "}" ++ post)
      with (String "{" (commaSep (List.map renderField fields) ++ "}") ++ post)
      by (now rewrite string_app_cons, string_app_assoc).
    apply take_prefix.
  - cbn [String.length]. rewrite string_length_app. cbn [String.length]. lia.
Qed.

Lemma safeJsonParse_framed (fields : fields_t) (s : string) :
  wf (Obj fields) -> framed (stringify (Obj fields)) s ->
  safeJsonParse s = Ok (Obj fields).
Proof.
  intros Hwf Hs. unfold safeJsonParse. cbv zeta.
  assert (Hclosed : closed (stringify (Obj fields))).
  { rewrite stringify_obj. eexists. rewrite <- string_app_cons. reflexivity. }
  assert (Hfinal : framed (stringify (Obj fields))
                     (Js.trim (stripTrailingFence (stripLeadingFence (Js.trim s))))).
  { unfold Js.trim. rewrite stringify_obj in *.
    apply trimEnd_framed; [assumption|]. apply trimStart_framed.
    apply stripTrailingFence_framed; [assumption|]. apply stripLeadingFence_framed.
    apply trimEnd_framed; [assumption|]. now apply trimStart_framed. }
  rewrite (extract_framed fields _ Hfinal). cbn [default from_option id].
  now rewrite parse_stringify.
Qed.



End ParserMore.

(** ** The router of slash commands *)

Section RouterFacts.

Import Json Chatbot Router.

Fixpoint noWhite (s : string) : bool :=
  match s with
  | EmptyString => true
  | String c s' => negb (Js.isWhite c) && noWhite s'
  end.

(** a word: not empty, no white space *)
Definition word (s : string) : Prop := s <> "" /\ noWhite s = true.

(** the last code unit is not white space *)
Definition endsBlack (s : string) : Prop :=
  exists c, lastChar s = Some c /\ Js.isWhite c = false.

Lemma endsBlack_tail (c : ascii) (s : string) :
  endsBlack (String c s) -> s <> "" -> endsBlack s.
Proof. intros H Hne. destruct s as [|c' s]; [congruence | exact H]. Qed.

Lemma endsBlack_white (c : ascii) (s : string) :
  endsBlack (String c s) -> Js.isWhite c = true -> s <> "".
Proof.
  intros (x & Hlast & Hx) Hc ->. cbn in Hlast. injection Hlast as <-. congruence.
Qed.

Lemma splitWs_words (s : string) :
  endsBlack s ->
  forall (b : bool) (p : string) (ps : list string),
    splitWs b s = (p, ps) ->
    noWhite p = true /\ Forall word ps /\ (b = true -> p <> "").
Proof.
  induction s as [|c s IH]; intros Hend b p ps H.
  - destruct Hend as (x & Hlast & _). discriminate Hlast.
  - cbn [splitWs] in H. destruct (Js.isWhite c) eqn:Hc.
    + pose proof (endsBlack_white c s Hend Hc) as Hne.
      pose proof (endsBlack_tail c s Hend Hne) as Hend'.
      destruct b.
      * exact (IH Hend' true p ps H).
      * destruct (splitWs true s) as [p' ps'] eqn:E. injection H as <- <-.
        destruct (IH Hend' true p' ps' E) as (Hp' & Hps' & Hne').
        split; [reflexivity|]. split; [|discriminate].
        constructor; [|assumption]. split; [now apply Hne' | assumption].
    + destruct (splitWs false s) as [p' ps'] eqn:E. injection H as <- <-.
      destruct s as [|c' s].
      * cbn in E. injection E as <- <-. cbn [noWhite]. rewrite Hc.
        split; [reflexivity|]. split; [constructor | discriminate].
      * destruct (IH (endsBlack_tail c _ Hend ltac:(discriminate)) false p' ps' E)
          as (Hp' & Hps' & _).
        cbn [noWhite]. rewrite Hc, Hp'. split; [reflexivity|]. split; [assumption | discriminate].
Qed.

Lemma trimEnd_endsBlack (s : string) : Js.trimEnd s <> "" -> endsBlack (Js.trimEnd s).
Proof.
  induction s as [|c s IH]; [intros H; now contradiction H|]. cbn [Js.trimEnd].
  destruct (Js.trimEnd s) as [|c' t] eqn:E.
  - destruct (Js.isWhite c) eqn:Hc; [intros H; congruence|]. intros _. now exists c.
  - intros _. destruct (IH ltac:(discriminate)) as (x & Hlast & Hx). now exists x.
Qed.

Lemma trimStart_first (s : string) (c : ascii) (t : string) :
  Js.trimStart s = String c t -> Js.isWhite c = false.
Proof.
  induction s as [|x s IH]; [discriminate|]. cbn [Js.trimStart].
  destruct (Js.isWhite x) eqn:Hx; [exact IH|]. intros [= <- _]. exact Hx.
Qed.

Lemma trimEnd_first (s : string) (c : ascii) (t : string) :
  Js.trimEnd s = String c t -> exists t', s = String c t'.
Proof.
  destruct s as [|x s]; [discriminate|]. cbn [Js.trimEnd].
  destruct (Js.trimEnd s); [destruct (Js.isWhite x); [discriminate|]|];
    intros [= <- _]; eauto.
Qed.

(** the words of a line that is not blank *)
Lemma trim_words (line head : string) (rest : list string) :
  Js.truthy (Js.trim line) = true ->
  splitWs false (Js.trim line) = (head, rest) ->
  word head /\ Forall word rest.
Proof.
  intros Ht Hsplit.
  assert (Hne : Js.trim line <> "") by (intros E; rewrite E in Ht; discriminate).
  pose proof (trimEnd_endsBlack _ Hne) as Hend. fold (Js.trim line) in Hend.
  destruct (splitWs_words _ Hend false head rest Hsplit) as (Hw & Hrest & _).
  split; [|assumption]. split; [|assumption].
  destruct (Js.trim line) as [|c t] eqn:E; [congruence|].
  unfold Js.trim in E. destruct (trimEnd_first _ _ _ E) as (t' & E').
  apply trimStart_first in E'. cbn [splitWs] in Hsplit. rewrite E' in Hsplit.
  destruct (splitWs false t). injection Hsplit as <- _. discriminate.
Qed.

(** X18.  Slash commands other than [use] reach the terminal server
    only: the call that [routeLine] returns for a line whose first word is
    not [use] goes to [terminal-server], is returned only when that server
    is connected, names one of [confirm], [run], [read_file] and
    [write_file], and a blank line routes nowhere. *)
Theorem routed_calls_go_to_the_terminal_server (line : string) (servers : list string)
    (call : RoutedToolCall) :
  (Js.trim line = "" -> routeLine line servers = Ok None) /\
  (routeLine line servers = Ok (Some call) ->
   fst (splitWs false (Js.trim line)) <> "use" ->
   serverName call = "terminal-server" /\
   Js.arrIncludes servers "terminal-server" = true /\
   In (toolName call) ["confirm"; "run"; "read_file"; "write_file"]).
Proof.
  split.
  - intros E. unfold routeLine. now rewrite E.
  - unfold routeLine. cbv zeta.
    destruct (Js.truthy (Js.trim line)); cbn [negb]; [|discriminate].
    destruct (splitWs false (Js.trim line)) as [head rest]. cbn [fst].
    intros H Huse. apply String.eqb_neq in Huse. rewrite Huse in H.
    destruct (Js.arrIncludes servers "terminal-server"); cbn [negb] in H; [|discriminate].
    unfold terminal in H.
    repeat match type of H with
           | context [if ?b then _ else _] => destruct b
           | context [match ?l with [] => _ | _ :: _ => _ end] => destruct l
           end;
      try discriminate; injection H as <-; cbn; intuition.
Qed.

(** X19.  The router cuts a line at white space and knows no quoting:
    the command and the arguments of a routed [run] (named or by
    fallback), the token of [confirm] and the paths of [read] and [write]
    are words of the line, never empty and without white space. *)
Theorem routed_arguments_are_words (line : string) (servers : list string)
    (call : RoutedToolCall) :
  routeLine line servers = Ok (Some call) ->
  fst (splitWs false (Js.trim line)) <> "use" ->
  (forall cmd argv,
      args call = [("command", Str cmd); ("args", Arr (List.map Str argv))] ->
      word cmd /\ Forall word argv) /\
  (forall k v, In k ["token"; "path"] -> getField k (args call) = Some (Str v) -> word v).
Proof.
  unfold routeLine. cbv zeta.
  destruct (Js.truthy (Js.trim line)) eqn:Ht; cbn [negb]; [|discriminate].
  destruct (splitWs false (Js.trim line)) as [head rest] eqn:Hsplit. cbn [fst].
  destruct (trim_words line head rest Ht Hsplit) as [Hhead Hrest].
  intros H Huse. apply String.eqb_neq in Huse. rewrite Huse in H.
  destruct (Js.arrIncludes servers "terminal-server"); cbn [negb] in H; [|discriminate].
  unfold terminal in H.
  assert (Hmap : forall l l' : list string, List.map Str l = List.map Str l' -> l = l').
  { induction l as [|x l IH]; intros [|y l'] E; try discriminate; [reflexivity|].
    cbn in E. injection E as -> E. f_equal. now apply IH. }
  repeat match type of H with
         | context [if ?b then _ else _] => destruct b
         | context [match ?l with [] => _ | _ :: _ => _ end] => destruct l
         end;
    try discriminate; injection H as <-; cbn [args]; split;
    try (intros cmd argv [=]; subst; try apply Hmap in H1; subst);
    try (intros k v [<-|[<-|[]]]; cbn; intros [=]; subst);
    try (inversion Hrest; subst; now split);
    try (split; [assumption | constructor]);
    try (inversion Hrest; assumption).
Qed.

Lemma splitWs_word_end (a : string) : noWhite a = true -> splitWs false a = (a, []).
Proof.
  induction a as [|c a IH]; [reflexivity|]. cbn [noWhite]. intros H.
  apply andb_true_iff in H as [Hc Ha]. apply negb_true_iff in Hc.
  cbn [splitWs]. now rewrite Hc, (IH Ha).
Qed.

Lemma splitWs_skip (a s : string) :
  word a -> splitWs true (a ++ s) = splitWs false (a ++ s).
Proof.
  intros [Hne Ha]. destruct a as [|c a]; [congruence|].
  cbn [noWhite] in Ha. apply andb_true_iff in Ha as [Hc _]. apply negb_true_iff in Hc.
  rewrite string_app_cons. cbn [splitWs]. now rewrite Hc.
Qed.

Lemma splitWs_true_word (a : string) : word a -> splitWs true a = (a, []).
Proof.
  intros Ha. rewrite <- (splitWs_word_end a (proj2 Ha)).
  rewrite <- (string_app_empty_r a). now apply splitWs_skip.
Qed.

Lemma splitWs_word_space (a s : string) :
  noWhite a = true ->
  splitWs false (a ++ " " ++ s) = (a, fst (splitWs true s) :: snd (splitWs true s)).
Proof.
  induction a as [|c a IH]; cbn [noWhite]; intros H.
  - change ("" ++ " " ++ s) with (String " " s). cbn [splitWs Js.isWhite].
    now destruct (splitWs true s).
  - apply andb_true_iff in H as [Hc Ha]. apply negb_true_iff in Hc.
    rewrite string_app_cons. cbn [splitWs]. now rewrite Hc, (IH Ha).
Qed.

Lemma indexOf_app (ch : ascii) (a t : string) :
  indexOf ch a = None -> indexOf ch (a ++ String ch t) = Some (String.length a).
Proof.
  induction a as [|c a IH]; intros H.
  - change ("" ++ String ch t) with (String ch t). cbn [indexOf]. now rewrite Ascii.eqb_refl.
  - cbn [indexOf] in H. rewrite string_app_cons. cbn [indexOf String.length].
    destruct (Ascii.eqb c ch); [discriminate|].
    destruct (indexOf ch a); [discriminate|]. now rewrite IH.
Qed.

Lemma drop_prefix (a t : string) : Js.drop (String.length a) (a ++ t) = t.
Proof. induction a as [|c a IH]; [reflexivity|]. rewrite string_app_cons. exact IH. Qed.

Lemma noWhite_app (a b : string) : noWhite (a ++ b) = noWhite a && noWhite b.
Proof.
  induction a as [|c a IH]; [reflexivity|].
  rewrite string_app_cons. cbn [noWhite]. now rewrite IH, andb_assoc.
Qed.

Lemma trim_word (a : string) : word a -> Js.trim a = a.
Proof.
  intros [Hne Ha]. unfold Js.trim.
  assert (Hstart : Js.trimStart a = a).
  { destruct a as [|c a]; [reflexivity|]. cbn [noWhite] in Ha.
    apply andb_true_iff in Ha as [Hc _]. apply negb_true_iff in Hc.
    cbn [Js.trimStart]. now rewrite Hc. }
  rewrite Hstart. clear Hstart Hne.
  induction a as [|c a IH]; [reflexivity|]. cbn [noWhite] in Ha.
  apply andb_true_iff in Ha as [Hc Ha]. apply negb_true_iff in Hc.
  cbn [Js.trimEnd]. rewrite (IH Ha), Hc. now destruct a.
Qed.


Lemma routed_arguments_are_words_witness :
  word "ls" /\ Forall word ["-la"; "src"].
Proof.
  apply (proj1 (routed_arguments_are_words "  run ls   -la src " ["terminal-server"]
                  {| serverName := "terminal-server"; toolName := "run";
                     args := [("command", Str "ls");
                              ("args", Arr [Str "-la"; Str "src"])] |}
                  eq_refl ltac:(discriminate)) "ls" ["-la"; "src"] eq_refl).
Defined.


End RouterFacts.

(** ** The endpoint URL *)

Section OllamaFacts.

Import Ollama.

(** [n] slashes *)
Fixpoint slashes (n : nat) : string :=
  match n with
  | O => ""
  | S n' => String "/" (slashes n')
  end.

Lemma stripTrailingSlashes_slashes (n : nat) : stripTrailingSlashes (slashes n) = "".
Proof. induction n as [|n IH]; [reflexivity|]. cbn [slashes stripTrailingSlashes]. now rewrite IH. Qed.

Lemma stripTrailingSlashes_app (host : string) (n : nat) :
  stripTrailingSlashes (host ++ slashes n) = stripTrailingSlashes host.
Proof.
  induction host as [|c host IH].
  - apply stripTrailingSlashes_slashes.
  - rewrite string_app_cons. cbn [stripTrailingSlashes]. now rewrite IH.
Qed.

Lemma stripTrailingSlashes_end (host h' : string) :
  stripTrailingSlashes host <> h' ++ "/".
Proof.
  revert h'. induction host as [|c host IH]; intros h'.
  - destruct h'; discriminate.
  - cbn [stripTrailingSlashes].
    destruct (stripTrailingSlashes host) as [|c' t] eqn:E.
    + destruct (Ascii.eqb_spec c "/") as [->|Hc]; [destruct h'; discriminate|].
      destruct h' as [|x [|y h']]; try discriminate. intros [= ->]. congruence.
    + destruct h' as [|x h']; [discriminate|].
      rewrite string_app_cons. intros [= -> H]. exact (IH h' H).
Qed.

(** X21.  [joinUrl] puts exactly one slash between host and path where
    the writer was careless: trailing slashes of the host do not count, a
    path without a leading slash gets one, and what [joinUrl] keeps of the
    host never ends with a slash. *)
Theorem joinUrl_forgives_slashes (host path : string) (n : nat) :
  joinUrl (host ++ slashes n) path = joinUrl host path /\
  (Js.startsWith path "/" = false -> joinUrl host ("/" ++ path) = joinUrl host path) /\
  exists h, joinUrl host path = h ++ (if Js.startsWith path "/" then path else "/" ++ path) /\
            host = h ++ slashes (String.length host - String.length h) /\
            forall h', h <> h' ++ "/".
Proof.
  split; [|split].
  - unfold joinUrl. now rewrite stripTrailingSlashes_app.
  - intros Hp. unfold joinUrl. cbv zeta. rewrite Hp. reflexivity.
  - exists (stripTrailingSlashes host). split; [reflexivity|].
    split; [|apply stripTrailingSlashes_end].
    induction host as [|c host IH]; [reflexivity|].
    cbn [stripTrailingSlashes].
    destruct (stripTrailingSlashes host) as [|c' t] eqn:E.
    + destruct (Ascii.eqb_spec c "/") as [->|Hc].
      * cbn [String.length]. rewrite Nat.sub_0_r in *. cbn [slashes].
        change ("" ++ ?x) with x in *. now rewrite <- IH.
      * cbn [String.length] in *. rewrite Nat.sub_0_r in IH.
        replace (S (String.length host) - 1)%nat with (String.length host) by lia.
        change ("" ++ ?x) with x in IH. now rewrite string_app_cons, <- IH.
    + cbn [String.length] in *. rewrite string_app_cons.
      replace (S (String.length host) - S (S (String.length t)))%nat
        with (String.length host - S (String.length t))%nat by lia.
      now rewrite <- IH.
Qed.

End OllamaFacts.

(** ** The search for configuration files *)

Section ConfigFacts.

Import Config.

(** the [i]-th directory of the walk, and the file looked for there *)
Definition ancestor (i : nat) (dir : string) : string := Nat.iter i Path.dirname dir.

Definition candidate (fileName : string) (dir : string) (i : nat) : string :=
  Path.join [ancestor i dir; fileName].

Lemma ancestor_parent (i : nat) (dir : string) :
  ancestor i (Path.dirname dir) = ancestor (S i) dir.
Proof.
  unfold ancestor. symmetry. apply Nat.iter_succ_r.
Qed.

(** how the upward walk ends *)
Inductive WalkEnd (fileName dir : string) (access : nat -> string -> bool) (base : nat)
  : nat -> option string -> Prop :=
| WalkFound (j : nat) :
    access (base + j)%nat (candidate fileName dir j) = true ->
    WalkEnd fileName dir access base (S j) (Some (candidate fileName dir j))
| WalkMissed (k : nat) :
    (forall i, (i < k)%nat -> access (base + i)%nat (candidate fileName dir i) = false) ->
    WalkEnd fileName dir access base k None.

Lemma searchUp_spec (fileName : string) (levels : nat) :
  forall (dir : string) (access : nat -> string -> bool) (probed : list string),
  exists k,
    (k <= levels)%nat /\
    snd (searchUp fileName levels dir access probed)
    = (probed ++ List.map (candidate fileName dir) (seq 0 k))%list /\
    (forall i, (S i < k)%nat ->
               access (length probed + i)%nat (candidate fileName dir i) = false) /\
    WalkEnd fileName dir access (length probed) k
      (fst (searchUp fileName levels dir access probed)).
Proof.
  induction levels as [|levels IH]; intros dir access probed.
  - exists 0%nat. cbn. rewrite app_nil_r. repeat split; try lia.
    apply WalkMissed. intros i Hi. lia.
  - cbn [searchUp]. unfold mbind, mret, P_bind, P_ret, fileExists.
    change (Path.join [dir; fileName]) with (candidate fileName dir 0).
    destruct (access (length probed) (candidate fileName dir 0)) eqn:Hfound.
    + exists 1%nat. cbn [fst snd seq List.map]. repeat split; try lia.
      apply (WalkFound _ _ _ _ 0%nat). now rewrite Nat.add_0_r.
    + destruct (String.eqb (Path.dirname dir) dir) eqn:Hroot.
      * exists 1%nat. cbn [fst snd seq List.map]. repeat split; try lia.
        apply WalkMissed. intros i Hi. replace i with 0%nat by lia.
        now rewrite Nat.add_0_r.
      * destruct (IH (Path.dirname dir) access (probed ++ [candidate fileName dir 0])%list)
          as (k & Hk & Hprobed & Hfalse & Hend).
        assert (Hcand : forall i, candidate fileName (Path.dirname dir) i
                                  = candidate fileName dir (S i)).
        { intros i. unfold candidate. now rewrite ancestor_parent. }
        rewrite length_app in Hfalse, Hend. cbn [length] in Hfalse, Hend.
        exists (S k). split; [lia|]. split; [|split].
        -- rewrite Hprobed, <- List.app_assoc. cbn [app seq List.map]. do 2 f_equal.
           rewrite <- seq_shift, List.map_map. apply List.map_ext. exact Hcand.
        -- intros [|i] Hi; [now rewrite Nat.add_0_r|].
           rewrite <- Hcand. replace (length probed + S i)%nat with (length probed + 1 + i)%nat
             by lia.
           apply Hfalse. lia.
        -- destruct Hend as [j Hj|k Hmiss].
           ++ rewrite Hcand. apply WalkFound.
              rewrite <- Hcand. now replace (length probed + S j)%nat
                with (length probed + 1 + j)%nat by lia.
           ++ apply WalkMissed. intros [|i] Hi; [now rewrite Nat.add_0_r|].
              rewrite <- Hcand. replace (length probed + S i)%nat
                with (length probed + 1 + i)%nat by lia.
              apply Hmiss. lia.
Qed.

(** X22.  [findConfigPath] without [LAYA_CONFIG_PATH] (unset, or set to
    the empty string) looks for [config.json] in the working directory and
    then in its parents, nearest first, in at most 8 directories; it
    returns the first one that [fs.access] finds and probes nothing after
    it; it never fails.  With the variable set, only that path (resolved)
    is probed, and a missing file is an error instead of a search. *)
Theorem findConfigPath_nearest_first (explicit : option string) (cwd : string)
    (access : nat -> string -> bool) :
  let r := fst (findConfigPath explicit cwd access []) in
  let probed := snd (findConfigPath explicit cwd access []) in
  (envSet explicit = false ->
   exists k,
     (k <= 8)%nat /\
     probed = List.map (candidate "config.json" cwd) (seq 0 k) /\
     (forall i, (S i < k)%nat -> access i (candidate "config.json" cwd i) = false) /\
     ((r = Ok None /\
       forall i, (i < k)%nat -> access i (candidate "config.json" cwd i) = false) \/
      exists j, k = S j /\ r = Ok (Some (candidate "config.json" cwd j)) /\
                access j (candidate "config.json" cwd j) = true)) /\
  (envSet explicit = true ->
   let abs := Path.resolve cwd [default "" explicit] in
   probed = [abs] /\
   r = if access 0%nat abs then Ok (Some abs)
       else Err IOFailure ("LAYA_CONFIG_PATH does not exist: " ++ abs)).
Proof.
  cbv zeta. unfold findConfigPath. split; intros Hset; rewrite Hset.
  - unfold mbind, mret, P_bind, P_ret.
    destruct (searchUp_spec "config.json" 8 cwd access []) as (k & Hk & Hprobed & Hfalse & Hend).
    destruct (searchUp "config.json" 8 cwd access []) as [found probed].
    cbn [fst snd app length Nat.add] in *.
    exists k. split; [assumption|]. split; [assumption|]. split; [assumption|].
    destruct Hend as [j Hj|k Hmiss]; [right; eauto | left; now split].
  - unfold mbind, mret, P_bind, P_ret, fileExists. cbn [length app].
    destruct (access 0%nat (Path.resolve cwd [default "" explicit])); now split.
Qed.

(** X23.  [findMcpJsonPath] with [MCP_JSON_PATH] set returns that path,
    resolved, without looking at the file system.  Otherwise it looks for
    [mcp.json] in the working directory and then in its parents, nearest
    first, in at most 6 directories, and fails when none of the probes
    finds the file. *)
Theorem findMcpJsonPath_nearest_first (explicit : option string) (cwd : string)
    (access : nat -> string -> bool) :
  let r := fst (findMcpJsonPath explicit cwd access []) in
  let probed := snd (findMcpJsonPath explicit cwd access []) in
  (envSet explicit = true ->
   probed = [] /\ r = Ok (Path.resolve cwd [default "" explicit])) /\
  (envSet explicit = false ->
   exists k,
     (k <= 6)%nat /\
     probed = List.map (candidate "mcp.json" cwd) (seq 0 k) /\
     (forall i, (S i < k)%nat -> access i (candidate "mcp.json" cwd i) = false) /\
     ((r = Err IOFailure "Unable to find mcp.json (set MCP_JSON_PATH to an absolute path)" /\
       forall i, (i < k)%nat -> access i (candidate "mcp.json" cwd i) = false) \/
      exists j, k = S j /\ r = Ok (candidate "mcp.json" cwd j) /\
                access j (candidate "mcp.json" cwd j) = true)).
Proof.
  cbv zeta. unfold findMcpJsonPath. split; intros Hset; rewrite Hset.
  - now split.
  - unfold mbind, mret, P_bind, P_ret.
    destruct (searchUp_spec "mcp.json" 6 cwd access []) as (k & Hk & Hprobed & Hfalse & Hend).
    destruct (searchUp "mcp.json" 6 cwd access []) as [found probed].
    cbn [fst snd app length Nat.add] in *.
    exists k. split; [assumption|]. split.
    { destruct found; assumption. }
    split; [assumption|].
    destruct Hend as [j Hj|k Hmiss]; [right; eauto | left; now split].
Qed.

End ConfigFacts.

(** ** From the server's answer to the client's pending confirmation *)

Section ProtocolFacts.

Import Runner Terminal.

Variable RegExp : string -> option (string -> bool).
Variable toISOString : Z -> string.

(** X24.  What the client reads out of the answer of [run] is what the
    server stored.  When [extractConfirmation] finds a confirmation in the
    answer, its token is a key of the server's store, the record under it
    is at stage 1 and holds the requested command line, the reason and the
    expiry are the record's, and no process has been started.  When it
    finds none, either the server stored nothing, or the token is the
    empty string. *)
Theorem client_reads_what_run_stored (ctx : TerminalContext) (params : RunParams)
    (env : Env) (w : World) (res : ToolResponse) :
  fst (toolRun RegExp ctx params env w) = Ok res ->
  let w' := snd (toolRun RegExp ctx params env w) in
  match Protocol.extractConfirmation (Protocol.confirmableResult toISOString res) with
  | Some pc =>
      exists p, pending w' !! Chatbot.pc_token pc = Some p /\
                stage p = Stage1 /\
                command p = rp_command params /\
                args p = default [] (rp_args params) /\
                Chatbot.pc_reason pc = Some (reason p) /\
                Chatbot.pc_expiresAt pc = Some (toISOString (expiresAtMs p)) /\
                spawns (trace w') = spawns (trace w)
  | None =>
      (requiresConfirmation res = None /\ pending w' = pending w) \/
      (exists c, requiresConfirmation res = Some c /\ c_token c = "")
  end.
Proof.
  intros Hr. cbv zeta.
  destruct (toolRun_cases RegExp ctx params env w)
    as [e m Hrun _ _|cwdAbs why Hadm Hd|cwdAbs Hadm Hd].
  - rewrite Hrun in Hr. discriminate.
  - rewrite (toolRun_dangerous RegExp ctx params env w cwdAbs why Hadm Hd) in Hr |- *.
    cbn [fst snd] in *. destruct (appendOk env _); [|discriminate].
    injection Hr as <-.
    unfold Protocol.confirmableResult, Protocol.extractConfirmation, Protocol.stringField.
    cbn [requiresConfirmation text c_token c_reason c_expiresAt].
    cbn [Json.getField String.eqb Ascii.eqb Bool.eqb fst snd].
    destruct (Js.truthy _) eqn:Ht.
    + eexists. cbn [Chatbot.pc_token Chatbot.pc_reason Chatbot.pc_expiresAt pending store].
      split; [apply lookup_insert_eq|]. repeat split.
      cbn [trace store extend]. rewrite spawns_app. apply app_nil_r.
    + right. eexists. split; [reflexivity|]. cbn [c_token].
      unfold Js.truthy in Ht. destruct (uuid env _); [reflexivity | discriminate].
  - rewrite (toolRun_safe RegExp ctx params env w cwdAbs Hadm Hd) in Hr |- *.
    destruct (spawnAndCapture _ _) as [sr|e m]; cbn [fst snd] in *; [|discriminate].
    destruct (appendOk env _); [|discriminate]. injection Hr as <-.
    unfold Protocol.confirmableResult, Protocol.extractConfirmation.
    cbn [requiresConfirmation text Json.getField String.eqb Ascii.eqb Bool.eqb fst snd].
    left. split; reflexivity.
Qed.

End ProtocolFacts.

Section ProtocolSamples.

Import Runner Terminal.

Lemma client_reads_what_run_stored_witness :
  exists p, pending (snd (toolRun noRegExp rmSandbox runRm calmEnv emptyWorld)) !! "T1" = Some p /\
            stage p = Stage1 /\
            command p = "rm" /\
            args p = ["-rf"; "x"].
Proof.
  destruct (client_reads_what_run_stored noRegExp Js.numToString rmSandbox runRm calmEnv
              emptyWorld
              {| text := "Refusing to execute dangerous command without confirmation." ++ Js.nl
                         ++ "Reason: " ++ rmReason ++ Js.nl
                         ++ "Step 1/2: run: confirm T1" ++ Js.nl;
                 requiresConfirmation :=
                   Some {| c_token := "T1"; c_reason := rmReason; c_expiresAt := 91000 |} |}
              eq_refl) as (p & H1 & H2 & H3 & H4 & _).
  exists p. repeat split; assumption.
Defined.

End ProtocolSamples.
